(** * MorphoSymm: symmetric groups of generalized permutations

    A shallow embedding of [groups/SymmetricGroups.py]: the classes [Sym],
    [C2] and [Klein4], the static constructors [oneline2matrix] and
    [canonical_group], and the orbit-based solver [get_equivariant_basis],
    followed by the properties that the specification states about them and
    by further properties of the code.

    Conventions of the embedding.
    - A dense 2-D array is the list of its rows, [list (list Z)]; an index is
      a [nat]; an array entry and a Python [int] are a [Z].  Arrays are
      rectangular, as NumPy's are, and the entries of the matrices are
      integers (the generators are matrices of 0, 1 and -1).
    - A matrix that SciPy stores sparsely carries the same entries together
      with the flag that [issparse] reads.  [@], [diagonal], [min] and
      [norm] exist for both storages and are the mathematical operations on
      the entries.  [np.allclose] accepts dense arrays only: applied to a
      sparse product it raises, and [Klein4.__init__] fails there.
      [np.trace] and [len(P)] are defined for dense arrays only:
      [generators_characters], [is_canonical] and [get_equivariant_basis]
      are given for dense arrays, where they return a value.
    - Stacking matrices of unequal sizes into one array raises
      ([jnp.asarray] on the dense generators, [np.array] on the diagonals).
    - [np.isclose] and [np.allclose] keep their default tolerances.
    - An [assert] that fails, and a [raise], are an [inl] of the error type;
      each constructor of [error] names the source line it comes from.
    - [set.pop()] removes an arbitrary element: the solver is stated for every
      function [pop] that returns a member of a non-empty set.
    - Sums and products of entries are those of the integers, and the only
      machine arithmetic modelled is the conversion to [int8] that
      [oneline2matrix] ends with.  This is what the code computes on dense
      arrays.  For a sparse matrix of type [int8], such as the result of
      [oneline2matrix], two computations stay in [int8] and agree with the
      integers within bounds only: SciPy's [norm] squares the entries in
      [int8] (exact for entries -1, 0 and 1), and from NumPy 2 on Python's
      [sum] of the diagonal stays in [int8] (exact below dimension 128; with
      NumPy 1 the sum is wide, which the embedding follows).  The signs given
      to [oneline2matrix] are 64-bit integers.
    - [super().__init__()] belongs to the base class of another package and
      is left out. *)

From Stdlib Require Import ZArith Lia.
From stdpp Require Import base numbers list gmap sets fin_sets strings pretty.

#[local] Set Warnings "-clear-no-such-hyp,-notation-for-abbreviation,-abstract-large-number".
#[local] Open Scope Z_scope.

(** * Part I: the program *)

(** ** Arrays *)

Abbreviation vector := (list Z).
Abbreviation matrix := (list (list Z)).

(** [np.sum] and [np.prod] of a 1-D array. *)
Definition sumZ (l : vector) : Z := foldr Z.add 0 l.
Definition prodZ (l : vector) : Z := foldr Z.mul 1 l.

(** [u @ v] for two 1-D arrays and [M @ x] for a 2-D and a 1-D array. *)
Definition dot (u v : vector) : Z := sumZ (zip_with Z.mul u v).
Definition matvec (M : matrix) (x : vector) : vector := map (λ row, dot row x) M.

(** [np.arange(n)] and [np.zeros(n)]. *)
Definition arange (n : nat) : vector := map Z.of_nat (seq 0 n).
Definition zeros (n : nat) : vector := replicate n 0.

(** [M[i, j]], [M[:, j]] and [M.shape[1]]. *)
Definition entry (M : matrix) (i j : nat) : Z := (M !!! i) !!! j.
Definition column (j : nat) (M : matrix) : vector := map (λ row, row !!! j) M.
Definition ncols (M : matrix) : nat := length (default [] (head M)).

(** [M.diagonal()], [np.trace(M)], [A @ B] and [np.eye(n)]. *)
Definition diagonal (M : matrix) : vector :=
  map (λ i, entry M i i) (seq 0 (length M `min` ncols M)).
Definition trace (M : matrix) : Z := sumZ (diagonal M).
Definition matmul (A B : matrix) : matrix :=
  map (λ row, map (λ j, dot row (column j B)) (seq 0 (ncols B))) A.
Definition eye (n : nat) : matrix := map (λ i, <[i:=1]> (zeros n)) (seq 0 n).

(** [np.isclose(a, b)] with the default tolerances [rtol = 1e-5] and
    [atol = 1e-8], that is [|a - b| <= atol + rtol * |b|], on integers: both
    sides are multiplied by [10^8].  The two sides are never equal (one is a
    multiple of 1000, the other is not), so they are at least [1e-8] apart,
    which is more than the rounding of the floating-point evaluation for the
    integers met here (traces and dimensions, below [10^9]). *)
Definition isclose (a b : Z) : bool :=
  10 ^ 8 * Z.abs (a - b) <=? 1 + 10 ^ 3 * Z.abs b.

(** [np.allclose(A, B)] for two matrices of one shape. *)
Definition allclose (A B : matrix) : bool :=
  forallb (λ rr, forallb (λ xy, isclose xy.1 xy.2) (zip rr.1 rr.2)) (zip A B).

(** [np.allclose(norm(h, axis=0), 1)].  The norm of a column of integers is
    the square root of an integer [k >= 0], and [sqrt k] is within
    [1e-8 + 1e-5] of 1 only for [k = 1].  (NumPy's norm of a dense array
    is computed in floating point; SciPy's norm of a sparse matrix squares
    the entries in the type of the matrix, which is exact for the entries
    -1, 0 and 1.) *)
Definition column_norms_ok (M : matrix) : bool :=
  forallb (λ j, bool_decide (sumZ (map (λ x, x * x) (column j M)) = 1))
          (seq 0 (ncols M)).

(** [h.min() < 0] and [np.any(h < 0)]. *)
Definition has_negative (M : matrix) : bool := existsb (existsb (λ x, x <? 0)) M.

(** [np.all(B, axis=0)] of a 2-D array of booleans. *)
Definition all_axis0 (B : list (list bool)) : list bool :=
  map (λ j, forallb (λ row, row !!! j) B) (seq 0 (length (default [] (head B)))).

(** [x.astype(np.int8)] on an integer. *)
Definition int8 (x : Z) : Z := (x + 128) mod 256 - 128.

(** A generator as the classes receive it: its entries, and whether SciPy
    stores it sparsely ([issparse(h)]). *)
Record generator := { issparse : bool; todense : matrix }.

(** ** Errors *)

Inductive error : Type :=
| ZeroGenerators                 (* line 27: assert len(generators) > 0 *)
| NotOrthogonal (i : nat)        (* lines 38 and 42 *)
| UnequalShapes                  (* lines 48 and 51: generators of unequal sizes do
                                    not stack into one array *)
| NotAPermutation                (* line 80: assert d == len(np.unique(...)) *)
| ReflexionsLength               (* line 83 *)
| ColumnIndexExceedsDimensions   (* line 86: coo_matrix refuses an index >= d *)
| NotOneGenerator                (* line 104 *)
| MatmulShape                    (* lines 109, 209 and 210: [h @ h] for a matrix
                                    that is not square *)
| SparseOperand                  (* lines 209 and 210: np.allclose raises on a
                                    sparse product *)
| IdentityGenerator              (* line 110: assert not is_eye *)
| NotCyclic                      (* line 111: assert is_cyclic *)
| DimensionNotPositive           (* lines 126 and 230: assert d > 0 *)
| NoSymmetricDimension           (* line 127: assert inv_dims < d - 1 *)
| InvDimsMismatch (n : nat)      (* line 155: assert G.n_inv_dims == inv_dims *)
| NotTwoGenerators               (* line 203 *)
| GeneratorANotCyclic            (* line 209 *)
| GeneratorBNotCyclic            (* line 210 *)
| CompositionNotCyclic           (* line 211 *)
| CompositionTrivial             (* line 212 *)
| NotImplemented.                (* line 241: raise NotImplementedError *)

(** ** [class Sym] *)

Module Sym.

Record t := {
  d : nat;
  is_orthogonal : bool;
  is_permutation : bool;
  is_sparse : bool;
  discrete_generators : list generator;
  inv_dims : list bool;
  n_inv_dims : nat
}.

(** The loop [for i, h in enumerate(generators)] of [__init__]: the state is
    the pair of flags [(is_permutation, is_sparse)]. *)
Fixpoint check_generators (i : nat) (generators : list generator)
    (flags : bool * bool) : error + bool * bool :=
  match generators with
  | [] => inr flags
  | h :: rest =>
      if column_norms_ok (todense h)
      then check_generators (S i) rest
             (if has_negative (todense h) then false else flags.1,
              if issparse h then true else flags.2)
      else inl (NotOrthogonal i)
  end.

(** [M.shape]. *)
Definition shape (M : matrix) : nat * nat := (length M, ncols M).

(** Whether the generators stack into one array.  When none is sparse,
    [jnp.asarray(self.discrete_generators)] (line 48) needs one shape for
    all; otherwise the list is kept, and [np.array] (line 51) needs
    diagonals of one length. *)
Definition stackable (is_sparse : bool) (generators : list generator) : bool :=
  match generators with
  | [] => true
  | g0 :: _ =>
      if is_sparse
      then forallb (λ h, length (diagonal (todense h))
                         =? length (diagonal (todense g0)))%nat generators
      else forallb (λ h, bool_decide (shape (todense h) = shape (todense g0)))
                   generators
  end.

(** [h_diags]: the list of the diagonals, four times over. *)
Definition tiled_diagonals (generators : list generator) : matrix :=
  concat (replicate 4 (map (λ h, diagonal (todense h)) generators)).

Definition init (generators : list generator) : error + t :=
  match generators with
  | [] => inl ZeroGenerators
  | g0 :: _ =>
      match check_generators 0 generators (true, false) with
      | inl e => inl e
      | inr flags =>
          if negb (stackable flags.2 generators) then inl UnequalShapes
          else
            let h_diags := tiled_diagonals generators in
            let inv_h_diags := map (map (λ x, bool_decide (x = 1))) h_diags in
            let inv := all_axis0 inv_h_diags in
            inr {| d := length (todense g0);
                   is_orthogonal := true;
                   is_permutation := flags.1;
                   is_sparse := flags.2;
                   discrete_generators := generators;
                   inv_dims := inv;
                   n_inv_dims := length (filter (λ b, b = true) inv) |}
      end
  end.

(** [__repr__]: [f'Sym({self.d})'], with the dimension in decimal. *)
Definition repr (G : t) : string := "Sym(" +:+ pretty (d G) +:+ ")".

(** [generators_characters], for dense generators, which are what the
    generators of a [Klein4] group are; on a sparse generator [np.trace]
    raises. *)
Definition generators_characters (G : t) : vector :=
  map (λ h, trace (todense h)) (discrete_generators G).

(** [np.unique(l)] has one entry for each distinct value of [l]. *)
Definition unique (l : vector) : vector := remove_dups l.

(** [np.ones((d,)) if not reflexions else reflexions]: [None] and the empty
    list are the two values for which [not reflexions] holds. *)
Definition reflexions_or_ones (d : nat) (reflexions : option vector) : vector :=
  match reflexions with
  | None | Some [] => replicate d 1
  | Some r => r
  end.

(** The entries of [coo_matrix((data, (rows, cols)), shape=(d, d))]: the
    entry at [(i, j)] is the sum of the data stored for that position. *)
Definition coo_entries (d : nat) (data : vector) (rows cols : list nat) : matrix :=
  map (λ i, map (λ j,
        sumZ (map (λ t, t.2)
                  (filter (λ t, t.1 = (i, j)) (zip (zip rows cols) data))))
      (seq 0 d)) (seq 0 d).

Definition oneline2matrix (oneline_notation : vector)
    (reflexions : option vector) : error + generator :=
  let d := length oneline_notation in
  if negb (d =? length (unique oneline_notation))%nat then inl NotAPermutation
  else
    let reflexions := reflexions_or_ones d reflexions in
    if negb (length reflexions =? d)%nat then inl ReflexionsLength
    else
      let rows := seq 0 d in
      let cols := map Z.abs_nat oneline_notation in
      if forallb (λ c, c <? d)%nat cols
      then inr {| issparse := true;
                  todense := map (map int8) (coo_entries d reflexions rows cols) |}
      else inl ColumnIndexExceedsDimensions.

End Sym.

(** ** [class C2] *)

Module C2.

(** [__init__]: [jnp.isclose] and [jnp.trace], which the branch of the dense
    generators uses, are the NumPy functions of these names.  Line 109
    evaluates [h @ h] before the two assertions, and the product raises when
    [h] is not square. *)
Definition init (generator : generator) : error + Sym.t :=
  match Sym.init [generator] with
  | inl e => inl e
  | inr G =>
      match Sym.discrete_generators G with
      | [h] =>
          let h := todense h in
          let d := Z.of_nat (Sym.d G) in
          let is_eye :=
            if Sym.is_sparse G then isclose (sumZ (diagonal h)) d
            else isclose (trace h) d in
          if negb (ncols h =? length h)%nat then inl MatmulShape
          else
            let is_cyclic :=
              if Sym.is_sparse G then isclose (sumZ (diagonal (matmul h h))) d
              else isclose (trace (matmul h h)) d in
            if is_eye then inl IdentityGenerator
            else if negb is_cyclic then inl NotCyclic
            else inr G
      | _ => inl NotOneGenerator
      end
  end.

Definition discrete_actions (G : Sym.t) : list matrix :=
  match Sym.discrete_generators G with
  | h :: _ => [eye (Sym.d G); todense h]
  | [] => []
  end.

(** [__repr__]: [f'C2[d:{self.d}]']. *)
Definition repr (G : Sym.t) : string := "C2[d:" +:+ pretty (Sym.d G) +:+ "]".

(** The slices [p[:n]] and [p[-n:]], and the assignments [p[:n] = v] and
    [p[-n:] = v], for [n > 0]. *)
Definition first_n (n : nat) (p : vector) : vector := take n p.
Definition last_n (n : nat) (p : vector) : vector := drop (length p - n) p.
Definition set_first_n (n : nat) (p v : vector) : vector := v ++ drop n p.
Definition set_last_n (n : nat) (p v : vector) : vector := take (length p - n) p ++ v.

Definition canonical_group (d inv_dims : Z) : error + Sym.t :=
  if negb (0 <? d) then inl DimensionNotPositive
  else if negb (inv_dims <? d - 1) then inl NoSymmetricDimension
  else
    let id := inv_dims in
    let p := reverse (arange (Z.to_nat d)) in
    let r := replicate (length p) 1 in
    let '(r, id, inv_dims) :=
      if 0 <? d mod 2 then
        if id mod 2 =? 0
        then (alter (λ x, x * -1) (Z.to_nat (d / 2)) r, id, inv_dims)
        else (r, id - 1, inv_dims)
      else
        if 0 <? id mod 2 then (r, inv_dims + 1, inv_dims + 1)
        else (r, id, inv_dims) in
    let n := id / 2 in
    let p :=
      if 0 <? n then
        let p_copy := p in
        let p := set_first_n (Z.to_nat n) p (reverse (last_n (Z.to_nat n) p_copy)) in
        set_last_n (Z.to_nat n) p (reverse (first_n (Z.to_nat n) p_copy))
      else p in
    match Sym.oneline2matrix p (Some r) with
    | inl e => inl e
    | inr H =>
        match init H with
        | inl e => inl e
        | inr G =>
            if Z.of_nat (Sym.n_inv_dims G) =? inv_dims then inr G
            else inl (InvDimsMismatch (Sym.n_inv_dims G))
        end
    end.

(** *** [get_equivariant_basis] *)

Section EquivariantBasis.

(** [pendind_dims.pop()]. *)
Variable pop : gset nat → nat.

(** [w = np.abs(P) @ np.arange(n)].  Every summand is a product of an
    absolute value and an index, so [w] has no negative entry and reading it
    as a vector of indices loses nothing. *)
Definition perm_vector (P : matrix) : list nat :=
  map Z.to_nat (matvec (map (map Z.abs) P) (arange (length P))).

(** The inner loop [while w[a] in pendind_dims]: [cyc] is [cycles[-1]].
    Every turn removes an element of [pend], so [size pend] turns are
    enough (lemma [follow_orbit_fuel]). *)
Fixpoint follow_orbit (w : list nat) (fuel : nat) (a : nat)
    (cyc : list nat) (pend : gset nat) : list nat * gset nat :=
  match fuel with
  | O => (cyc, pend)
  | S fuel' =>
      let a' := w !!! a in
      if decide (a' ∈ pend)
      then follow_orbit w fuel' a' (cyc ++ [a']) (pend ∖ {[a']})
      else (cyc, pend)
  end.

(** The outer loop [while pendind_dims]: every turn removes the popped
    element, so [size pend] turns are enough (lemma
    [discover_cycles_partition]: the loop ends with nothing pending). *)
Fixpoint discover_cycles (w : list nat) (fuel : nat) (pend : gset nat)
    (cycles : list (list nat)) : list (list nat) * gset nat :=
  match fuel with
  | O => (cycles, pend)
  | S fuel' =>
      if decide (pend = ∅) then (cycles, pend)
      else
        let a := pop pend in
        let pend1 := pend ∖ {[a]} in
        let '(cyc, pend2) := follow_orbit w (size pend1) a [a] pend1 in
        discover_cycles w fuel' pend2 (cycles ++ [cyc])
  end.

(** The cyclic decomposition computed by lines 168-185. *)
Definition orbit_cycles (P : matrix) : list (list nat) :=
  let n := length P in
  (discover_cycles (perm_vector P) n (list_to_set (seq 0 n)) []).1.

(** [p = np.sum(P[cyc, :], axis=1)]. *)
Definition row_signs (P : matrix) (cyc : list nat) : vector :=
  map (λ a, sumZ (P !!! a)) cyc.

(** [p[i:-1]]. *)
Definition slice_to_last (i : nat) (p : vector) : vector :=
  drop i (take (length p - 1) p).

(** [[np.prod(p[i:-1]) for i in range(len(p))]]. *)
Definition cycle_values (p : vector) : vector :=
  map (λ i, prodZ (slice_to_last i p)) (seq 0 (length p)).

(** [col[cyc] = vals] on a 1-D array. *)
Definition assign_rows (col : vector) (cyc : list nat) (vals : vector) : vector :=
  foldl (λ c av, <[av.1 := av.2]> c) col (zip cyc vals).

(** The column that a cycle contributes: the zero column appended by
    [np.hstack], written at the rows of the cycle by [Q[cyc, -1] = ...]. *)
Definition cycle_column (P : matrix) (cyc : list nat) : vector :=
  assign_rows (zeros (length P)) cyc (cycle_values (row_signs P cyc)).

(** One turn of [for i, cyc in enumerate(cycles)]; [Q] is kept as the list
    of its columns. *)
Definition add_cycle (P : matrix) (Q : list vector) (cyc : list nat) : list vector :=
  if bool_decide (prodZ (row_signs P cyc) = 1)
  then Q ++ [cycle_column P cyc]
  else Q.

Definition get_equivariant_basis (P : matrix) : list vector :=
  foldl (add_cycle P) [] (orbit_cycles P).

End EquivariantBasis.

End C2.

(** ** [class Klein4] *)

Module Klein4.

Definition init (generators : list generator) : error + Sym.t :=
  if negb (length generators =? 2)%nat then inl NotTwoGenerators
  else
    match Sym.init generators with
    | inl e => inl e
    | inr G =>
        match Sym.discrete_generators G with
        | [ga; gb] =>
            let a := todense ga in
            let b := todense gb in
            let I := eye (Sym.d G) in
            (* line 209: [a @ a], then [np.allclose] *)
            if negb (ncols a =? length a)%nat then inl MatmulShape
            else if issparse ga then inl SparseOperand
            else if negb (allclose (matmul a a) I) then inl GeneratorANotCyclic
            (* line 210 *)
            else if negb (ncols b =? length b)%nat then inl MatmulShape
            else if issparse gb then inl SparseOperand
            else if negb (allclose (matmul b b) I) then inl GeneratorBNotCyclic
            else if negb (allclose (matmul (matmul a b) (matmul a b)) I)
                 then inl CompositionNotCyclic
            else if allclose (matmul a b) I then inl CompositionTrivial
            else inr G
        | _ => inl NotTwoGenerators
        end
    end.

Definition discrete_actions (G : Sym.t) : list matrix :=
  match Sym.discrete_generators G with
  | [a; b] => [eye (Sym.d G); todense a; todense b; matmul (todense a) (todense b)]
  | _ => []
  end.

(** [__repr__]: [f'V4[d:{self.d}]']. *)
Definition repr (G : Sym.t) : string := "V4[d:" +:+ pretty (Sym.d G) +:+ "]".

(** [np.array_split(l, 4)] when the length of [l] is a multiple of 4, which
    [d - d % 4] is. *)
Definition array_split4 (l : vector) : list vector :=
  let q := (length l / 4)%nat in
  [take q l; take q (drop q l); take q (drop (2 * q) l); drop (3 * q) l].

Definition canonical_group (d : Z) : error + Sym.t :=
  if negb (0 <? d) then inl DimensionNotPositive
  else
    let a := reverse (arange (Z.to_nat d)) in
    let mod_ := d mod 4 in
    let idx := array_split4 (arange (Z.to_nat (d - mod_))) in
    let b_r := replicate (Z.to_nat d) 1 in
    if 0 <? mod_ then inl NotImplemented
    else
      let b := (idx !!! 2%nat) ++ (idx !!! 3%nat) ++ (idx !!! 0%nat) ++ (idx !!! 1%nat) in
      match Sym.oneline2matrix a None with
      | inl e => inl e
      | inr rep_a =>
          match Sym.oneline2matrix b (Some b_r) with
          | inl e => inl e
          | inr rep_b => init [rep_a; rep_b]
          end
      end.

(** [np.allclose(self.generators_characters(), 0.0)]. *)
Definition is_canonical (G : Sym.t) : bool :=
  forallb (λ x, isclose x 0) (Sym.generators_characters G).

End Klein4.

Import C2.

(** ** The notions of the specification *)

(** A generalized permutation matrix: square, entries in {-1, 0, 1}, exactly
    one nonzero entry in every row and in every column. *)
Definition nonzeros (l : vector) : nat := length (filter (λ x, x ≠ 0) l).

Definition is_sign_entry (x : Z) : bool :=
  bool_decide (x = 1) || bool_decide (x = -1) || bool_decide (x = 0).

Definition is_generalized_permutation (P : matrix) : bool :=
  forallb (λ row, (length row =? length P)%nat
                  && forallb is_sign_entry row
                  && (nonzeros row =? 1)%nat) P
  && forallb (λ j, (nonzeros (column j P) =? 1)%nat) (seq 0 (length P)).

(** An [n] by [n] array. *)
Definition square (n : nat) (M : matrix) : Prop :=
  length M = n ∧ Forall (λ row, length row = n) M.

(** The sign of row [i]: its entry in the column of [w]. *)
Definition sign_at (P : matrix) (i : nat) : Z := entry P i (perm_vector P !!! i).

(** [a, w a, w (w a), ...], [k] indices in all. *)
Definition iterates (w : list nat) (a : nat) (k : nat) : list nat :=
  map (λ j, Nat.iter j (λ x, w !!! x) a) (seq 0 k).

(** The orbit of [i] under the permutation [w] of [{0, ..., d-1}], the set
    of the orbits, the product of the signs around an orbit, and the number
    of orbits whose product is 1. *)
Definition orbit_of (w : list nat) (d i : nat) : gset nat :=
  list_to_set (iterates w i d).
Definition orbits (w : list nat) (d : nat) : gset (gset nat) :=
  list_to_set (map (orbit_of w d) (seq 0 d)).
Definition sign_product (P : matrix) (O : gset nat) : Z :=
  prodZ (map (sign_at P) (elements O)).
Definition positive_orbits (P : matrix) : nat :=
  length (filter (λ O, sign_product P O = 1)
            (elements (orbits (perm_vector P) (length P)))).

(** The invariant dimensions as the specification defines them, without
    tiling: dimension [i] is invariant iff the diagonal entry at [i] of every
    supplied generator is 1. *)
Definition untiled_inv_dims (d : nat) (generators : list generator) : list bool :=
  map (λ i, bool_decide (Forall (λ h, entry (todense h) i i = 1) generators))
      (seq 0 d).

(** A one-line notation that is a permutation of [{0, ..., d-1}]. *)
Definition is_oneline_permutation (notation : vector) : Prop :=
  notation ≡ₚ arange (length notation).

(** ** Auxiliary notions of the proofs *)

(** The row of length [n] whose only entry, [s], stands in column [c]. *)
Definition unit_row (n c : nat) (s : Z) : vector := <[c:=s]> (zeros n).

(** The sum of a row, which for a generalized permutation is its sign. *)
Definition row_sign (P : matrix) (i : nat) : Z := sumZ (P !!! i).

(** What [is_generalized_permutation] says about [P] and [w = perm_vector P]. *)
Record signed_permutation (P : matrix) (w : list nat) : Prop := {
  sp_length : length w = length P;
  sp_range : ∀ i, (i < length P)%nat → (w !!! i < length P)%nat;
  sp_inj : ∀ i j, (i < length P)%nat → (j < length P)%nat →
                  w !!! i = w !!! j → i = j;
  sp_sign : ∀ i, (i < length P)%nat → row_sign P i = 1 ∨ row_sign P i = -1;
  sp_row : ∀ i, (i < length P)%nat →
                P !!! i = unit_row (length P) (w !!! i) (row_sign P i)
}.

(** A matrix given by a permutation [f] of [{0, ..., n-1}] and a sign [s i]
    for every row. *)
Record signed_rows (n : nat) (M : matrix) (f : nat → nat) (s : nat → Z) : Prop := {
  sr_length : length M = n;
  sr_row : ∀ i, (i < n)%nat → M !!! i = unit_row n (f i) (s i);
  sr_range : ∀ i, (i < n)%nat → (f i < n)%nat;
  sr_inj : ∀ i j, (i < n)%nat → (j < n)%nat → f i = f j → i = j;
  sr_surj : ∀ j, (j < n)%nat → ∃ i, (i < n)%nat ∧ f i = j;
  sr_sign : ∀ i, (i < n)%nat → s i = 1 ∨ s i = -1
}.

(** A set of indices that [w] maps onto itself. *)
Definition closed_under (w : list nat) (d : nat) (X : gset nat) : Prop :=
  (∀ i, i ∈ X → (i < d)%nat) ∧ (∀ i, (i < d)%nat → i ∈ X ↔ w !!! i ∈ X).

(** A cycle of [w] in traversal order: [a, w a, w (w a), ...] without
    repetition, whose last index is mapped back to [a]. *)
Definition is_orbit_cycle (w : list nat) (d : nat) (c : list nat) : Prop :=
  ∃ a k, c = iterates w a (S k) ∧ NoDup c ∧ (∀ x, x ∈ c → (x < d)%nat)
         ∧ Nat.iter (S k) (λ x, w !!! x) a = a.

(** The sum of [f 0, ..., f (n-1)]. *)
Definition bigsum (n : nat) (f : nat → Z) : Z := sumZ (map f (seq 0 n)).

(** The reflection of the first coordinate: [diag(-1, 1, ..., 1)]. *)
Definition reflect_first (n : nat) : matrix :=
  map (λ i, unit_row n i (if decide (i = 0%nat) then -1 else 1)) (seq 0 n).

(** The two permutations of [Klein4.canonical_group], for [n = 4 q]. *)
Definition reversal (n i : nat) : nat := (n - 1 - i)%nat.
Definition half_swap (q i : nat) : nat :=
  if decide (i < 2 * q)%nat then (i + 2 * q)%nat else (i - 2 * q)%nat.

(** The one-line notation of [C2.canonical_group] after the two slice
    assignments, and the permutation and the signs that it stands for. *)
Definition fixed_ends (n : nat) (p : vector) : vector :=
  set_last_n n (set_first_n n p (reverse (last_n n p))) (reverse (first_n n p)).
Definition canonical_perm (d n i : nat) : nat :=
  if decide (i < n ∨ d - n ≤ i)%nat then i else (d - 1 - i)%nat.
Definition canonical_sign (d : nat) (flip : bool) (i : nat) : Z :=
  if flip && bool_decide (i = d / 2)%nat then -1 else 1.

(** The steps of [C2.canonical_group] after the parity cases: [n] is
    [id // 2], [flip] tells whether the sign of the middle coordinate was
    changed, and [inv_dims] is the adjusted request. *)
Definition canonical_finish (d n : Z) (flip : bool) (inv_dims : Z) : error + Sym.t :=
  let p := reverse (arange (Z.to_nat d)) in
  let r := if flip then alter (λ x, x * -1) (Z.to_nat (d / 2)) (replicate (Z.to_nat d) 1)
           else replicate (Z.to_nat d) 1 in
  let p := if 0 <? n then fixed_ends (Z.to_nat n) p else p in
  match Sym.oneline2matrix p (Some r) with
  | inl e => inl e
  | inr H =>
      match C2.init H with
      | inl e => inl e
      | inr G =>
          if Z.of_nat (Sym.n_inv_dims G) =? inv_dims then inr G
          else inl (InvDimsMismatch (Sym.n_inv_dims G))
      end
  end.

(** A deterministic [pop], used to run the solver on examples. *)
Definition pop_first (s : gset nat) : nat := default 0%nat (head (elements s)).

(** ** The scenarios of the specification *)

Example basis_scenario_1 :
  get_equivariant_basis pop_first [[0;0;0;1];[0;0;1;0];[0;1;0;0];[1;0;0;0]]
  = [[0;1;1;0];[1;0;0;1]].
Proof. vm_compute. reflexivity. Qed.

Example basis_scenario_5 :
  get_equivariant_basis pop_first [[0;1;0];[-1;0;0];[0;0;1]] = [[0;0;1]].
Proof. vm_compute. reflexivity. Qed.

Example basis_three_cycle :
  orbit_cycles pop_first
    [[0;1;0;0;0];[0;0;-1;0;0];[-1;0;0;0;0];[0;0;0;0;-1];[0;0;0;1;0]]
  = [[4; 3]; [2; 0; 1]]%nat
  ∧ get_equivariant_basis pop_first
      [[0;1;0;0;0];[0;0;-1;0;0];[-1;0;0;0;0];[0;0;0;0;-1];[0;0;0;1;0]]
    = [[1; 1; -1; 0; 0]].
Proof. split; vm_compute; reflexivity. Qed.

Example positive_orbits_scenario_1 :
  positive_orbits [[0;0;0;1];[0;0;1;0];[0;1;0;0];[1;0;0;0]] = 2%nat.
Proof. vm_compute. reflexivity. Qed.

Example positive_orbits_scenario_5 :
  positive_orbits [[0;1;0];[-1;0;0];[0;0;1]] = 1%nat.
Proof. vm_compute. reflexivity. Qed.

Example c2_canonical_3_1 :
  sum_map id (λ G, (Sym.n_inv_dims G, todense <$> Sym.discrete_generators G))
    (C2.canonical_group 3 1)
  = inr (1%nat, [[[0;0;1];[0;1;0];[1;0;0]]]).
Proof. vm_compute. reflexivity. Qed.

Example c2_canonical_5_2 :
  sum_map id (λ G, (Sym.n_inv_dims G, todense <$> Sym.discrete_generators G))
    (C2.canonical_group 5 2)
  = inr (2%nat, [[[1;0;0;0;0];[0;0;0;1;0];[0;0;-1;0;0];[0;1;0;0;0];[0;0;0;0;1]]]).
Proof. vm_compute. reflexivity. Qed.

Example c2_canonical_6_3 :
  sum_map id (λ G, (Sym.n_inv_dims G, todense <$> Sym.discrete_generators G))
    (C2.canonical_group 6 3)
  = inr (4%nat, [[[1;0;0;0;0;0];[0;1;0;0;0;0];[0;0;0;1;0;0];
                  [0;0;1;0;0;0];[0;0;0;0;1;0];[0;0;0;0;0;1]]]).
Proof. vm_compute. reflexivity. Qed.

Example klein4_canonical_8 : Klein4.canonical_group 8 = inl SparseOperand.
Proof. vm_compute. reflexivity. Qed.

Example klein4_canonical_4_dense :
  sum_map id (λ G, (Klein4.is_canonical G, length (Klein4.discrete_actions G)))
    (Klein4.init
       [ {| issparse := false;
            todense := [[0;0;0;1];[0;0;1;0];[0;1;0;0];[1;0;0;0]] |};
         {| issparse := false;
            todense := [[0;0;1;0];[0;0;0;1];[1;0;0;0];[0;1;0;0]] |} ])
  = inr (true, 4%nat).
Proof. vm_compute. reflexivity. Qed.

Example klein4_canonical_6 : Klein4.canonical_group 6 = inl NotImplemented.
Proof. vm_compute. reflexivity. Qed.

Example oneline_non_permutation :
  Sym.oneline2matrix [0;0;1] None = inl NotAPermutation.
Proof. vm_compute. reflexivity. Qed.

Example oneline_scenario_5 :
  sum_map id todense (Sym.oneline2matrix [1;0;2] (Some [1;-1;1]))
  = inr [[0;1;0];[-1;0;0];[0;0;1]].
Proof. vm_compute. reflexivity. Qed.

Example oneline_collision :
  sum_map id todense (Sym.oneline2matrix [1; -1; 0] None)
  = inr [[0;1;0];[0;1;0];[1;0;0]].
Proof. vm_compute. reflexivity. Qed.

Example oneline_index_too_large :
  Sym.oneline2matrix [0; 1; 5] None = inl ColumnIndexExceedsDimensions.
Proof. vm_compute. reflexivity. Qed.

Example isclose_at_200000 :
  isclose 199998 200000 = true ∧ isclose 199997 199999 = false.
Proof. split; reflexivity. Qed.

(** * Part II: the properties *)

(** ** Rows with a single nonzero entry *)

Lemma nonzeros_cons x l :
  nonzeros (x :: l) = if decide (x = 0) then nonzeros l else S (nonzeros l).
Proof.
  unfold nonzeros. rewrite filter_cons.
  destruct (decide (x = 0)); destruct (decide (x ≠ 0)); simpl; naive_solver.
Qed.

Lemma nonzeros_none l : nonzeros l = 0%nat → l = zeros (length l).
Proof.
  induction l as [|x l IH]; [done|].
  rewrite nonzeros_cons. destruct (decide (x = 0)) as [->|]; [|done].
  intros H. simpl. unfold zeros in *. simpl. f_equal. auto.
Qed.

Lemma nonzeros_one l :
  nonzeros l = 1%nat →
  ∃ c s, (c < length l)%nat ∧ s ≠ 0 ∧ l = unit_row (length l) c s.
Proof.
  induction l as [|x l IH]; [done|].
  rewrite nonzeros_cons. destruct (decide (x = 0)) as [->|Hx]; intros H.
  - destruct (IH H) as (c & s & Hc & Hs & Hl).
    exists (S c), s. split; [simpl; lia|]. split; [done|].
    unfold unit_row, zeros in *. simpl. f_equal. exact Hl.
  - exists 0%nat, x. split; [simpl; lia|]. split; [done|].
    unfold unit_row. simpl. f_equal. apply nonzeros_none. lia.
Qed.

Lemma length_unit_row n c s : length (unit_row n c s) = n.
Proof. unfold unit_row, zeros. by rewrite length_insert, length_replicate. Qed.

Lemma unit_row_lookup n c s j :
  (c < n)%nat → (j < n)%nat →
  unit_row n c s !!! j = if decide (j = c) then s else 0.
Proof.
  intros Hc Hj. unfold unit_row, zeros. destruct (decide (j = c)) as [->|Hne].
  - apply list_lookup_total_insert_eq. by rewrite length_replicate.
  - rewrite list_lookup_total_insert_ne by done. by apply lookup_total_replicate_2.
Qed.

Lemma sumZ_zeros n : sumZ (zeros n) = 0.
Proof. induction n as [|n IH]; [done|]. unfold zeros in *. simpl. lia. Qed.

Lemma sumZ_unit_row n c s : (c < n)%nat → sumZ (unit_row n c s) = s.
Proof.
  revert c. induction n as [|n IH]; intros c Hc; [lia|].
  destruct c as [|c]; unfold unit_row, zeros in *; simpl.
  - fold (zeros n). rewrite sumZ_zeros. lia.
  - rewrite IH by lia. lia.
Qed.

Lemma dot_zeros n x : dot (zeros n) x = 0.
Proof.
  revert x. induction n as [|n IH]; intros [|y x]; try done.
  unfold dot, zeros in *. simpl. rewrite IH. lia.
Qed.

Lemma dot_unit_row n c s x :
  (c < n)%nat → length x = n → dot (unit_row n c s) x = s * (x !!! c).
Proof.
  revert c x. induction n as [|n IH]; intros c x Hc Hx; [lia|].
  destruct x as [|y x]; [done|]. simpl in Hx.
  destruct c as [|c]; unfold unit_row, zeros, dot in *; simpl.
  - fold (zeros n). fold (dot (zeros n) x). rewrite dot_zeros. simpl. lia.
  - rewrite IH by lia. simpl. lia.
Qed.

Lemma map_abs_unit_row n c s : map Z.abs (unit_row n c s) = unit_row n c (Z.abs s).
Proof.
  unfold unit_row, zeros. change (map Z.abs) with (fmap (M:=list) Z.abs).
  by rewrite list_fmap_insert, fmap_replicate.
Qed.

Lemma arange_lookup n c : (c < n)%nat → arange n !!! c = Z.of_nat c.
Proof.
  intros Hc. unfold arange. change (map Z.of_nat) with (fmap (M:=list) Z.of_nat).
  apply list_lookup_total_correct. by rewrite list_lookup_fmap, lookup_seq_lt.
Qed.

(** ** The structure of a generalized permutation matrix *)

Lemma is_sign_entry_spec x : is_sign_entry x = true ↔ x = 1 ∨ x = -1 ∨ x = 0.
Proof.
  unfold is_sign_entry. rewrite !orb_true_iff, !bool_decide_eq_true. tauto.
Qed.

Lemma perm_vector_length P : length (perm_vector P) = length P.
Proof. unfold perm_vector, matvec. by rewrite !length_map. Qed.

Lemma perm_vector_lookup P i :
  (i < length P)%nat →
  perm_vector P !!! i = Z.to_nat (dot (map Z.abs (P !!! i)) (arange (length P))).
Proof.
  intros Hi. apply list_lookup_total_correct.
  unfold perm_vector, matvec.
  change (@map) with (@fmap list _). rewrite !list_lookup_fmap.
  by rewrite (list_lookup_lookup_total_lt P i Hi).
Qed.

Lemma column_length j P : length (column j P) = length P.
Proof. unfold column. by rewrite length_map. Qed.

Lemma column_lookup j P i :
  (i < length P)%nat → column j P !!! i = entry P i j.
Proof.
  intros Hi. apply list_lookup_total_correct. unfold column, entry.
  change (@map) with (@fmap list _). rewrite list_lookup_fmap.
  by rewrite (list_lookup_lookup_total_lt P i Hi).
Qed.

Lemma generalized_permutation_row P i :
  is_generalized_permutation P = true → (i < length P)%nat →
  ∃ c s, (c < length P)%nat ∧ (s = 1 ∨ s = -1) ∧ P !!! i = unit_row (length P) c s.
Proof.
  unfold is_generalized_permutation. rewrite andb_true_iff. intros [Hrows _] Hi.
  rewrite forallb_forall in Hrows.
  assert (Hin : In (P !!! i) P).
  { apply list_elem_of_In, list_elem_of_lookup. exists i.
    by apply list_lookup_lookup_total_lt. }
  specialize (Hrows _ Hin). rewrite !andb_true_iff in Hrows.
  destruct Hrows as [[Hlen Hent] Hnz].
  apply Nat.eqb_eq in Hlen, Hnz.
  destruct (nonzeros_one _ Hnz) as (c & s & Hc & Hs & Hrow).
  rewrite Hlen in Hc, Hrow. exists c, s. split; [done|]. split; [|done].
  rewrite forallb_forall in Hent.
  assert (Hsin : In s (P !!! i)).
  { apply list_elem_of_In, list_elem_of_lookup. exists c.
    rewrite list_lookup_lookup_total_lt by lia.
    f_equal. rewrite Hrow at 1. rewrite unit_row_lookup by lia.
    by rewrite decide_True. }
  apply Hent, is_sign_entry_spec in Hsin. tauto.
Qed.

Lemma generalized_permutation_column P j :
  is_generalized_permutation P = true → (j < length P)%nat →
  ∃ r, ∀ i, (i < length P)%nat → entry P i j ≠ 0 → i = r.
Proof.
  unfold is_generalized_permutation. rewrite andb_true_iff. intros [_ Hcols] Hj.
  rewrite forallb_forall in Hcols.
  assert (Hin : In j (seq 0 (length P))) by (apply in_seq; lia).
  specialize (Hcols _ Hin). apply Nat.eqb_eq in Hcols.
  destruct (nonzeros_one _ Hcols) as (r & s & Hr & Hs & Hcol).
  rewrite column_length in Hr, Hcol.
  exists r. intros i Hi Hne. rewrite <- column_lookup in Hne by done.
  rewrite Hcol, unit_row_lookup in Hne by done.
  by destruct (decide (i = r)).
Qed.

Lemma generalized_permutation_structure P :
  is_generalized_permutation P = true → signed_permutation P (perm_vector P).
Proof.
  intros HP.
  assert (Hrow : ∀ i, (i < length P)%nat →
     ∃ s, (s = 1 ∨ s = -1) ∧ (perm_vector P !!! i < length P)%nat ∧
          row_sign P i = s ∧ P !!! i = unit_row (length P) (perm_vector P !!! i) s).
  { intros i Hi.
    destruct (generalized_permutation_row P i HP Hi) as (c & s & Hc & Hs & Hrow).
    assert (Hw : perm_vector P !!! i = c).
    { rewrite perm_vector_lookup, Hrow, map_abs_unit_row by done.
      rewrite dot_unit_row, arange_lookup by (done || (unfold arange; by rewrite length_map, length_seq)).
      destruct Hs as [-> | ->]; simpl; lia. }
    exists s. rewrite Hw. repeat split; try done.
    unfold row_sign. rewrite Hrow. by apply sumZ_unit_row. }
  split.
  - apply perm_vector_length.
  - intros i Hi. destruct (Hrow i Hi) as (s & _ & H & _). exact H.
  - intros i j Hi Hj Heq.
    destruct (Hrow i Hi) as (s & Hs & Hwi & _ & Hri).
    destruct (Hrow j Hj) as (t & Ht & Hwj & _ & Hrj).
    destruct (generalized_permutation_column P _ HP Hwi) as (r & Hr).
    rewrite (Hr i), (Hr j); try done.
    + unfold entry. rewrite Hrj, Heq, unit_row_lookup, decide_True by done. lia.
    + unfold entry. rewrite Hri, unit_row_lookup, decide_True by done. lia.
  - intros i Hi. destruct (Hrow i Hi) as (s & Hs & _ & -> & _). exact Hs.
  - intros i Hi. destruct (Hrow i Hi) as (s & _ & _ & -> & H). exact H.
Qed.

#[local] Close Scope Z_scope.

(** ** The orbit-discovery loops *)

Section FollowOrbit.

Variable w : list nat.

Lemma iterates_length a k : length (iterates w a k) = k.
Proof. unfold iterates. by rewrite length_map, length_seq. Qed.

Lemma iterates_lookup a k j :
  j < k → iterates w a k !! j = Some (Nat.iter j (λ x, w !!! x) a).
Proof.
  intros Hj. unfold iterates. change (@map) with (@fmap list _).
  by rewrite list_lookup_fmap, lookup_seq_lt.
Qed.

Lemma elem_of_iterates a k x :
  x ∈ iterates w a k ↔ ∃ j, j < k ∧ x = Nat.iter j (λ x, w !!! x) a.
Proof.
  unfold iterates. change (@map) with (@fmap list _).
  rewrite list_elem_of_fmap. split.
  - intros (j & -> & Hj). apply elem_of_seq in Hj. exists j. split; [lia|done].
  - intros (j & Hj & ->). exists j. split; [done|]. apply elem_of_seq. lia.
Qed.

Lemma iterates_succ a k : iterates w a (S k) = a :: iterates w (w !!! a) k.
Proof.
  unfold iterates. simpl. f_equal. rewrite <- seq_shift, map_map.
  apply map_ext. intros j. by rewrite Nat.iter_succ_r.
Qed.

Lemma follow_orbit_0 a cyc pend : follow_orbit w 0 a cyc pend = (cyc, pend).
Proof. reflexivity. Qed.

Lemma follow_orbit_S fuel a cyc pend :
  follow_orbit w (S fuel) a cyc pend =
  if decide (w !!! a ∈ pend)
  then follow_orbit w fuel (w !!! a) (cyc ++ [w !!! a]) (pend ∖ {[w !!! a]})
  else (cyc, pend).
Proof. reflexivity. Qed.

Lemma follow_orbit_spec fuel a cyc pend :
  ∃ m, let ext := iterates w (w !!! a) m in
    follow_orbit w fuel a cyc pend = (cyc ++ ext, pend ∖ list_to_set ext)
    ∧ NoDup ext
    ∧ (∀ x, x ∈ ext → x ∈ pend)
    ∧ (size pend ≤ fuel →
       w !!! (Nat.iter m (λ x, w !!! x) a) ∉ pend ∖ list_to_set ext).
Proof.
  revert a cyc pend. induction fuel as [|fuel IH]; intros a cyc pend.
  - exists 0. rewrite follow_orbit_0. cbn [iterates seq map].
    rewrite app_nil_r. repeat split.
    + f_equal. set_solver.
    + constructor.
    + set_solver.
    + intros Hsz. assert (pend = ∅) as ->.
      { apply leibniz_equiv, size_empty_iff. lia. }
      set_solver.
  - rewrite follow_orbit_S. destruct (decide (w !!! a ∈ pend)) as [Hin|Hnin].
    + destruct (IH (w !!! a) (cyc ++ [w !!! a]) (pend ∖ {[w !!! a]}))
        as (m & Heq & Hnd & Hsub & Hstop).
      exists (S m). cbv zeta in *. rewrite iterates_succ. repeat split.
      * rewrite Heq. f_equal; [by rewrite <- app_assoc|]. set_solver.
      * constructor; [|done]. intros Hx. apply Hsub in Hx. set_solver.
      * intros x Hx. apply elem_of_cons in Hx as [->|Hx]; [done|].
        apply Hsub in Hx. set_solver.
      * intros Hsz. rewrite Nat.iter_succ_r.
        assert (size (pend ∖ {[w !!! a]}) ≤ fuel) as Hsz'.
        { rewrite size_difference by set_solver. rewrite size_singleton. lia. }
        specialize (Hstop Hsz'). set_solver.
    + exists 0. cbn [iterates seq map Nat.iter nat_rect]. rewrite app_nil_r. repeat split.
      * f_equal. set_solver.
      * constructor.
      * set_solver.
      * set_solver.
Qed.

(** More fuel than [size pend] changes nothing: the loop has stopped. *)
Lemma follow_orbit_fuel fuel a cyc pend :
  size pend ≤ fuel →
  follow_orbit w fuel a cyc pend = follow_orbit w (size pend) a cyc pend.
Proof.
  assert (H : ∀ f1 f2 a cyc pend, size pend ≤ f1 → size pend ≤ f2 →
    follow_orbit w f1 a cyc pend = follow_orbit w f2 a cyc pend).
  { clear. induction f1 as [|f1 IH]; intros f2 a cyc pend H1 H2.
    - assert (pend = ∅) as ->. { apply leibniz_equiv, size_empty_iff. lia. }
      destruct f2; [done|]. rewrite follow_orbit_0, follow_orbit_S.
      by rewrite decide_False by set_solver.
    - destruct f2 as [|f2].
      + assert (pend = ∅) as ->. { apply leibniz_equiv, size_empty_iff. lia. }
        rewrite follow_orbit_0, follow_orbit_S.
        by rewrite decide_False by set_solver.
      + rewrite !follow_orbit_S. destruct (decide (w !!! a ∈ pend)); [|done].
        assert (size (pend ∖ {[w !!! a]}) = size pend - 1) as Hsz.
        { rewrite size_difference by set_solver. by rewrite size_singleton. }
        assert (size pend ≠ 0).
        { apply size_non_empty_iff. set_solver. }
        apply IH; lia. }
  intros Hle. by apply H.
Qed.

Lemma elements_split (pend : gset nat) (cyc : list nat) :
  NoDup cyc → (∀ x, x ∈ cyc → x ∈ pend) →
  elements pend ≡ₚ cyc ++ elements (pend ∖ list_to_set cyc).
Proof.
  intros Hnd Hsub. apply NoDup_Permutation.
  - apply NoDup_elements.
  - apply NoDup_app. split; [done|]. split; [|apply NoDup_elements].
    intros x Hx. rewrite elem_of_elements. set_solver.
  - intros x. rewrite elem_of_app, !elem_of_elements.
    rewrite elem_of_difference, elem_of_list_to_set.
    destruct (decide (x ∈ cyc)); naive_solver.
Qed.

Lemma size_after_cycle (pend : gset nat) (cyc : list nat) :
  cyc ≠ [] → NoDup cyc → (∀ x, x ∈ cyc → x ∈ pend) →
  size (pend ∖ list_to_set cyc) < size pend.
Proof.
  intros Hne Hnd Hsub.
  rewrite size_difference by set_solver.
  rewrite size_list_to_set by done.
  assert (length cyc ≤ size pend).
  { rewrite <- (size_list_to_set (C:=gset nat) cyc) by done.
    apply subseteq_size. set_solver. }
  destruct cyc; [done|]. cbn [length] in *. lia.
Qed.

End FollowOrbit.

Section CycleDiscovery.

Variable pop : gset nat → nat.
Hypothesis pop_in : ∀ s : gset nat, s ≠ ∅ → pop s ∈ s.
Variable w : list nat.

Lemma discover_cycles_0 pend cycles :
  discover_cycles pop w 0 pend cycles = (cycles, pend).
Proof. reflexivity. Qed.

Lemma discover_cycles_S fuel pend cycles :
  discover_cycles pop w (S fuel) pend cycles =
  if decide (pend = ∅) then (cycles, pend)
  else
    let r := follow_orbit w (size (pend ∖ {[pop pend]})) (pop pend) [pop pend]
               (pend ∖ {[pop pend]}) in
    discover_cycles pop w fuel r.2 (cycles ++ [r.1]).
Proof.
  cbn [discover_cycles]. destruct (decide (pend = ∅)); [done|].
  by destruct (follow_orbit _ _ _ _ _).
Qed.

(** One turn of the outer loop. *)
Lemma discover_cycles_step fuel pend cycles :
  pend ≠ ∅ →
  ∃ m, let a := pop pend in let cyc := iterates w a (S m) in
    discover_cycles pop w (S fuel) pend cycles
      = discover_cycles pop w fuel (pend ∖ list_to_set cyc) (cycles ++ [cyc])
    ∧ NoDup cyc ∧ (∀ x, x ∈ cyc → x ∈ pend)
    ∧ w !!! (Nat.iter m (λ x, w !!! x) a) ∉ pend ∖ list_to_set cyc.
Proof.
  intros Hne. rewrite discover_cycles_S, decide_False by done.
  pose proof (pop_in pend Hne) as Ha.
  destruct (follow_orbit_spec w (size (pend ∖ {[pop pend]})) (pop pend)
              [pop pend] (pend ∖ {[pop pend]})) as (m & Heq & Hnd & Hsub & Hstop).
  exists m. cbv zeta in *. rewrite Heq, !iterates_succ. cbn [fst snd app]. repeat split.
  - f_equal. set_solver.
  - constructor; [|done]. intros Hx. apply Hsub in Hx. set_solver.
  - intros x Hx. apply elem_of_cons in Hx as [->|Hx]; [done|].
    apply Hsub in Hx. set_solver.
  - specialize (Hstop (le_n _)). set_solver.
Qed.

(** The loops assign every pending index to exactly one cycle, whatever [w]
    is, and leave nothing pending. *)
Lemma discover_cycles_partition fuel pend cycles :
  size pend ≤ fuel →
  ∃ new, discover_cycles pop w fuel pend cycles = (cycles ++ new, ∅)
         ∧ concat new ≡ₚ elements pend
         ∧ Forall (λ c, c ≠ []) new.
Proof.
  revert pend cycles. induction fuel as [|fuel IH]; intros pend cycles Hsz.
  - assert (pend = ∅) as ->. { apply leibniz_equiv, size_empty_iff. lia. }
    exists []. rewrite discover_cycles_0, app_nil_r, elements_empty. done.
  - destruct (decide (pend = ∅)) as [->|Hne].
    { exists []. rewrite discover_cycles_S, decide_True by done.
      rewrite app_nil_r, elements_empty. done. }
    destruct (discover_cycles_step fuel pend cycles Hne)
      as (m & Heq & Hnd & Hsub & _). cbv zeta in *.
    set (cyc := iterates w (pop pend) (S m)) in *.
    assert (cyc ≠ []) as Hcyc by (unfold cyc; by rewrite iterates_succ).
    pose proof (size_after_cycle pend cyc Hcyc Hnd Hsub) as Hlt.
    destruct (IH (pend ∖ list_to_set cyc) (cycles ++ [cyc])) as (new & Hnew & Hperm & Hall);
      [lia|].
    exists (cyc :: new). rewrite Heq, Hnew. split; [by rewrite <- app_assoc|].
    split; [|by constructor].
    cbn [concat]. rewrite Hperm. symmetry. by apply elements_split.
Qed.

End CycleDiscovery.

(** ** Cycles of a permutation *)

Section PermutationCycles.

Variable pop : gset nat → nat.
Hypothesis pop_in : ∀ s : gset nat, s ≠ ∅ → pop s ∈ s.
Variable w : list nat.
Variable d : nat.
Hypothesis w_range : ∀ i, i < d → w !!! i < d.
Hypothesis w_inj : ∀ i j, i < d → j < d → w !!! i = w !!! j → i = j.

#[local] Abbreviation W := (λ x : nat, w !!! x).

Lemma iter_range a j : a < d → Nat.iter j W a < d.
Proof.
  intros Ha. induction j as [|j IH]; [done|].
  rewrite Nat.iter_succ. by apply w_range.
Qed.

Lemma closed_iter X a j : closed_under w d X → a ∈ X → Nat.iter j W a ∈ X.
Proof.
  intros [Hlt Hcl] Ha. induction j as [|j IH]; [done|].
  rewrite Nat.iter_succ. apply (proj1 (Hcl _ (Hlt _ IH)) IH).
Qed.

Lemma cycle_closes a k :
  a < d → NoDup (iterates w a (S k)) →
  Nat.iter (S k) W a ∈ iterates w a (S k) →
  Nat.iter (S k) W a = a.
Proof.
  intros Ha Hnd Hin. apply elem_of_iterates in Hin as (j & Hj & Heq).
  destruct j as [|j]; [done|]. exfalso.
  rewrite !Nat.iter_succ in Heq. apply w_inj in Heq; try by apply iter_range.
  assert (k = j); [|lia].
  apply (proj1 (NoDup_alt _) Hnd k j (Nat.iter k W a)).
  - apply iterates_lookup. lia.
  - rewrite Heq. apply iterates_lookup. lia.
Qed.

Lemma cycle_succ a k x :
  Nat.iter (S k) W a = a →
  x ∈ iterates w a (S k) → w !!! x ∈ iterates w a (S k).
Proof.
  intros Hclose Hx. apply elem_of_iterates in Hx as (j & Hj & ->).
  apply elem_of_iterates. destruct (decide (j = k)) as [->|].
  - exists 0. split; [lia|]. exact Hclose.
  - exists (S j). split; [lia|done].
Qed.

Lemma cycle_pred a k x :
  a < d → x < d → Nat.iter (S k) W a = a →
  w !!! x ∈ iterates w a (S k) → x ∈ iterates w a (S k).
Proof.
  intros Ha Hx Hclose Hin. apply elem_of_iterates in Hin as (j & Hj & Heq).
  apply elem_of_iterates. destruct j as [|j].
  - exists k. split; [lia|]. change (Nat.iter 0 W a) with a in Heq.
    rewrite <- Hclose, Nat.iter_succ in Heq.
    apply w_inj in Heq; [done..|]. by apply iter_range.
  - exists j. split; [lia|]. rewrite Nat.iter_succ in Heq.
    apply w_inj in Heq; [done..|]. by apply iter_range.
Qed.

Lemma cycle_iter a k x j :
  Nat.iter (S k) W a = a →
  x ∈ iterates w a (S k) → Nat.iter j W x ∈ iterates w a (S k).
Proof.
  intros Hclose Hx. induction j as [|j IH]; [done|].
  rewrite Nat.iter_succ. by apply cycle_succ.
Qed.

Lemma closed_remove_cycle X a k :
  closed_under w d X → a ∈ X → Nat.iter (S k) W a = a →
  closed_under w d (X ∖ list_to_set (iterates w a (S k))).
Proof.
  intros [Hlt Hcl] Ha Hclose. split.
  - intros i Hi. apply Hlt. set_solver.
  - intros i Hi. rewrite !elem_of_difference, !elem_of_list_to_set.
    rewrite <- (Hcl i Hi). split; intros [H1 H2]; (split; [done|]); intros H3; apply H2.
    + apply (cycle_pred a k); auto.
    + by apply cycle_succ.
Qed.

Lemma discover_cycles_orbits fuel pend cycles :
  closed_under w d pend → size pend ≤ fuel →
  ∃ new, discover_cycles pop w fuel pend cycles = (cycles ++ new, ∅)
         ∧ concat new ≡ₚ elements pend
         ∧ Forall (is_orbit_cycle w d) new.
Proof.
  revert pend cycles. induction fuel as [|fuel IH]; intros pend cycles Hcl Hsz.
  - assert (pend = ∅) as ->. { apply leibniz_equiv, size_empty_iff. lia. }
    exists []. rewrite discover_cycles_0, app_nil_r, elements_empty. done.
  - destruct (decide (pend = ∅)) as [->|Hne].
    { exists []. rewrite discover_cycles_S, decide_True by done.
      rewrite app_nil_r, elements_empty. done. }
    destruct (discover_cycles_step pop pop_in w fuel pend cycles Hne)
      as (m & Heq & Hnd & Hsub & Hstop). cbv zeta in *.
    pose proof (pop_in pend Hne) as Ha.
    set (a := pop pend) in *.
    remember (iterates w a (S m)) as cyc eqn:Ecyc.
    assert (a < d) as Had by (by apply Hcl).
    assert (Nat.iter (S m) W a = a) as Hclose.
    { apply cycle_closes; [done| by rewrite <- Ecyc |].
      pose proof (closed_iter pend a (S m) Hcl Ha) as Hin.
      rewrite <- Ecyc. rewrite Nat.iter_succ in Hin |- *.
      destruct (decide (w !!! Nat.iter m W a ∈ cyc)) as [|Hn]; [done|].
      exfalso. apply Hstop. apply elem_of_difference. split; [done|].
      by rewrite elem_of_list_to_set. }
    assert (cyc ≠ []) as Hcyc by (rewrite Ecyc, iterates_succ; done).
    pose proof (size_after_cycle pend cyc Hcyc Hnd Hsub) as Hlt.
    destruct (IH (pend ∖ list_to_set cyc) (cycles ++ [cyc]))
      as (new & Hnew & Hperm & Hall).
    { rewrite Ecyc. by apply closed_remove_cycle. }
    { lia. }
    exists (cyc :: new). rewrite Heq, Hnew. split; [by rewrite <- app_assoc|].
    split.
    + cbn [concat]. rewrite Hperm. symmetry. by apply elements_split.
    + constructor; [|done]. exists a, m. split; [done|]. split; [done|].
      split; [|done]. intros x Hx. apply Hcl. auto.
Qed.

End PermutationCycles.

#[local] Open Scope Z_scope.

(** ** Products of signs *)

Lemma prodZ_app l1 l2 : prodZ (l1 ++ l2) = prodZ l1 * prodZ l2.
Proof.
  induction l1 as [|x l1 IH]; cbn [app prodZ foldr].
  - fold (prodZ l2). lia.
  - fold (prodZ (l1 ++ l2)) (prodZ l1). rewrite IH. lia.
Qed.

Lemma prodZ_cons x l : prodZ (x :: l) = x * prodZ l.
Proof. reflexivity. Qed.

Lemma prodZ_signs l :
  Forall (λ x, x = 1 ∨ x = -1) l → prodZ l = 1 ∨ prodZ l = -1.
Proof.
  induction 1 as [|x l Hx _ IH]; [by left|].
  rewrite prodZ_cons. destruct Hx as [-> | ->], IH as [-> | ->]; lia.
Qed.

Lemma prodZ_Permutation l1 l2 : l1 ≡ₚ l2 → prodZ l1 = prodZ l2.
Proof.
  induction 1 as [|x l1 l2 _ IH|x y l|l1 l2 l3 _ IH1 _ IH2];
    rewrite ?prodZ_cons; try lia; congruence.
Qed.

(** ** Slices [p[i:-1]] *)

Lemma slice_to_last_end p i :
  (length p - 1 ≤ i)%nat → slice_to_last i p = [].
Proof.
  intros Hi. unfold slice_to_last. apply drop_ge.
  rewrite length_take. lia.
Qed.

Lemma slice_to_last_step p i s :
  (i + 1 < length p)%nat → p !! i = Some s →
  slice_to_last i p = s :: slice_to_last (S i) p.
Proof.
  intros Hi Hs. unfold slice_to_last. apply drop_S.
  rewrite lookup_take_lt by lia. done.
Qed.

Lemma prodZ_slice_whole p s :
  p !! (length p - 1)%nat = Some s →
  prodZ p = prodZ (slice_to_last 0 p) * s.
Proof.
  intros Hs. unfold slice_to_last. rewrite drop_0.
  rewrite <- (take_drop (length p - 1) p) at 1.
  rewrite prodZ_app.
  assert (drop (length p - 1) p = [s]) as ->.
  { erewrite drop_S by done. f_equal. apply drop_ge.
    apply lookup_lt_Some in Hs. lia. }
  rewrite prodZ_cons. cbn. lia.
Qed.

Lemma cycle_values_length p : length (cycle_values p) = length p.
Proof. unfold cycle_values. by rewrite length_map, length_seq. Qed.

Lemma cycle_values_lookup p j :
  (j < length p)%nat →
  cycle_values p !! j = Some (prodZ (slice_to_last j p)).
Proof.
  intros Hj. unfold cycle_values. change (@map) with (@fmap list _).
  by rewrite list_lookup_fmap, lookup_seq_lt.
Qed.

(** ** Writing a column at the rows of a cycle *)

Lemma assign_rows_cons col a cyc v vals :
  assign_rows col (a :: cyc) (v :: vals) = assign_rows (<[a:=v]> col) cyc vals.
Proof. reflexivity. Qed.

Lemma assign_rows_length col cyc vals :
  length (assign_rows col cyc vals) = length col.
Proof.
  revert col vals. induction cyc as [|a cyc IH]; intros col [|v vals]; try done.
  rewrite assign_rows_cons, IH. apply length_insert.
Qed.

Lemma assign_rows_outside col cyc vals x :
  x ∉ cyc → assign_rows col cyc vals !!! x = col !!! x.
Proof.
  revert col vals. induction cyc as [|a cyc IH]; intros col [|v vals] Hx; try done.
  rewrite assign_rows_cons, IH by set_solver.
  apply list_lookup_total_insert_ne. set_solver.
Qed.

Lemma assign_rows_inside col cyc vals j x v :
  NoDup cyc → (∀ y, y ∈ cyc → (y < length col)%nat) →
  cyc !! j = Some x → vals !! j = Some v →
  assign_rows col cyc vals !!! x = v.
Proof.
  revert col vals j. induction cyc as [|a cyc IH]; intros col [|v0 vals] j Hnd Hlt Hx Hv;
    try done.
  rewrite assign_rows_cons. apply NoDup_cons in Hnd as [Ha Hnd].
  destruct j as [|j]; cbn in Hx, Hv.
  - simplify_eq. rewrite assign_rows_outside by done.
    apply list_lookup_total_insert_eq. apply Hlt. set_solver.
  - apply (IH _ _ j); try done.
    intros y Hy. rewrite length_insert. apply Hlt. set_solver.
Qed.

Lemma vector_eq_total (l1 l2 : vector) :
  length l1 = length l2 →
  (∀ i, (i < length l1)%nat → l1 !!! i = l2 !!! i) → l1 = l2.
Proof.
  intros Hlen Heq. apply (list_eq_same_length _ _ (length l1)); [done..|].
  intros i x y Hi Hx Hy.
  apply list_lookup_total_correct in Hx, Hy. rewrite <- Hx, <- Hy. by apply Heq.
Qed.

(** ** The column of a cycle is a fixed point *)

Section CycleColumn.

Variable P : matrix.
Variable w : list nat.
Hypothesis P_perm : signed_permutation P w.

#[local] Abbreviation d := (length P).
#[local] Abbreviation W := (λ x : nat, w !!! x).

Lemma matvec_length (x : vector) : length (matvec P x) = d.
Proof. unfold matvec. by rewrite length_map. Qed.

Lemma matvec_lookup (x : vector) i :
  (i < d)%nat → length x = d →
  matvec P x !!! i = row_sign P i * (x !!! (w !!! i)).
Proof.
  intros Hi Hx.
  assert (matvec P x !!! i = dot (P !!! i) x) as ->.
  { apply list_lookup_total_correct. unfold matvec.
    change (@map) with (@fmap list _).
    by rewrite list_lookup_fmap, (list_lookup_lookup_total_lt P i Hi). }
  rewrite (sp_row _ _ P_perm i Hi).
  apply dot_unit_row; [|done]. by apply (sp_range _ _ P_perm).
Qed.

Lemma row_signs_length c : length (row_signs P c) = length c.
Proof. unfold row_signs. by rewrite length_map. Qed.

Lemma row_signs_lookup c j a :
  c !! j = Some a → row_signs P c !! j = Some (row_sign P a).
Proof.
  intros Hj. unfold row_signs. change (@map) with (@fmap list _).
  by rewrite list_lookup_fmap, Hj.
Qed.

Lemma cycle_column_length c : length (cycle_column P c) = d.
Proof.
  unfold cycle_column. rewrite assign_rows_length.
  unfold zeros. by rewrite length_replicate.
Qed.

Lemma cycle_column_outside c x :
  (x < d)%nat → x ∉ c → cycle_column P c !!! x = 0.
Proof.
  intros Hx Hc. unfold cycle_column. rewrite assign_rows_outside by done.
  unfold zeros. by apply lookup_total_replicate_2.
Qed.

Lemma cycle_column_inside c j x :
  NoDup c → (∀ y, y ∈ c → (y < d)%nat) → c !! j = Some x →
  cycle_column P c !!! x = prodZ (slice_to_last j (row_signs P c)).
Proof.
  intros Hnd Hlt Hj. unfold cycle_column.
  apply (assign_rows_inside _ _ _ j); try done.
  - intros y Hy. unfold zeros. rewrite length_replicate. by apply Hlt.
  - apply cycle_values_lookup. rewrite row_signs_length.
    by apply lookup_lt_Some in Hj.
Qed.

Lemma cycle_column_fixed c :
  is_orbit_cycle w d c → prodZ (row_signs P c) = 1 →
  matvec P (cycle_column P c) = cycle_column P c.
Proof.
  intros (a & k & Hc & Hnd & Hlt & Hclose) Hprod.
  pose proof (sp_range _ _ P_perm) as Hrange.
  pose proof (sp_inj _ _ P_perm) as Hinj.
  assert (length c = S k) as Hlen by (by rewrite Hc, iterates_length).
  assert (Ha : (a < d)%nat).
  { apply Hlt. rewrite Hc, iterates_succ. left. }
  apply vector_eq_total.
  { by rewrite matvec_length, cycle_column_length. }
  rewrite matvec_length. intros i Hi.
  rewrite matvec_lookup by (done || apply cycle_column_length).
  destruct (decide (i ∈ c)) as [Hin|Hout].
  - rewrite Hc in Hin. apply elem_of_iterates in Hin as (j & Hj & Hij).
    assert (c !! j = Some i) as Hcj.
    { rewrite Hc, Hij. by apply iterates_lookup. }
    rewrite (cycle_column_inside c j i) by done.
    destruct (decide (j = k)) as [->|Hjk].
    + (* the last index of the cycle is mapped to the first *)
      assert (w !!! i = a) as -> by (rewrite Hij; exact Hclose).
      assert (c !! 0%nat = Some a) as Hc0.
      { rewrite Hc. apply (iterates_lookup w a (S k) 0). lia. }
      rewrite (cycle_column_inside c 0 a) by done.
      rewrite (slice_to_last_end _ k) by (rewrite row_signs_length; lia).
      rewrite (prodZ_slice_whole _ (row_sign P i)) in Hprod.
      * change (prodZ []) with 1. lia.
      * rewrite row_signs_length, Hlen.
        replace (S k - 1)%nat with k by lia. by apply row_signs_lookup.
    + assert (c !! S j = Some (w !!! i)) as Hcj'.
      { rewrite Hc, Hij. change (w !!! Nat.iter j W a) with (Nat.iter (S j) W a).
        apply iterates_lookup. lia. }
      rewrite (cycle_column_inside c (S j) (w !!! i)) by done.
      rewrite (slice_to_last_step _ j (row_sign P i)).
      * by rewrite prodZ_cons.
      * rewrite row_signs_length. lia.
      * by apply row_signs_lookup.
  - rewrite (cycle_column_outside c i) by done.
    rewrite cycle_column_outside; [lia|by apply Hrange|].
    intros Hin. apply Hout. rewrite Hc in Hin |- *.
    by apply (cycle_pred w d Hrange Hinj a k).
Qed.

End CycleColumn.

(** ** Lists of lists *)

Lemma elem_of_concat {A} (L : list (list A)) x :
  x ∈ concat L ↔ ∃ c, c ∈ L ∧ x ∈ c.
Proof.
  induction L as [|c L IH]; cbn [concat].
  - split; [by intros ?%elem_of_nil|]. by intros (c & ?%elem_of_nil & _).
  - rewrite elem_of_app, IH. split.
    + intros [H|(c' & H1 & H2)]; [exists c|exists c']; split; try done; by constructor.
    + intros (c' & [->|H1]%elem_of_cons & H2); [by left|]. right. by exists c'.
Qed.

Lemma NoDup_concat_inv {A} (L : list (list A)) :
  NoDup (concat L) →
  Forall NoDup L ∧
  ∀ j k c1 c2 x, L !! j = Some c1 → L !! k = Some c2 → x ∈ c1 → x ∈ c2 → j = k.
Proof.
  induction L as [|c L IH]; cbn [concat]; intros Hnd.
  - split; [constructor|]. intros j k c1 c2 x H. by rewrite lookup_nil in H.
  - apply NoDup_app in Hnd as (Hc & Hdisj & HL). destruct (IH HL) as [IH1 IH2].
    split; [by constructor|].
    intros [|j] [|k] c1 c2 x H1 H2 Hx1 Hx2; cbn in H1, H2; simplify_eq.
    + done.
    + exfalso. apply (Hdisj x Hx1), elem_of_concat. exists c2. split; [|done].
      by apply list_elem_of_lookup_2 in H2.
    + exfalso. apply (Hdisj x Hx2), elem_of_concat. exists c1. split; [|done].
      by apply list_elem_of_lookup_2 in H1.
    + f_equal. by apply (IH2 j k c1 c2 x).
Qed.

Lemma filter_map_comm {A B} (f : A → B) (Q : B → Prop)
    `{∀ y, Decision (Q y)} (l : list A) :
  filter Q (map f l) = map f (filter (λ x, Q (f x)) l).
Proof.
  induction l as [|x l IH]; [done|]. cbn [map]. rewrite !filter_cons.
  destruct (decide (Q (f x))); cbn [map]; by rewrite IH.
Qed.

Lemma filter_ext_Forall {A} (Q1 Q2 : A → Prop)
    `{∀ y, Decision (Q1 y)} `{∀ y, Decision (Q2 y)} (l : list A) :
  Forall (λ x, Q1 x ↔ Q2 x) l → filter Q1 l = filter Q2 l.
Proof.
  induction 1 as [|x l Hx _ IH]; [done|]. rewrite !filter_cons, IH.
  destruct (decide (Q1 x)), (decide (Q2 x)); tauto.
Qed.

Lemma drop_take_seq (l : vector) j m :
  (m ≤ length l)%nat →
  drop j (take m l) = map (λ i, l !!! i) (seq j (m - j)).
Proof.
  intros Hm. apply list_eq. intros i.
  rewrite lookup_drop. change (@map) with (@fmap list _). rewrite list_lookup_fmap.
  destruct (decide (j + i < m)%nat) as [Hlt|Hge].
  - rewrite lookup_take_lt by lia. rewrite lookup_seq_lt by lia. cbn.
    apply list_lookup_lookup_total_lt. lia.
  - rewrite lookup_take_ge by lia. rewrite lookup_ge_None_2; [done|].
    rewrite length_seq. lia.
Qed.

(** ** Cycles and orbits *)

Section Orbits.

Variable w : list nat.
Variable d : nat.
Hypothesis w_range : ∀ i, (i < d)%nat → (w !!! i < d)%nat.
Hypothesis w_inj : ∀ i j, (i < d)%nat → (j < d)%nat → w !!! i = w !!! j → i = j.

#[local] Abbreviation W := (λ x : nat, w !!! x).

Lemma cycle_length_le c : is_orbit_cycle w d c → (length c ≤ d)%nat.
Proof.
  intros (a & k & Hc & Hnd & Hlt & Hclose).
  pose proof (submseteq_length c (seq 0 d)) as H. rewrite length_seq in H.
  apply H, NoDup_submseteq; [done|].
  intros x Hx. apply elem_of_seq. specialize (Hlt x Hx). lia.
Qed.

Lemma iter_period a k n :
  Nat.iter (S k) W a = a → Nat.iter (n + S k) W a = Nat.iter n W a.
Proof. intros Hclose. by rewrite Nat.iter_add, Hclose. Qed.

Lemma orbit_of_cycle c x :
  is_orbit_cycle w d c → x ∈ c → orbit_of w d x = list_to_set c.
Proof.
  intros Hcyc Hx. pose proof (cycle_length_le c Hcyc) as Hle.
  destruct Hcyc as (a & k & Hc & Hnd & Hlt & Hclose).
  assert (length c = S k) as Hlen by (by rewrite Hc, iterates_length).
  apply set_eq. intros y. unfold orbit_of. rewrite !elem_of_list_to_set. split.
  - intros (j & _ & ->)%elem_of_iterates. rewrite Hc in Hx |- *.
    by apply cycle_iter.
  - rewrite Hc in Hx |- *. intros Hy.
    apply elem_of_iterates in Hx as (jx & Hjx & ->).
    apply elem_of_iterates in Hy as (jy & Hjy & ->).
    apply elem_of_iterates.
    destruct (decide (jx ≤ jy)%nat).
    + exists (jy - jx)%nat. split; [lia|].
      rewrite <- Nat.iter_add. f_equal. lia.
    + exists (jy + S k - jx)%nat. split; [lia|].
      rewrite <- Nat.iter_add.
      replace (jy + S k - jx + jx)%nat with (jy + S k)%nat by lia.
      by rewrite iter_period.
Qed.

Lemma cycles_are_orbits (cycles : list (list nat)) :
  Forall (is_orbit_cycle w d) cycles → concat cycles ≡ₚ seq 0 d →
  NoDup (map (list_to_set (C:=gset nat)) cycles)
  ∧ list_to_set (map (list_to_set (C:=gset nat)) cycles) = orbits w d.
Proof.
  intros Hall Hperm.
  assert (Hne : Forall (λ c, c ≠ []) cycles).
  { eapply Forall_impl; [exact Hall|].
    intros c (a & k & -> & _). by rewrite iterates_succ. }
  assert (Hnd : NoDup (concat cycles)).
  { rewrite Hperm. apply NoDup_seq. }
  split.
  - clear Hall Hperm. induction cycles as [|c cycles IH]; [constructor|].
    cbn [concat map] in *. apply NoDup_app in Hnd as (Hc & Hdisj & Hrest).
    apply Forall_cons in Hne as [Hc0 Hne].
    constructor; [|by apply IH].
    change (@map) with (@fmap list _). intros (c' & Heq & Hc')%list_elem_of_fmap.
    destruct c as [|x c]; [done|].
    apply (Hdisj x); [by left|].
    apply elem_of_concat. exists c'. split; [done|].
    apply (elem_of_list_to_set (C:=gset nat)). rewrite <- Heq.
    apply elem_of_list_to_set. by left.
  - apply set_eq. intros O. unfold orbits. rewrite !elem_of_list_to_set.
    change (@map) with (@fmap list _). rewrite !list_elem_of_fmap. split.
    + intros (c & -> & Hc). rewrite Forall_forall in Hall, Hne.
      pose proof (Hall c Hc) as Hcyc. pose proof (Hne c Hc) as Hcne.
      destruct c as [|x c]; [done|].
      exists x. split.
      * symmetry. apply orbit_of_cycle; [done|by left].
      * rewrite <- Hperm. apply elem_of_concat. eexists. split; [exact Hc|by left].
    + intros (i & -> & Hi). rewrite <- Hperm in Hi.
      apply elem_of_concat in Hi as (c & Hc & Hic).
      exists c. split; [|done]. rewrite Forall_forall in Hall.
      apply orbit_of_cycle; auto.
Qed.

End Orbits.

(** ** The solver as a whole *)

Lemma basis_unfold pop P :
  get_equivariant_basis pop P =
  map (cycle_column P)
      (filter (λ c, prodZ (row_signs P c) = 1) (orbit_cycles pop P)).
Proof.
  unfold get_equivariant_basis.
  assert (H : ∀ cycles Q, foldl (add_cycle P) Q cycles =
            Q ++ map (cycle_column P) (filter (λ c, prodZ (row_signs P c) = 1) cycles)).
  { induction cycles as [|c cycles IH]; intros Q; cbn [foldl].
    - by rewrite app_nil_r.
    - rewrite IH, filter_cons. unfold add_cycle.
      destruct (decide (prodZ (row_signs P c) = 1)).
      + rewrite bool_decide_eq_true_2 by done. by rewrite <- app_assoc.
      + by rewrite bool_decide_eq_false_2 by done. }
  apply H.
Qed.

Section Solver.

Variable pop : gset nat → nat.
Hypothesis pop_in : ∀ s : gset nat, s ≠ ∅ → pop s ∈ s.
Variable P : matrix.
Hypothesis P_valid : is_generalized_permutation P = true.

#[local] Abbreviation d := (length P).
#[local] Abbreviation w := (perm_vector P).

Lemma orbit_cycles_spec :
  concat (orbit_cycles pop P) ≡ₚ seq 0 d
  ∧ Forall (is_orbit_cycle w d) (orbit_cycles pop P).
Proof.
  pose proof (generalized_permutation_structure P P_valid) as HP.
  unfold orbit_cycles. cbv zeta.
  destruct (discover_cycles_orbits pop pop_in w d (sp_range _ _ HP) (sp_inj _ _ HP)
              d (list_to_set (seq 0 d)) []) as (new & Heq & Hperm & Hall).
  - split.
    + intros i Hi%elem_of_list_to_set%elem_of_seq. lia.
    + intros i Hi. rewrite !elem_of_list_to_set, !elem_of_seq.
      pose proof (sp_range _ _ HP i Hi). lia.
  - rewrite size_list_to_set by apply NoDup_seq. by rewrite length_seq.
  - rewrite Heq. cbn [fst app]. split; [|done].
    rewrite Hperm. apply elements_list_to_set, NoDup_seq.
Qed.

Lemma sign_at_row_sign i : (i < d)%nat → sign_at P i = row_sign P i.
Proof.
  intros Hi. pose proof (generalized_permutation_structure P P_valid) as HP.
  unfold sign_at, entry. rewrite (sp_row _ _ HP i Hi) at 1.
  rewrite unit_row_lookup by (by apply (sp_range _ _ HP)).
  by rewrite decide_True.
Qed.

Lemma row_signs_sign_at c :
  (∀ x, x ∈ c → (x < d)%nat) → row_signs P c = map (sign_at P) c.
Proof.
  intros Hlt. unfold row_signs. apply map_ext_in. intros a Ha%list_elem_of_In.
  symmetry. by apply sign_at_row_sign, Hlt.
Qed.

Lemma row_signs_are_signs c :
  (∀ x, x ∈ c → (x < d)%nat) → Forall (λ s, s = 1 ∨ s = -1) (row_signs P c).
Proof.
  intros Hlt. pose proof (generalized_permutation_structure P P_valid) as HP.
  unfold row_signs. change (@map) with (@fmap list _).
  apply Forall_fmap, Forall_forall. intros a Ha. cbn.
  by apply (sp_sign _ _ HP), Hlt.
Qed.

Lemma cycle_in_range c : c ∈ orbit_cycles pop P → ∀ x, x ∈ c → (x < d)%nat.
Proof.
  intros Hc. destruct orbit_cycles_spec as [_ Hall].
  rewrite Forall_forall in Hall. destruct (Hall c Hc) as (a & k & _ & _ & H & _).
  exact H.
Qed.

Lemma basis_fixed q : q ∈ get_equivariant_basis pop P → matvec P q = q.
Proof.
  rewrite basis_unfold. change (@map) with (@fmap list _).
  intros (c & -> & Hc)%list_elem_of_fmap.
  apply list_elem_of_filter in Hc as [Hprod Hc].
  destruct orbit_cycles_spec as [_ Hall]. rewrite Forall_forall in Hall.
  apply (cycle_column_fixed P w); [|by apply Hall|done].
  by apply generalized_permutation_structure.
Qed.

Lemma basis_size : length (get_equivariant_basis pop P) = positive_orbits P.
Proof.
  pose proof (generalized_permutation_structure P P_valid) as HP.
  destruct orbit_cycles_spec as [Hperm Hall].
  destruct (cycles_are_orbits w d _ Hall Hperm)
    as [Hnd Horb].
  rewrite basis_unfold, length_map. unfold positive_orbits.
  rewrite <- Horb.
  rewrite (elements_list_to_set _ Hnd), filter_map_comm, length_map.
  f_equal. apply filter_ext_Forall, Forall_forall. intros c Hc.
  rewrite Forall_forall in Hall. destruct (Hall c Hc) as (a & k & _ & Hndc & Hlt & _).
  unfold sign_product. rewrite (row_signs_sign_at c Hlt).
  rewrite (prodZ_Permutation (map (sign_at P) (elements (list_to_set c)))
                             (map (sign_at P) c)); [done|].
  change (@map) with (@fmap list _). apply fmap_Permutation.
  by apply elements_list_to_set.
Qed.

End Solver.

Lemma pop_first_in (s : gset nat) : s ≠ ∅ → pop_first s ∈ s.
Proof.
  intros Hne. unfold pop_first.
  destruct (elements s) as [|x l] eqn:E.
  - exfalso. apply Hne. by apply leibniz_equiv, elements_empty_inv; rewrite E.
  - cbn. apply elem_of_elements. rewrite E. by left.
Qed.

(** C1: for every generalized permutation matrix [P], and whatever element
    [set.pop()] picks, every column [q] of the basis returned by
    [get_equivariant_basis] satisfies [P q = q], and the number of columns is
    the number of orbits of the underlying permutation whose product of signs
    is 1. *)
Theorem equivariant_basis_fixed_points pop P :
  (∀ s : gset nat, s ≠ ∅ → pop s ∈ s) →
  is_generalized_permutation P = true →
  (∀ q, q ∈ get_equivariant_basis pop P → matvec P q = q)
  ∧ length (get_equivariant_basis pop P) = positive_orbits P.
Proof.
  intros Hpop HP. split.
  - intros q. by apply basis_fixed.
  - by apply basis_size.
Qed.

Lemma equivariant_basis_fixed_points_witness :
  (∀ q, q ∈ get_equivariant_basis pop_first [[0;1;0];[-1;0;0];[0;0;1]] →
        matvec [[0;1;0];[-1;0;0];[0;0;1]] q = q)
  ∧ length (get_equivariant_basis pop_first [[0;1;0];[-1;0;0];[0;0;1]])
    = positive_orbits [[0;1;0];[-1;0;0];[0;0;1]].
Proof.
  apply equivariant_basis_fixed_points; [exact pop_first_in | reflexivity].
Defined.

(** C2: for every generalized permutation matrix [P] of dimension [d], the
    vector [w = |P| (0, ..., d-1)] holds at [i] the column of the nonzero
    entry of row [i], and the cycles found by the orbit-discovery loop
    partition [{0, ..., d-1}]: every index below [d], and nothing else, lies
    in a cycle, two different cycles share no index, no cycle repeats an
    index, and the lengths sum to [d]. *)
Theorem orbit_cycles_partition pop P :
  (∀ s : gset nat, s ≠ ∅ → pop s ∈ s) →
  is_generalized_permutation P = true →
  let d := length P in
  let w := perm_vector P in
  let cycles := orbit_cycles pop P in
  (∀ i, (i < d)%nat → (w !!! i < d)%nat ∧ entry P i (w !!! i) ≠ 0
                      ∧ ∀ j, (j < d)%nat → entry P i j ≠ 0 → j = w !!! i)
  ∧ (∀ i, (i < d)%nat ↔ ∃ c, c ∈ cycles ∧ i ∈ c)
  ∧ (∀ j k c1 c2 x, cycles !! j = Some c1 → cycles !! k = Some c2 →
                    x ∈ c1 → x ∈ c2 → j = k)
  ∧ Forall NoDup cycles
  ∧ sum_list (length <$> cycles) = d.
Proof.
  intros Hpop HP d w cycles.
  pose proof (generalized_permutation_structure P HP) as HS.
  destruct (discover_cycles_partition pop Hpop w d (list_to_set (seq 0 d)) [])
    as (new & Heq & Hperm & _).
  { rewrite size_list_to_set by apply NoDup_seq. by rewrite length_seq. }
  assert (cycles = new) as Hcyc.
  { unfold cycles, orbit_cycles. cbv zeta. fold d w. by rewrite Heq. }
  assert (concat cycles ≡ₚ seq 0 d) as Hpart.
  { rewrite Hcyc, Hperm. apply elements_list_to_set, NoDup_seq. }
  assert (NoDup (concat cycles)) as Hnd.
  { rewrite Hpart. apply NoDup_seq. }
  destruct (NoDup_concat_inv cycles Hnd) as [Hnds Hdisj].
  split; [|split; [|split; [|split]]]; try done.
  - intros i Hi. split; [by apply (sp_range _ _ HS)|].
    unfold entry. rewrite (sp_row _ _ HS i Hi).
    pose proof (sp_range _ _ HS i Hi) as Hw.
    split.
    + rewrite unit_row_lookup, decide_True by done.
      destruct (sp_sign _ _ HS i Hi); lia.
    + intros j Hj. rewrite unit_row_lookup by done.
      by destruct (decide (j = perm_vector P !!! i)).
  - intros i. rewrite <- elem_of_concat, Hpart, elem_of_seq. lia.
  - rewrite <- length_concat, Hpart. apply length_seq.
Qed.

Lemma orbit_cycles_partition_witness :
  let P := [[0;1;0];[-1;0;0];[0;0;1]] in
  let d := length P in
  let w := perm_vector P in
  let cycles := orbit_cycles pop_first P in
  (∀ i, (i < d)%nat → (w !!! i < d)%nat ∧ entry P i (w !!! i) ≠ 0
                      ∧ ∀ j, (j < d)%nat → entry P i j ≠ 0 → j = w !!! i)
  ∧ (∀ i, (i < d)%nat ↔ ∃ c, c ∈ cycles ∧ i ∈ c)
  ∧ (∀ j k c1 c2 x, cycles !! j = Some c1 → cycles !! k = Some c2 →
                    x ∈ c1 → x ∈ c2 → j = k)
  ∧ Forall NoDup cycles
  ∧ sum_list (length <$> cycles) = d.
Proof.
  apply orbit_cycles_partition; [exact pop_first_in | reflexivity].
Defined.

Section Columns.

Variable pop : gset nat → nat.
Hypothesis pop_in : ∀ s : gset nat, s ≠ ∅ → pop s ∈ s.
Variable P : matrix.
Hypothesis P_valid : is_generalized_permutation P = true.
Variable c : list nat.
Hypothesis c_cycle : c ∈ orbit_cycles pop P.

#[local] Abbreviation d := (length P).
#[local] Abbreviation w := (perm_vector P).

Lemma cycle_is_orbit_cycle : is_orbit_cycle w d c.
Proof.
  destruct (orbit_cycles_spec pop pop_in P P_valid) as [_ Hall].
  rewrite Forall_forall in Hall. by apply Hall.
Qed.

Lemma cycle_lookup_total j :
  (j < length c)%nat → c !! j = Some (c !!! j).
Proof. apply list_lookup_lookup_total_lt. Qed.

Lemma cycle_traversal :
  (∀ i, (S i < length c)%nat → c !!! S i = w !!! (c !!! i))
  ∧ w !!! (c !!! (length c - 1)%nat) = c !!! 0%nat.
Proof.
  destruct cycle_is_orbit_cycle as (a & k & Hc & _ & _ & Hclose).
  assert (∀ j, (j < S k)%nat → c !!! j = Nat.iter j (λ x, w !!! x) a) as Hj.
  { intros j Hj. apply list_lookup_total_correct. rewrite Hc.
    by apply iterates_lookup. }
  assert (length c = S k) as Hlen by (by rewrite Hc, iterates_length).
  rewrite Hlen. split.
  - intros i Hi. rewrite !Hj by lia. done.
  - replace (S k - 1)%nat with k by lia. rewrite !Hj by lia. exact Hclose.
Qed.

Lemma cycle_column_value j :
  (j < length c)%nat →
  cycle_column P c !!! (c !!! j) = prodZ (slice_to_last j (row_signs P c)).
Proof.
  intros Hj. destruct cycle_is_orbit_cycle as (a & k & _ & Hnd & Hlt & _).
  pose proof (generalized_permutation_structure P P_valid) as HS.
  apply (cycle_column_inside P c j); try done. by apply cycle_lookup_total.
Qed.

Lemma row_signs_total j :
  (j < length c)%nat → row_signs P c !!! j = sign_at P (c !!! j).
Proof.
  intros Hj. apply list_lookup_total_correct.
  rewrite (row_signs_lookup P c j (c !!! j)) by (by apply cycle_lookup_total).
  f_equal. symmetry. apply sign_at_row_sign; [done|].
  apply (cycle_in_range pop pop_in P P_valid c c_cycle).
  apply list_elem_of_lookup. exists j. by apply cycle_lookup_total.
Qed.

Lemma sign_at_cycle j :
  (j < length c)%nat → sign_at P (c !!! j) = 1 ∨ sign_at P (c !!! j) = -1.
Proof.
  intros Hj. pose proof (generalized_permutation_structure P P_valid) as HS.
  assert (c !!! j < d)%nat as Hlt.
  { apply (cycle_in_range pop pop_in P P_valid c c_cycle).
    apply list_elem_of_lookup. exists j. by apply cycle_lookup_total. }
  rewrite sign_at_row_sign by done. by apply (sp_sign _ _ HS).
Qed.

Lemma cycle_column_step j :
  (S j < length c)%nat →
  cycle_column P c !!! (c !!! j)
  = sign_at P (c !!! j) * cycle_column P c !!! (c !!! S j).
Proof.
  intros Hj. rewrite !cycle_column_value by lia.
  rewrite (slice_to_last_step _ j (sign_at P (c !!! j))).
  - by rewrite prodZ_cons.
  - rewrite row_signs_length. lia.
  - rewrite <- row_signs_total by lia.
    apply list_lookup_lookup_total_lt. rewrite row_signs_length. lia.
Qed.

Lemma cycle_column_last :
  cycle_column P c !!! (c !!! (length c - 1)%nat) = 1.
Proof.
  destruct cycle_is_orbit_cycle as (a & k & Hc & _).
  assert (length c = S k) as Hlen by (by rewrite Hc, iterates_length).
  rewrite cycle_column_value by lia.
  rewrite slice_to_last_end; [done|]. rewrite row_signs_length. lia.
Qed.

Lemma cycle_column_first :
  prodZ (row_signs P c) = 1 →
  cycle_column P c !!! (c !!! 0%nat) = sign_at P (c !!! (length c - 1)%nat).
Proof.
  intros Hprod. destruct cycle_is_orbit_cycle as (a & k & Hc & _).
  assert (length c = S k) as Hlen by (by rewrite Hc, iterates_length).
  rewrite cycle_column_value by lia.
  rewrite (prodZ_slice_whole _ (sign_at P (c !!! (length c - 1)%nat))) in Hprod.
  - destruct (sign_at_cycle (length c - 1)) as [Hs|Hs]; [lia|..]; rewrite Hs in *; lia.
  - rewrite row_signs_length. rewrite <- row_signs_total by lia.
    apply list_lookup_lookup_total_lt. rewrite row_signs_length. lia.
Qed.

Lemma cycle_column_product j :
  (j < length c)%nat →
  cycle_column P c !!! (c !!! j)
  = prodZ (map (λ i, sign_at P (c !!! i)) (seq j (length c - 1 - j))).
Proof.
  intros Hj. rewrite cycle_column_value by done.
  unfold slice_to_last. rewrite drop_take_seq by lia. rewrite row_signs_length.
  f_equal. apply map_ext_in. intros i Hi%in_seq. apply row_signs_total. lia.
Qed.

Lemma cycle_column_in_basis :
  prodZ (map (sign_at P) c) = 1 → cycle_column P c ∈ get_equivariant_basis pop P.
Proof.
  intros Hprod. rewrite basis_unfold. change (@map) with (@fmap list _).
  apply list_elem_of_fmap. exists c. split; [done|].
  apply list_elem_of_filter. split; [|done].
  rewrite (row_signs_sign_at P P_valid); [done|].
  by apply (cycle_in_range pop pop_in P P_valid).
Qed.

Lemma cycle_column_entries :
  Forall (λ x, x = -1 ∨ x = 0 ∨ x = 1) (cycle_column P c).
Proof.
  destruct cycle_is_orbit_cycle as (a & k & Hc & Hnd & Hlt & _).
  apply Forall_lookup. intros i x Hx.
  assert (i < d)%nat as Hi.
  { apply lookup_lt_Some in Hx. by rewrite cycle_column_length in Hx. }
  apply list_lookup_total_correct in Hx. subst x.
  destruct (decide (i ∈ c)) as [Hin|Hout].
  - apply list_elem_of_lookup in Hin as (j & Hj).
    rewrite (cycle_column_inside P c j i) by done.
    destruct (prodZ_signs (slice_to_last j (row_signs P c))) as [->| ->]; auto.
    unfold slice_to_last. apply Forall_drop, Forall_take.
    by apply row_signs_are_signs.
  - rewrite cycle_column_outside by done. auto.
Qed.

End Columns.

(** C3: let [c = [a_0, ..., a_(k-1)]] be a cycle found by the loop, in
    traversal order ([a_(i+1) = w a_i], and [w a_(k-1) = a_0]), whose row
    signs [s_0, ..., s_(k-1)] have product 1.  Then its column belongs to the
    basis, its value [x_j] at [a_j] is the product of [s_j, ..., s_(k-2)],
    [x_(k-1) = 1], and the values solve [x_(i+1) = s_i x_i] around the
    cycle, the last step leading back to [x_0]. *)
Theorem cycle_column_sign_products pop P c :
  (∀ s : gset nat, s ≠ ∅ → pop s ∈ s) →
  is_generalized_permutation P = true →
  c ∈ orbit_cycles pop P →
  prodZ (map (sign_at P) c) = 1 →
  let k := length c in
  let w := perm_vector P in
  let s := λ i, sign_at P (c !!! i) in
  let x := λ i, cycle_column P c !!! (c !!! i) in
  ((∀ i, (S i < k)%nat → c !!! S i = w !!! (c !!! i))
   ∧ w !!! (c !!! (k - 1)%nat) = c !!! 0%nat)
  ∧ cycle_column P c ∈ get_equivariant_basis pop P
  ∧ (∀ j, (j < k)%nat → x j = prodZ (map s (seq j (k - 1 - j))))
  ∧ x (k - 1)%nat = 1
  ∧ (∀ i, (S i < k)%nat → x (S i) = s i * x i)
  ∧ x 0%nat = s (k - 1)%nat * x (k - 1)%nat.
Proof.
  intros Hpop HP Hc Hprod k w s x. unfold k in *. clear k.
  assert (prodZ (row_signs P c) = 1) as Hprod'.
  { rewrite (row_signs_sign_at P HP); [done|].
    by apply (cycle_in_range pop Hpop P HP). }
  split; [by apply (cycle_traversal pop Hpop P HP)|].
  split; [by apply cycle_column_in_basis|].
  split; [intros j Hj; by apply (cycle_column_product pop Hpop P HP)|].
  assert (x (length c - 1)%nat = 1) as Hlast by (by apply (cycle_column_last pop Hpop P HP)).
  split; [done|]. split.
  - intros i Hi. unfold x, s.
    rewrite (cycle_column_step pop Hpop P HP c Hc i Hi).
    destruct (sign_at_cycle pop Hpop P HP c Hc i) as [-> | ->]; lia.
  - unfold x in Hlast |- *. rewrite Hlast. unfold s.
    rewrite (cycle_column_first pop Hpop P HP c Hc Hprod'). lia.
Qed.

Lemma cycle_column_sign_products_witness :
  let P := [[0;1;0;0;0];[0;0;-1;0;0];[-1;0;0;0;0];[0;0;0;0;-1];[0;0;0;1;0]] in
  let c := [2%nat; 0%nat; 1%nat] in
  let k := length c in
  let w := perm_vector P in
  let s := λ i, sign_at P (c !!! i) in
  let x := λ i, cycle_column P c !!! (c !!! i) in
  ((∀ i, (S i < k)%nat → c !!! S i = w !!! (c !!! i))
   ∧ w !!! (c !!! (k - 1)%nat) = c !!! 0%nat)
  ∧ cycle_column P c ∈ get_equivariant_basis pop_first P
  ∧ (∀ j, (j < k)%nat → x j = prodZ (map s (seq j (k - 1 - j))))
  ∧ x (k - 1)%nat = 1
  ∧ (∀ i, (S i < k)%nat → x (S i) = s i * x i)
  ∧ x 0%nat = s (k - 1)%nat * x (k - 1)%nat.
Proof.
  apply (cycle_column_sign_products pop_first
           [[0;1;0;0;0];[0;0;-1;0;0];[-1;0;0;0;0];[0;0;0;0;-1];[0;0;0;1;0]] [2%nat; 0%nat; 1%nat]).
  - exact pop_first_in.
  - reflexivity.
  - vm_compute. right. left.
  - reflexivity.
Defined.

(** C10: for every generalized permutation matrix [P], every column of the
    basis has length [d] and entries in {-1, 0, 1}; it is the column of a
    cycle found by the loop, zero at every index outside that cycle and 1 at
    the index that the cycle visits last. *)
Theorem basis_entries_and_support pop P col :
  (∀ s : gset nat, s ≠ ∅ → pop s ∈ s) →
  is_generalized_permutation P = true →
  col ∈ get_equivariant_basis pop P →
  length col = length P
  ∧ Forall (λ x, x = -1 ∨ x = 0 ∨ x = 1) col
  ∧ ∃ c a, c ∈ orbit_cycles pop P ∧ col = cycle_column P c
           ∧ (∀ i, (i < length P)%nat → i ∉ c → col !!! i = 0)
           ∧ last c = Some a ∧ col !!! a = 1.
Proof.
  intros Hpop HP Hcol. rewrite basis_unfold in Hcol.
  change (@map) with (@fmap list _) in Hcol.
  apply list_elem_of_fmap in Hcol as (c & -> & Hc).
  apply list_elem_of_filter in Hc as [Hprod Hc].
  split; [apply cycle_column_length|].
  split; [by apply (cycle_column_entries pop Hpop P HP)|].
  destruct (cycle_is_orbit_cycle pop Hpop P HP c Hc) as (a0 & k & Hck & _).
  assert (length c = S k) as Hlen by (by rewrite Hck, iterates_length).
  exists c, (c !!! (length c - 1)%nat). split; [done|]. split; [done|].
  split; [|split].
  - intros i Hi Hout. by apply cycle_column_outside.
  - rewrite last_lookup. replace (Init.Nat.pred (length c)) with (length c - 1)%nat by lia.
    apply list_lookup_lookup_total_lt. lia.
  - by apply (cycle_column_last pop Hpop P HP).
Qed.

Lemma basis_entries_and_support_witness :
  let P := [[0;1;0];[-1;0;0];[0;0;1]] in
  let col := [0;0;1] in
  length col = length P
  ∧ Forall (λ x, x = -1 ∨ x = 0 ∨ x = 1) col
  ∧ ∃ c a, c ∈ orbit_cycles pop_first P ∧ col = cycle_column P c
           ∧ (∀ i, (i < length P)%nat → i ∉ c → col !!! i = 0)
           ∧ last c = Some a ∧ col !!! a = 1.
Proof.
  apply (basis_entries_and_support pop_first [[0;1;0];[-1;0;0];[0;0;1]] [0;0;1]).
  - exact pop_first_in.
  - reflexivity.
  - vm_compute. left.
Defined.

(** ** Finite sums *)

Lemma sumZ_cons x l : sumZ (x :: l) = x + sumZ l.
Proof. reflexivity. Qed.

Lemma sumZ_app l1 l2 : sumZ (l1 ++ l2) = sumZ l1 + sumZ l2.
Proof.
  induction l1 as [|x l1 IH]; [done|].
  cbn [app]. rewrite !sumZ_cons, IH. lia.
Qed.

Lemma bigsum_S n f : bigsum (S n) f = bigsum n f + f n.
Proof.
  unfold bigsum. rewrite seq_S, map_app, sumZ_app. cbn [map].
  rewrite sumZ_cons. change (sumZ []) with 0. cbn [Nat.add]. lia.
Qed.

Lemma bigsum_0 f : bigsum 0 f = 0.
Proof. reflexivity. Qed.

Lemma bigsum_ext n f g :
  (∀ i, (i < n)%nat → f i = g i) → bigsum n f = bigsum n g.
Proof.
  induction n as [|n IH]; intros H; [done|].
  rewrite !bigsum_S, IH, H by (intros; auto with lia). done.
Qed.

Lemma bigsum_zero n f : (∀ i, (i < n)%nat → f i = 0) → bigsum n f = 0.
Proof.
  induction n as [|n IH]; intros H; [done|].
  rewrite bigsum_S, IH, H by (intros; auto with lia). done.
Qed.

Lemma bigsum_single n f c :
  (c < n)%nat → (∀ i, (i < n)%nat → i ≠ c → f i = 0) → bigsum n f = f c.
Proof.
  induction n as [|n IH]; intros Hc H; [lia|].
  rewrite bigsum_S. destruct (decide (c = n)) as [->|Hne].
  - rewrite bigsum_zero; [lia|]. intros i Hi. apply H; lia.
  - rewrite IH, (H n) by (intros; auto with lia). lia.
Qed.

Lemma bigsum_add n f g :
  bigsum n (λ i, f i + g i) = bigsum n f + bigsum n g.
Proof.
  induction n as [|n IH]; [done|]. rewrite !bigsum_S, IH. lia.
Qed.

Lemma bigsum_scale_l n c f : bigsum n (λ i, c * f i) = c * bigsum n f.
Proof.
  induction n as [|n IH]; [rewrite !bigsum_0; lia|]. rewrite !bigsum_S, IH. lia.
Qed.

Lemma bigsum_scale_r n c f : bigsum n (λ i, f i * c) = bigsum n f * c.
Proof.
  induction n as [|n IH]; [rewrite !bigsum_0; lia|]. rewrite !bigsum_S, IH. lia.
Qed.

Lemma bigsum_swap n m (f : nat → nat → Z) :
  bigsum n (λ i, bigsum m (λ j, f i j)) = bigsum m (λ j, bigsum n (λ i, f i j)).
Proof.
  induction n as [|n IH].
  - rewrite bigsum_0. symmetry. by apply bigsum_zero.
  - rewrite bigsum_S, IH, <- bigsum_add. apply bigsum_ext.
    intros j _. by rewrite bigsum_S.
Qed.

Lemma bigsum_le n f g :
  (∀ i, (i < n)%nat → f i ≤ g i) → bigsum n f ≤ bigsum n g.
Proof.
  induction n as [|n IH]; intros H; [done|].
  rewrite !bigsum_S. specialize (H n ltac:(lia)) as Hn.
  assert (bigsum n f ≤ bigsum n g) by (apply IH; intros; apply H; lia). lia.
Qed.

Lemma bigsum_const n c : bigsum n (λ _, c) = Z.of_nat n * c.
Proof. induction n as [|n IH]; [done|]. rewrite bigsum_S, IH. lia. Qed.

Lemma sumZ_lookup (l : vector) : sumZ l = bigsum (length l) (λ i, l !!! i).
Proof.
  induction l as [|x l IH] using rev_ind; [done|].
  rewrite length_app, Nat.add_1_r, bigsum_S, sumZ_app, sumZ_cons. cbn [length].
  change (sumZ []) with 0.
  rewrite IH. f_equal.
  - apply bigsum_ext. intros i Hi. by rewrite lookup_total_app_l.
  - rewrite lookup_total_app_r by lia. rewrite Nat.sub_diag. cbn. lia.
Qed.

Lemma dot_bigsum (u v : vector) n :
  length u = n → length v = n → dot u v = bigsum n (λ k, u !!! k * v !!! k).
Proof.
  intros Hu Hv. unfold dot. rewrite sumZ_lookup.
  rewrite length_zip_with, Hu, Hv, Nat.min_id.
  apply bigsum_ext. intros i Hi. apply list_lookup_total_correct.
  rewrite lookup_zip_with.
  rewrite (list_lookup_lookup_total_lt u i), (list_lookup_lookup_total_lt v i) by lia.
  done.
Qed.

(** ** Square matrices *)

Lemma square_row n M i : square n M → (i < n)%nat → length (M !!! i) = n.
Proof.
  intros [Hlen Hrows] Hi. rewrite Forall_forall in Hrows. apply Hrows.
  apply list_elem_of_lookup. exists i. apply list_lookup_lookup_total_lt. lia.
Qed.

Lemma square_ncols n M : square n M → ncols M = n.
Proof.
  intros [Hlen Hrows]. unfold ncols. destruct M as [|row M]; [done|].
  cbn. by apply Forall_cons in Hrows as [? _].
Qed.

Lemma tabulate_lookup {A} `{Inhabited A} (f : nat → A) n i :
  (i < n)%nat → map f (seq 0 n) !!! i = f i.
Proof.
  intros Hi. apply list_lookup_total_correct.
  change (@map) with (@fmap list _). by rewrite list_lookup_fmap, lookup_seq_lt.
Qed.

Lemma square_tabulate n (f : nat → nat → Z) :
  square n (map (λ i, map (f i) (seq 0 n)) (seq 0 n)).
Proof.
  split; [by rewrite length_map, length_seq|].
  change (@map) with (@fmap list _). apply Forall_fmap, Forall_forall.
  intros i _. cbn. by rewrite length_fmap, length_seq.
Qed.

Lemma entry_tabulate n (f : nat → nat → Z) i j :
  (i < n)%nat → (j < n)%nat →
  entry (map (λ i, map (f i) (seq 0 n)) (seq 0 n)) i j = f i j.
Proof. intros Hi Hj. unfold entry. by rewrite !tabulate_lookup. Qed.

Lemma matrix_ext n A B :
  square n A → square n B →
  (∀ i j, (i < n)%nat → (j < n)%nat → entry A i j = entry B i j) → A = B.
Proof.
  intros HA HB Heq. apply (list_eq_same_length _ _ n); [apply HB|apply HA|].
  intros i ra rb Hi Ha Hb.
  apply list_lookup_total_correct in Ha, Hb. subst ra rb.
  apply vector_eq_total.
  - by rewrite !(square_row n).
  - rewrite (square_row n) by done. intros j Hj. by apply Heq.
Qed.

Lemma column_total n M j k :
  square n M → (k < n)%nat → column j M !!! k = entry M k j.
Proof. intros [Hlen _] Hk. apply column_lookup. lia. Qed.

Lemma list_as_tabulate {A} `{Inhabited A} (l : list A) :
  l = map (λ i, l !!! i) (seq 0 (length l)).
Proof.
  apply list_eq. intros i. change (@map) with (@fmap list _).
  rewrite list_lookup_fmap. destruct (decide (i < length l)%nat).
  - rewrite lookup_seq_lt by done. cbn. by apply list_lookup_lookup_total_lt.
  - rewrite !lookup_ge_None_2; [done| |]; rewrite ?length_seq; lia.
Qed.

Lemma matmul_tabulate n A B :
  square n A → square n B →
  matmul A B
  = map (λ i, map (λ j, bigsum n (λ k, entry A i k * entry B k j)) (seq 0 n)) (seq 0 n).
Proof.
  intros HA HB. unfold matmul. rewrite (square_ncols n B HB).
  rewrite (list_as_tabulate A) at 1. rewrite map_map.
  destruct HA as [HlenA HrowsA]. rewrite HlenA.
  apply map_ext_in. intros i Hi%in_seq.
  apply map_ext_in. intros j Hj%in_seq.
  rewrite (dot_bigsum _ _ n).
  - apply bigsum_ext. intros k Hk. unfold entry at 1.
    by rewrite (column_total n).
  - apply (square_row n); [done|lia].
  - rewrite column_length. apply HB.
Qed.

Lemma square_matmul n A B : square n A → square n B → square n (matmul A B).
Proof. intros HA HB. rewrite (matmul_tabulate n) by done. apply square_tabulate. Qed.

Lemma entry_matmul n A B i j :
  square n A → square n B → (i < n)%nat → (j < n)%nat →
  entry (matmul A B) i j = bigsum n (λ k, entry A i k * entry B k j).
Proof.
  intros HA HB Hi Hj. rewrite (matmul_tabulate n) by done.
  by rewrite entry_tabulate.
Qed.

Lemma square_eye n : square n (eye n).
Proof.
  split; [unfold eye; by rewrite length_map, length_seq|].
  unfold eye. change (@map) with (@fmap list _). apply Forall_fmap, Forall_forall.
  intros i _. cbn. unfold zeros. by rewrite length_insert, length_replicate.
Qed.

Lemma entry_eye n i j :
  (i < n)%nat → (j < n)%nat →
  entry (eye n) i j = if decide (j = i) then 1 else 0.
Proof.
  intros Hi Hj. unfold entry, eye. rewrite tabulate_lookup by done.
  by apply unit_row_lookup.
Qed.

Lemma matmul_assoc n A B C :
  square n A → square n B → square n C →
  matmul (matmul A B) C = matmul A (matmul B C).
Proof.
  intros HA HB HC.
  apply (matrix_ext n); try by repeat apply square_matmul.
  intros i j Hi Hj.
  rewrite !(entry_matmul n) by (by repeat apply square_matmul).
  transitivity (bigsum n (λ k, bigsum n (λ l, entry A i l * entry B l k * entry C k j))).
  { apply bigsum_ext. intros k Hk. rewrite (entry_matmul n) by done.
    by rewrite <- bigsum_scale_r. }
  rewrite bigsum_swap. apply bigsum_ext. intros l Hl.
  rewrite (entry_matmul n) by done. rewrite <- bigsum_scale_l.
  apply bigsum_ext. intros k Hk. lia.
Qed.

Lemma matmul_eye_l n A : square n A → matmul (eye n) A = A.
Proof.
  intros HA. pose proof (square_eye n) as HI.
  apply (matrix_ext n); [by apply square_matmul | done |].
  intros i j Hi Hj.
  rewrite (entry_matmul n) by (done || apply square_eye).
  rewrite (bigsum_single _ _ i) by
    (done || intros k Hk Hne; rewrite entry_eye, decide_False by done; lia).
  rewrite entry_eye, decide_True by done. lia.
Qed.

Lemma matmul_eye_r n A : square n A → matmul A (eye n) = A.
Proof.
  intros HA. pose proof (square_eye n) as HI.
  apply (matrix_ext n); [by apply square_matmul | done |].
  intros i j Hi Hj.
  rewrite (entry_matmul n) by (done || apply square_eye).
  rewrite (bigsum_single _ _ j); [by rewrite entry_eye, decide_True by done; lia|done|].
  intros k Hk Hne. rewrite entry_eye, decide_False by done. lia.
Qed.

(** ** [np.isclose] and [np.allclose] on integers *)

Lemma isclose_exact a b :
  Z.abs b < 10 ^ 5 → isclose a b = true ↔ a = b.
Proof.
  intros Hb. unfold isclose. rewrite Z.leb_le.
  change (10 ^ 8) with 100000000. change (10 ^ 3) with 1000.
  change (10 ^ 5) with 100000 in Hb. lia.
Qed.

Lemma isclose_refl a : isclose a a = true.
Proof.
  unfold isclose. rewrite Z.leb_le, Z.sub_diag.
  change (10 ^ 8) with 100000000. change (10 ^ 3) with 1000. lia.
Qed.

Lemma isclose_gap a b :
  0 ≤ b < 200000 → a ≤ b - 2 → isclose a b = false.
Proof.
  intros Hb Ha. unfold isclose. apply Z.leb_gt.
  change (10 ^ 8) with 100000000. change (10 ^ 3) with 1000. lia.
Qed.

Lemma allclose_eye n A : square n A → allclose A (eye n) = true ↔ A = eye n.
Proof.
  intros HA. split.
  - intros Hclose. apply (matrix_ext n); [done|apply square_eye|].
    intros i j Hi Hj. unfold allclose in Hclose.
    rewrite forallb_forall in Hclose.
    assert (In (A !!! i, eye n !!! i) (zip A (eye n))) as Hin.
    { apply list_elem_of_In, list_elem_of_lookup. exists i.
      rewrite lookup_zip_with.
      rewrite (list_lookup_lookup_total_lt A i) by (destruct HA; lia).
      rewrite (list_lookup_lookup_total_lt (eye n) i)
        by (destruct (square_eye n); lia). done. }
    specialize (Hclose _ Hin). cbn in Hclose. rewrite forallb_forall in Hclose.
    assert (In (entry A i j, entry (eye n) i j) (zip (A !!! i) (eye n !!! i))) as Hin'.
    { apply list_elem_of_In, list_elem_of_lookup. exists j.
      rewrite lookup_zip_with. unfold entry.
      rewrite (list_lookup_lookup_total_lt (A !!! i) j) by (by rewrite (square_row n)).
      rewrite (list_lookup_lookup_total_lt (eye n !!! i) j)
        by (rewrite (square_row n); done || apply square_eye). done. }
    specialize (Hclose _ Hin'). cbn in Hclose.
    apply isclose_exact in Hclose; [done|].
    rewrite entry_eye by done. destruct (decide (j = i)); done.
  - intros ->. unfold allclose. apply forallb_forall.
    intros [ra rb] Hin%list_elem_of_In%list_elem_of_lookup. destruct Hin as [i Hi].
    apply lookup_zip_with_Some in Hi as (x & y & [= <- <-] & Hx & Hy).
    simplify_eq. cbn. apply forallb_forall.
    intros [u v] Hin%list_elem_of_In%list_elem_of_lookup. destruct Hin as [j Hj].
    apply lookup_zip_with_Some in Hj as (x' & y' & [= <- <-] & Hx' & Hy').
    simplify_eq. cbn. apply isclose_refl.
Qed.

(** ** [Sym.__init__] *)

Lemma check_generators_ok i gens flags :
  Forall (λ h, column_norms_ok (todense h) = true) gens →
  ∃ flags', Sym.check_generators i gens flags = inr flags'
    ∧ flags'.2 = (flags.2 || existsb issparse gens).
Proof.
  intros Hall. revert i flags. induction Hall as [|h gens Hh _ IH]; intros i flags.
  - exists flags. cbn. by rewrite orb_false_r.
  - cbn [Sym.check_generators]. rewrite Hh.
    destruct (IH (S i) (if has_negative (todense h) then false else flags.1,
                        if issparse h then true else flags.2)) as (fl & Heq & H2).
    exists fl. split; [done|]. rewrite H2. cbn [snd existsb].
    destruct (issparse h), (flags.2); done.
Qed.

Lemma check_generators_inv i gens flags flags' :
  Sym.check_generators i gens flags = inr flags' →
  Forall (λ h, column_norms_ok (todense h) = true) gens.
Proof.
  revert i flags. induction gens as [|h gens IH]; intros i flags Heq; [constructor|].
  cbn [Sym.check_generators] in Heq.
  destruct (column_norms_ok (todense h)) eqn:Hh; [|done].
  constructor; [done|]. by eapply IH.
Qed.

Lemma all_axis0_tiled (B : list (list bool)) :
  all_axis0 (B ++ B ++ B ++ B ++ []) = all_axis0 B.
Proof.
  unfold all_axis0.
  assert (head (B ++ B ++ B ++ B ++ []) = head B) as -> by (by destruct B).
  apply map_ext. intros j. rewrite !forallb_app. cbn [forallb].
  destruct (forallb _ B); done.
Qed.

Lemma diagonal_square n M :
  square n M → diagonal M = map (λ i, entry M i i) (seq 0 n).
Proof.
  intros HM. unfold diagonal. rewrite (square_ncols n M HM).
  destruct HM as [-> _]. by rewrite Nat.min_id.
Qed.

Lemma all_axis0_diagonals n (gens : list generator) :
  gens ≠ [] → Forall (λ h, square n (todense h)) gens →
  all_axis0 (map (map (λ x, bool_decide (x = 1)))
                 (map (λ h, diagonal (todense h)) gens))
  = untiled_inv_dims n gens.
Proof.
  intros Hne Hsq. unfold all_axis0, untiled_inv_dims.
  assert (length (default [] (head (map (map (λ x, bool_decide (x = 1)))
            (map (λ h, diagonal (todense h)) gens)))) = n) as ->.
  { destruct gens as [|h gens]; [done|]. apply Forall_cons in Hsq as [Hh _].
    cbn. rewrite (diagonal_square n) by done.
    by rewrite !length_map, length_seq. }
  apply map_ext_in. intros i Hi%in_seq.
  rewrite !map_map. clear Hne.
  induction Hsq as [|h gens Hh _ IH]; [done|].
  cbn [map forallb]. rewrite IH.
  rewrite (diagonal_square n) by done.
  assert (map (λ x, bool_decide (x = 1)) (map (λ i0, entry (todense h) i0 i0) (seq 0 n)) !!! i
          = bool_decide (entry (todense h) i i = 1)) as ->.
  { rewrite map_map. rewrite tabulate_lookup by lia. done. }
  apply eq_true_iff_eq.
  rewrite andb_true_iff, !bool_decide_eq_true, Forall_cons. done.
Qed.

Lemma sym_init_inv gens G :
  Sym.init gens = inr G →
  gens ≠ []
  ∧ Forall (λ h, column_norms_ok (todense h) = true) gens
  ∧ Sym.discrete_generators G = gens
  ∧ Sym.d G = length (todense (default {| issparse := false; todense := [] |} (head gens)))
  ∧ Sym.inv_dims G
    = all_axis0 (map (map (λ x, bool_decide (x = 1))) (Sym.tiled_diagonals gens))
  ∧ Sym.n_inv_dims G = length (filter (λ b, b = true) (Sym.inv_dims G)).
Proof.
  unfold Sym.init. destruct gens as [|g0 gens]; [done|].
  destruct (Sym.check_generators 0 (g0 :: gens) (true, false)) as [e|flags] eqn:Hchk;
    [done|].
  destruct (negb (Sym.stackable flags.2 (g0 :: gens))); [done|].
  intros [= <-]. cbn [Sym.discrete_generators Sym.d Sym.inv_dims Sym.n_inv_dims head default].
  split; [done|]. split; [by eapply check_generators_inv|]. done.
Qed.

Lemma stackable_single sp h : Sym.stackable sp [h] = true.
Proof.
  unfold Sym.stackable. destruct sp; cbn [forallb]; rewrite andb_true_r.
  - apply Nat.eqb_refl.
  - by apply bool_decide_eq_true.
Qed.

Lemma stackable_square n sp gens :
  Forall (λ h, square n (todense h)) gens → Sym.stackable sp gens = true.
Proof.
  intros Hall. unfold Sym.stackable. destruct gens as [|g0 gens]; [done|].
  pose proof (Forall_inv Hall) as H0. cbv beta in H0.
  assert (∀ h, square n (todense h) →
               Sym.shape (todense h) = (n, n)
               ∧ length (diagonal (todense h)) = n) as Hshape.
  { intros h Hh. unfold Sym.shape. rewrite (square_ncols n) by done.
    split; [by destruct Hh as [-> _]|].
    rewrite (diagonal_square n) by done. by rewrite length_map, length_seq. }
  destruct sp; apply forallb_forall; intros h Hh%list_elem_of_In;
    rewrite Forall_forall in Hall; specialize (Hall h Hh);
    destruct (Hshape h Hall) as [H1 H2]; destruct (Hshape g0 H0) as [H3 H4].
  - apply Nat.eqb_eq. congruence.
  - apply bool_decide_eq_true. congruence.
Qed.


Lemma sym_init_ok gens :
  gens ≠ [] → Forall (λ h, column_norms_ok (todense h) = true) gens →
  Sym.stackable (existsb issparse gens) gens = true →
  ∃ G, Sym.init gens = inr G ∧ Sym.is_sparse G = existsb issparse gens.
Proof.
  intros Hne Hall Hst. unfold Sym.init. destruct gens as [|g0 gens]; [done|].
  destruct (check_generators_ok 0 (g0 :: gens) (true, false) Hall) as (fl & -> & H2).
  cbn [fst snd orb] in H2. rewrite H2, Hst. cbn [negb].
  eexists. split; [done|]. cbn [Sym.is_sparse]. done.
Qed.

Lemma tiled_diagonals_unfold gens :
  map (map (λ x, bool_decide (x = 1))) (Sym.tiled_diagonals gens)
  = let B := map (map (λ x, bool_decide (x = 1)))
                 (map (λ h, diagonal (todense h)) gens) in
    B ++ B ++ B ++ B ++ [].
Proof.
  unfold Sym.tiled_diagonals. cbn [replicate concat]. by rewrite !map_app.
Qed.

Lemma sym_inv_dims gens G :
  Sym.init gens = inr G →
  Forall (λ h, square (Sym.d G) (todense h)) gens →
  Sym.inv_dims G = untiled_inv_dims (Sym.d G) gens.
Proof.
  intros Hinit Hsq.
  destruct (sym_init_inv gens G Hinit) as (Hne & _ & _ & _ & Hinv & _).
  rewrite Hinv, tiled_diagonals_unfold. cbv zeta.
  rewrite all_axis0_tiled. by apply all_axis0_diagonals.
Qed.

Lemma count_untiled d gens :
  length (filter (λ b, b = true) (untiled_inv_dims d gens))
  = length (filter (λ i, Forall (λ h, entry (todense h) i i = 1) gens) (seq 0 d)).
Proof.
  unfold untiled_inv_dims. rewrite filter_map_comm, length_map. f_equal.
  apply filter_ext_Forall, Forall_forall. intros i _.
  by rewrite bool_decide_eq_true.
Qed.

(** C9: when [Sym.__init__] accepts a list of square [d] by [d]
    generators, the list is not empty and the invariant dimensions computed
    from the list tiled four times are those of the untiled definition:
    dimension [i] is marked iff the diagonal entry at [i] of every generator
    is 1, and [n_inv_dims] counts these dimensions. *)
Theorem tiled_invariant_dimensions gens G :
  Sym.init gens = inr G →
  Forall (λ h, square (Sym.d G) (todense h)) gens →
  gens ≠ []
  ∧ Sym.inv_dims G = untiled_inv_dims (Sym.d G) gens
  ∧ (∀ i, (i < Sym.d G)%nat →
       Sym.inv_dims G !! i = Some true
       ↔ ∀ h, h ∈ gens → entry (todense h) i i = 1)
  ∧ Sym.n_inv_dims G
    = length (filter (λ i, Forall (λ h, entry (todense h) i i = 1) gens)
                     (seq 0 (Sym.d G))).
Proof.
  intros Hinit Hsq.
  destruct (sym_init_inv gens G Hinit) as (Hne & _ & _ & _ & _ & Hn).
  pose proof (sym_inv_dims gens G Hinit Hsq) as Hinv.
  split; [done|]. split; [done|]. split.
  - intros i Hi. rewrite Hinv. unfold untiled_inv_dims.
    change (@map) with (@fmap list _).
    rewrite list_lookup_fmap, lookup_seq_lt by done. cbn.
    rewrite <- Forall_forall. split.
    + intros [= H]. by apply bool_decide_eq_true in H.
    + intros H. f_equal. by apply bool_decide_eq_true.
  - rewrite Hn, Hinv. apply count_untiled.
Qed.

Lemma tiled_invariant_dimensions_witness :
  let gens := [ {| issparse := false; todense := [[1;0;0];[0;0;1];[0;1;0]] |};
                {| issparse := true; todense := [[1;0;0];[0;-1;0];[0;0;1]] |} ] in
  ∃ G, Sym.init gens = inr G
       ∧ gens ≠ []
       ∧ Sym.inv_dims G = untiled_inv_dims (Sym.d G) gens
       ∧ (∀ i, (i < Sym.d G)%nat →
            Sym.inv_dims G !! i = Some true
            ↔ ∀ h, h ∈ gens → entry (todense h) i i = 1)
       ∧ Sym.n_inv_dims G
         = length (filter (λ i, Forall (λ h, entry (todense h) i i = 1) gens)
                          (seq 0 (Sym.d G))).
Proof.
  intros gens. eexists. split; [reflexivity|].
  apply (tiled_invariant_dimensions gens); [reflexivity | repeat constructor].
Defined.

(** ** Matrices given by a permutation and a sign for every row *)

Section SignedRows.

Variable n : nat.
Variable M : matrix.
Variable f : nat → nat.
Variable s : nat → Z.
Hypothesis HM : signed_rows n M f s.

Lemma sr_square : square n M.
Proof.
  split; [apply HM|]. apply Forall_lookup. intros i row Hi.
  assert (i < n)%nat as Hlt.
  { apply lookup_lt_Some in Hi. by rewrite (sr_length _ _ _ _ HM) in Hi. }
  apply list_lookup_total_correct in Hi. subst row.
  rewrite (sr_row _ _ _ _ HM) by done. apply length_unit_row.
Qed.

Lemma sr_entry i j :
  (i < n)%nat → (j < n)%nat →
  entry M i j = if decide (j = f i) then s i else 0.
Proof.
  intros Hi Hj. unfold entry. rewrite (sr_row _ _ _ _ HM) by done.
  apply unit_row_lookup; [by apply HM|done].
Qed.

Lemma sr_diag_bound i :
  (i < n)%nat → entry M i i = 1 ∨ entry M i i ≤ 0.
Proof.
  intros Hi. rewrite sr_entry by done.
  destruct (decide (i = f i)); [|lia]. destruct (sr_sign _ _ _ _ HM i Hi); lia.
Qed.

Lemma sr_trace : trace M = bigsum n (λ i, entry M i i).
Proof.
  unfold trace. rewrite (diagonal_square n) by apply sr_square. done.
Qed.

Lemma sr_eq_eye : M = eye n ↔ ∀ i, (i < n)%nat → entry M i i = 1.
Proof.
  split.
  - intros -> i Hi. by rewrite entry_eye, decide_True.
  - intros Hdiag. apply (matrix_ext n); [apply sr_square|apply square_eye|].
    intros i j Hi Hj. rewrite entry_eye by done.
    specialize (Hdiag i Hi). rewrite sr_entry in Hdiag |- * by done.
    destruct (decide (i = f i)) as [Hfi|]; [|lia].
    destruct (decide (j = f i)), (decide (j = i)); try done; congruence.
Qed.

(** A zero on the diagonal comes with a second one. *)
Lemma sr_second_zero i :
  (i < n)%nat → entry M i i ≤ 0 → entry M i i ≠ -1 →
  ∃ j, (j < n)%nat ∧ j ≠ i ∧ entry M j j ≤ 0.
Proof.
  intros Hi Hle Hne. rewrite sr_entry in Hle, Hne by done.
  destruct (decide (i = f i)) as [|Hfi].
  { destruct (sr_sign _ _ _ _ HM i Hi); lia. }
  exists (f i). pose proof (sr_range _ _ _ _ HM i Hi) as Hr.
  split; [done|]. split; [done|].
  rewrite sr_entry by done. destruct (decide (f i = f (f i))) as [Heq|]; [|done].
  exfalso. apply Hfi. symmetry. by apply (sr_inj _ _ _ _ HM).
Qed.

Lemma sr_trace_eq : trace M = Z.of_nat n ↔ M = eye n.
Proof.
  rewrite sr_trace, sr_eq_eye. split.
  - intros Hsum i Hi.
    destruct (sr_diag_bound i Hi) as [|Hle]; [done|]. exfalso.
    assert (bigsum n (λ i, entry M i i) ≤ bigsum n (λ k, if decide (k = i) then 0 else 1)).
    { apply bigsum_le. intros k Hk. destruct (decide (k = i)) as [->|]; [done|].
      destruct (sr_diag_bound k Hk); lia. }
    assert (bigsum n (λ k, if decide (k = i) then 0 else 1) = Z.of_nat n - 1).
    { transitivity (bigsum n (λ _, 1) - bigsum n (λ k, if decide (k = i) then 1 else 0)).
      - assert (∀ a b c : Z, a + b = c → a = c - b) as Hsub by (intros; lia).
        apply Hsub. rewrite <- bigsum_add. apply bigsum_ext.
        intros k _. destruct (decide (k = i)); done.
      - rewrite bigsum_const, (bigsum_single _ _ i), decide_True; [lia|done..|].
        intros k _ Hk. by rewrite decide_False. }
    lia.
  - intros Hdiag. rewrite (bigsum_ext _ _ (λ _, 1)) by done.
    rewrite bigsum_const. lia.
Qed.

Lemma bigsum_two_gaps (g : nat → Z) i j :
  (i < n)%nat → (j < n)%nat → i ≠ j →
  (∀ k, (k < n)%nat → g k ≤ 1) → g i ≤ 0 → g j ≤ 0 →
  bigsum n g ≤ Z.of_nat n - 2.
Proof.
  intros Hi Hj Hij Hle Hgi Hgj.
  assert (bigsum n g ≤ bigsum n (λ k, 1 - ((if decide (k = i) then 1 else 0)
                                          + (if decide (k = j) then 1 else 0)))).
  { apply bigsum_le. intros k Hk. pose proof (Hle k Hk) as Hk1.
    destruct (decide (k = i)), (decide (k = j)); subst; lia. }
  assert (bigsum n (λ k, 1 - ((if decide (k = i) then 1 else 0)
                              + (if decide (k = j) then 1 else 0)))
          = Z.of_nat n - 2); [|lia].
  assert (∀ a b c : Z, a + b = c → a = c - b) as Hsub by (intros; lia).
  replace 2 with (1 + 1) by done.
  transitivity (bigsum n (λ _, 1)
                - (bigsum n (λ k, if decide (k = i) then 1 else 0)
                   + bigsum n (λ k, if decide (k = j) then 1 else 0))).
  - apply Hsub. rewrite <- !bigsum_add. apply bigsum_ext. intros k _. lia.
  - rewrite bigsum_const, (bigsum_single _ _ i), (bigsum_single _ _ j),
      !decide_True; try done; try lia.
    + intros k _ Hk. by rewrite decide_False.
    + intros k _ Hk. by rewrite decide_False.
Qed.

Lemma sr_trace_gap : M ≠ eye n → trace M ≤ Z.of_nat n - 2.
Proof.
  intros Hne. rewrite sr_trace.
  assert (∃ i, (i < n)%nat ∧ entry M i i ≤ 0) as (i & Hi & Hle).
  { destruct (decide (Forall (λ i, entry M i i = 1) (seq 0 n))) as [Hall|Hnall].
    - exfalso. apply Hne, sr_eq_eye. intros i Hi.
      rewrite Forall_forall in Hall. apply Hall, elem_of_seq. lia.
    - apply not_Forall_Exists in Hnall; [|apply _].
      apply Exists_exists in Hnall as (i & Hi%elem_of_seq & Hx).
      exists i. split; [lia|]. destruct (sr_diag_bound i); [lia|congruence|done]. }
  destruct (decide (entry M i i = -1)) as [Hm|Hm].
  - (* a diagonal entry -1 alone lowers the trace by 2 *)
    assert (bigsum n (λ i, entry M i i)
            ≤ bigsum n (λ k, 1 - (if decide (k = i) then 2 else 0))).
    { apply bigsum_le. intros k Hk. destruct (decide (k = i)) as [->|]; [lia|].
      destruct (sr_diag_bound k Hk); lia. }
    assert (bigsum n (λ k, 1 - (if decide (k = i) then 2 else 0)) = Z.of_nat n - 2);
      [|lia].
    assert (∀ a b c : Z, a + b = c → a = c - b) as Hsub by (intros; lia).
    transitivity (bigsum n (λ _, 1) - bigsum n (λ k, if decide (k = i) then 2 else 0)).
    + apply Hsub. rewrite <- bigsum_add. apply bigsum_ext. intros k _. lia.
    + rewrite bigsum_const, (bigsum_single _ _ i), decide_True; [lia|done..|].
      intros k _ Hk. by rewrite decide_False.
  - destruct (sr_second_zero i Hi Hle Hm) as (j & Hj & Hij & Hlej).
    apply (bigsum_two_gaps _ i j); try done.
    intros k Hk. destruct (sr_diag_bound k Hk); lia.
Qed.

Lemma sr_column_norms : column_norms_ok M = true.
Proof.
  unfold column_norms_ok. rewrite (square_ncols n M sr_square).
  apply forallb_forall. intros j Hj%in_seq. apply bool_decide_eq_true.
  rewrite sumZ_lookup, length_map, column_length, (sr_length _ _ _ _ HM).
  destruct (sr_surj _ _ _ _ HM j ltac:(lia)) as (i & Hi & Hfi).
  assert (∀ k, (k < n)%nat →
            map (λ x, x * x) (column j M) !!! k
            = if decide (k = i) then 1 else 0) as Hk.
  { intros k Hk. apply list_lookup_total_correct.
    change (@map) with (@fmap list _). rewrite list_lookup_fmap.
    pose proof (column_total n M j k sr_square Hk) as Hcol.
    rewrite (list_lookup_lookup_total_lt (column j M) k)
      by (by rewrite column_length, (sr_length _ _ _ _ HM)).
    cbn. f_equal. rewrite Hcol, sr_entry by (done || lia).
    destruct (decide (k = i)) as [->|Hne].
    - rewrite decide_True by done. destruct (sr_sign _ _ _ _ HM i Hi) as [-> | ->]; lia.
    - rewrite decide_False; [lia|]. intros Heq. apply Hne.
      apply (sr_inj _ _ _ _ HM); congruence. }
  rewrite (bigsum_ext _ _ (λ k, if decide (k = i) then 1 else 0)) by done.
  rewrite (bigsum_single _ _ i), decide_True; try done.
  intros k _ Hne. by rewrite decide_False.
Qed.

End SignedRows.

Lemma signed_rows_matmul n A B f g s t :
  signed_rows n A f s → signed_rows n B g t →
  signed_rows n (matmul A B) (λ i, g (f i)) (λ i, s i * t (f i)).
Proof.
  intros HA HB.
  pose proof (sr_square n A f s HA) as HsA.
  pose proof (sr_square n B g t HB) as HsB.
  pose proof (square_matmul n A B HsA HsB) as HsAB.
  split.
  - apply HsAB.
  - intros i Hi. pose proof (sr_range _ _ _ _ HA i Hi) as Hfi.
    apply vector_eq_total.
    { rewrite (square_row n) by done. by rewrite length_unit_row. }
    rewrite (square_row n) by done. intros j Hj.
    rewrite unit_row_lookup by (done || by apply HB).
    change ((matmul A B !!! i) !!! j) with (entry (matmul A B) i j).
    rewrite (entry_matmul n) by done.
    rewrite (bigsum_single _ _ (f i)); [|done|].
    + rewrite (sr_entry n A f s HA), decide_True by done.
      rewrite (sr_entry n B g t HB) by done.
      destruct (decide (j = g (f i))); lia.
    + intros k Hk Hne. rewrite (sr_entry n A f s HA), decide_False by done. lia.
  - intros i Hi. by apply HB, HA.
  - intros i j Hi Hj Heq.
    apply (sr_inj _ _ _ _ HB) in Heq; [|by apply HA..].
    by apply (sr_inj _ _ _ _ HA).
  - intros j Hj. destruct (sr_surj _ _ _ _ HB j Hj) as (k & Hk & <-).
    destruct (sr_surj _ _ _ _ HA k Hk) as (i & Hi & <-). by exists i.
  - intros i Hi. pose proof (sr_range _ _ _ _ HA i Hi) as Hfi.
    destruct (sr_sign _ _ _ _ HA i Hi) as [-> | ->],
             (sr_sign _ _ _ _ HB (f i) Hfi) as [-> | ->]; lia.
Qed.

Lemma signed_rows_generalized_permutation P :
  is_generalized_permutation P = true →
  signed_rows (length P) P (λ i, perm_vector P !!! i) (row_sign P).
Proof.
  intros HP. pose proof (generalized_permutation_structure P HP) as HS.
  split;
    [by rewrite <- (sp_length _ _ HS), perm_vector_length
    |apply (sp_row _ _ HS)|apply (sp_range _ _ HS)|apply (sp_inj _ _ HS)
    | |apply (sp_sign _ _ HS)].
  intros j Hj.
  unfold is_generalized_permutation in HP. apply andb_true_iff in HP as [_ Hcols].
  rewrite forallb_forall in Hcols.
  assert (In j (seq 0 (length P))) as Hin by (apply in_seq; lia).
  apply Hcols, Nat.eqb_eq in Hin.
  destruct (nonzeros_one _ Hin) as (r & x & Hr & Hx & Hcol).
  rewrite column_length in Hr, Hcol.
  exists r. split; [done|].
  assert (entry P r j = x) as Hrj.
  { rewrite <- column_lookup by done. rewrite Hcol, unit_row_lookup by done.
    by rewrite decide_True. }
  unfold entry in Hrj. rewrite (sp_row _ _ HS r Hr) in Hrj.
  rewrite unit_row_lookup in Hrj by (done || by apply HS).
  destruct (decide (j = perm_vector P !!! r)); [done|congruence].
Qed.

(** ** [C2.__init__] on a signed permutation *)

Lemma c2_init_unfold h G :
  Sym.init [h] = inr G →
  ncols (todense h) = length (todense h) →
  C2.init h =
  if isclose (trace (todense h)) (Z.of_nat (length (todense h)))
  then inl IdentityGenerator
  else if negb (isclose (trace (matmul (todense h) (todense h)))
                        (Z.of_nat (length (todense h))))
       then inl NotCyclic
       else inr G.
Proof.
  intros Hinit Hsq. unfold C2.init. rewrite Hinit.
  destruct (sym_init_inv [h] G Hinit) as (_ & _ & -> & -> & _).
  cbn [head from_option id]. rewrite Hsq, Nat.eqb_refl. cbn [negb].
  fold (trace (todense h)).
  fold (trace (matmul (todense h) (todense h))).
  by destruct (Sym.is_sparse G).
Qed.

Lemma c2_init_signed_rows h n f s :
  signed_rows n (todense h) f s → Z.of_nat n < 200000 →
  ∃ G, Sym.init [h] = inr G ∧
    C2.init h =
    if decide (todense h = eye n) then inl IdentityGenerator
    else if decide (matmul (todense h) (todense h) = eye n) then inr G
         else inl NotCyclic.
Proof.
  intros Hh Hn.
  destruct (sym_init_ok [h]) as (G & Hinit & _); [done| |apply stackable_single|].
  { constructor; [|constructor]. by apply (sr_column_norms n _ f s). }
  exists G. split; [done|]. rewrite (c2_init_unfold h G Hinit).
  2:{ rewrite (square_ncols n) by apply (sr_square n _ f s Hh).
      by rewrite (sr_length _ _ _ _ Hh). }
  rewrite (sr_length _ _ _ _ Hh).
  pose proof (signed_rows_matmul n _ _ f f s s Hh Hh) as Hhh.
  destruct (decide (todense h = eye n)) as [Heye|Hneye].
  - apply (sr_trace_eq n _ f s Hh) in Heye. rewrite Heye. by rewrite isclose_refl.
  - rewrite isclose_gap; [|lia|by apply (sr_trace_gap n _ f s)].
    destruct (decide (matmul (todense h) (todense h) = eye n)) as [Hc|Hnc].
    + apply (sr_trace_eq n _ _ _ Hhh) in Hc. rewrite Hc. by rewrite isclose_refl.
    + rewrite isclose_gap; [done|lia|]. by apply (sr_trace_gap n _ _ _ Hhh).
Qed.

Lemma nonzeros_zeros n : nonzeros (zeros n) = 0%nat.
Proof.
  induction n as [|n IH]; [done|]. unfold zeros in *. cbn [replicate].
  by rewrite nonzeros_cons, decide_True.
Qed.

Lemma nonzeros_unit_row n c s :
  (c < n)%nat → s ≠ 0 → nonzeros (unit_row n c s) = 1%nat.
Proof.
  revert c. induction n as [|n IH]; intros c Hc Hs; [lia|].
  destruct c as [|c]; unfold unit_row, zeros in *; cbn [replicate].
  - change (<[0%nat:=s]> (0 :: replicate n 0)) with (s :: replicate n 0).
    rewrite nonzeros_cons, decide_False by done. f_equal. apply nonzeros_zeros.
  - change (<[S c:=s]> (0 :: replicate n 0)) with (0 :: <[c:=s]> (replicate n 0)).
    rewrite nonzeros_cons, decide_True by done. apply IH; [lia|done].
Qed.

Lemma signed_rows_is_generalized_permutation n M f s :
  signed_rows n M f s → is_generalized_permutation M = true.
Proof.
  intros HM. pose proof (sr_square n M f s HM) as Hsq.
  pose proof (sr_length _ _ _ _ HM) as Hlen.
  unfold is_generalized_permutation. apply andb_true_iff. split.
  - apply forallb_forall. intros row Hin%list_elem_of_In%list_elem_of_lookup.
    destruct Hin as [i Hi].
    assert (i < n)%nat as Hlt by (apply lookup_lt_Some in Hi; lia).
    apply list_lookup_total_correct in Hi. subst row.
    rewrite (sr_row _ _ _ _ HM i Hlt), Hlen.
    pose proof (sr_range _ _ _ _ HM i Hlt) as Hr.
    rewrite !andb_true_iff. split; [split|].
    + apply Nat.eqb_eq, length_unit_row.
    + apply forallb_forall. intros x Hx%list_elem_of_In%list_elem_of_lookup.
      destruct Hx as [j Hj].
      assert (j < n)%nat as Hjn.
      { apply lookup_lt_Some in Hj. by rewrite length_unit_row in Hj. }
      apply list_lookup_total_correct in Hj. rewrite unit_row_lookup in Hj by done.
      apply is_sign_entry_spec. subst x.
      destruct (decide (j = f i)); [|auto].
      destruct (sr_sign _ _ _ _ HM i Hlt); auto.
    + apply Nat.eqb_eq, nonzeros_unit_row; [done|].
      destruct (sr_sign _ _ _ _ HM i Hlt); lia.
  - apply forallb_forall. intros j Hj%in_seq. rewrite Hlen in Hj.
    destruct (sr_surj _ _ _ _ HM j ltac:(lia)) as (i & Hi & Hfi).
    assert (column j M = unit_row n i (s i)) as ->.
    { apply vector_eq_total.
      - by rewrite column_length, length_unit_row.
      - rewrite column_length, Hlen. intros k Hk.
        rewrite (column_total n) by done.
        rewrite (sr_entry n M f s HM), unit_row_lookup by (done || lia).
        destruct (decide (k = i)) as [->|Hne].
        + by rewrite decide_True.
        + rewrite decide_False; [done|]. intros Heq. apply Hne.
          apply (sr_inj _ _ _ _ HM); congruence. }
    apply Nat.eqb_eq, nonzeros_unit_row; [done|].
    destruct (sr_sign _ _ _ _ HM i Hi); lia.
Qed.



Lemma reflect_first_rows n :
  signed_rows n (reflect_first n) (λ i, i) (λ i, if decide (i = 0%nat) then -1 else 1).
Proof.
  split.
  - unfold reflect_first. by rewrite length_map, length_seq.
  - intros i Hi. unfold reflect_first. by rewrite tabulate_lookup.
  - done.
  - done.
  - intros j Hj. by exists j.
  - intros i _. destruct (decide (i = 0%nat)); auto.
Qed.

Lemma reflect_first_trace n :
  (0 < n)%nat → trace (reflect_first n) = Z.of_nat n - 2.
Proof.
  intros Hn. rewrite (sr_trace n _ _ _ (reflect_first_rows n)).
  rewrite (bigsum_ext _ _ (λ i, 1 - (if decide (i = 0%nat) then 2 else 0))).
  - assert (∀ a b c : Z, a + b = c → a = c - b) as Hsub by (intros; lia).
    transitivity (bigsum n (λ _, 1) - bigsum n (λ k, if decide (k = 0%nat) then 2 else 0)).
    + apply Hsub. rewrite <- bigsum_add. apply bigsum_ext. intros k _. lia.
    + rewrite bigsum_const, (bigsum_single _ _ 0%nat), decide_True; [lia|done..|].
      intros k _ Hk. by rewrite decide_False.
  - intros i Hi. rewrite (sr_entry n _ _ _ (reflect_first_rows n)) by done.
    rewrite decide_True by done. destruct (decide (i = 0%nat)); lia.
Qed.

Lemma reflect_first_involution n :
  (0 < n)%nat →
  reflect_first n ≠ eye n ∧ matmul (reflect_first n) (reflect_first n) = eye n.
Proof.
  intros Hn. pose proof (reflect_first_rows n) as HR. split.
  - intros Heq. pose proof (proj1 (sr_eq_eye n _ _ _ HR) Heq 0%nat Hn) as H0.
    rewrite (sr_entry n _ _ _ HR) in H0 by done. by rewrite !decide_True in H0.
  - pose proof (signed_rows_matmul n _ _ _ _ _ _ HR HR) as HRR.
    apply (proj2 (sr_eq_eye n _ _ _ HRR)). intros i Hi.
    rewrite (sr_entry n _ _ _ HRR), decide_True by done.
    destruct (decide (i = 0%nat)); lia.
Qed.

Lemma c2_init_reflect_first n sp :
  Z.of_nat n = 200000 →
  C2.init {| issparse := sp; todense := reflect_first n |} = inl IdentityGenerator.
Proof.
  intros Hn. pose proof (reflect_first_rows n) as HR.
  destruct (sym_init_ok [{| issparse := sp; todense := reflect_first n |}])
    as (G & Hinit & _); [done| |apply stackable_single|].
  { constructor; [|constructor]. by apply (sr_column_norms n _ _ _ HR). }
  rewrite (c2_init_unfold _ G Hinit); cbn [todense].
  2:{ rewrite (square_ncols n) by apply (sr_square n _ _ _ HR).
      by rewrite (sr_length _ _ _ _ HR). }
  rewrite (sr_length _ _ _ _ HR), reflect_first_trace by lia.
  rewrite Hn. reflexivity.
Qed.

(** C5: at dimension 200000 the reflection of the first coordinate, stored
    sparsely, is a generalized permutation matrix, an involution that is not
    the identity; its trace is 199998, [np.isclose] takes it for 200000 at
    line 108, and [C2.__init__] fails with "generator must not be the
    identity". *)
Theorem c2_init_rejects_reflection_200000 :
  let d := Z.to_nat 200000 in
  let h := {| issparse := true; todense := reflect_first d |} in
  is_generalized_permutation (todense h) = true
  ∧ todense h ≠ eye d
  ∧ matmul (todense h) (todense h) = eye d
  ∧ C2.init h = inl IdentityGenerator.
Proof.
  intros d h.
  assert (Z.of_nat d = 200000) as Hd by (unfold d; lia).
  assert (0 < d)%nat as Hpos by lia.
  split; [|split; [|split]].
  - apply (signed_rows_is_generalized_permutation d _ _ _ (reflect_first_rows d)).
  - by apply reflect_first_involution.
  - by apply reflect_first_involution.
  - by apply c2_init_reflect_first.
Qed.

(** ** [Sym.oneline2matrix] *)

Lemma int8_small x : -128 ≤ x < 128 → int8 x = x.
Proof. intros Hx. unfold int8. rewrite Z.mod_small by lia. lia. Qed.

Lemma unique_length_le (l : vector) : (length (remove_dups l) ≤ length l)%nat.
Proof.
  induction l as [|x l IH]; [done|]. cbn [remove_dups].
  destruct (decide_rel elem_of x l); cbn [length]; lia.
Qed.

Lemma unique_length_NoDup (l : vector) :
  length (Sym.unique l) = length l ↔ NoDup l.
Proof.
  unfold Sym.unique. split.
  - intros Hlen. induction l as [|x l IH]; [constructor|].
    cbn [remove_dups] in Hlen. destruct (decide_rel elem_of x l) as [Hin|Hnin].
    + pose proof (unique_length_le l) as Hle. cbn [length] in Hlen. lia.
    + cbn [length] in Hlen. constructor; [done|]. apply IH. lia.
  - intros Hnd. induction Hnd as [|x l Hx _ IH]; [done|].
    cbn [remove_dups]. destruct (decide_rel elem_of x l); [done|].
    cbn [length]. by rewrite IH.
Qed.

Lemma coo_sum s (cols : list nat) (data : vector) i j :
  length data = length cols →
  sumZ (map (λ t, t.2)
         (filter (λ t, t.1 = (i, j)) (zip (zip (seq s (length cols)) cols) data)))
  = if decide ((s ≤ i < s + length cols)%nat ∧ cols !! (i - s)%nat = Some j)
    then default 0 (data !! (i - s)%nat) else 0.
Proof.
  revert s data. induction cols as [|c cols IH]; intros s data Hlen.
  - cbn. rewrite decide_False; [done|]. intros [? ?]. lia.
  - destruct data as [|x data]; [done|]. cbn [length] in Hlen.
    cbn [length seq zip zip_with]. rewrite filter_cons. cbn [fst snd].
    specialize (IH (S s) data ltac:(lia)).
    destruct (decide ((s, c) = (i, j))) as [[= <- <-]|Hne].
    + cbn [map]. rewrite sumZ_cons, IH.
      rewrite decide_False by (intros [? ?]; lia).
      rewrite decide_True; [|split; [lia|by rewrite Nat.sub_diag]].
      rewrite Nat.sub_diag. cbn. lia.
    + rewrite IH. destruct (decide (i = s)) as [->|Hi].
      * rewrite decide_False by (intros [? ?]; lia).
        rewrite decide_False; [done|]. intros [_ H]. rewrite Nat.sub_diag in H.
        cbn in H. congruence.
      * destruct (decide (s ≤ i)%nat) as [Hle|Hgt].
        -- replace (i - s)%nat with (S (i - S s)) by lia. cbn [lookup list_lookup].
           destruct (decide ((S s ≤ i < S s + length cols)%nat
                             ∧ cols !! (i - S s)%nat = Some j)) as [[H1 H2]|Hn].
           ++ rewrite decide_True; [done|]. split; [lia|done].
           ++ rewrite decide_False; [done|]. intros [H1 H2]. apply Hn.
              split; [lia|done].
        -- rewrite !decide_False; [done|intros [? ?]; lia|intros [? ?]; lia].
Qed.

Lemma coo_entries_rows d (data : vector) (cols : list nat) :
  length data = d → length cols = d →
  Sym.coo_entries d data (seq 0 d) cols
  = map (λ i, map (λ j, if decide (cols !!! i = j) then data !!! i else 0) (seq 0 d))
        (seq 0 d).
Proof.
  intros Hdata Hcols. unfold Sym.coo_entries.
  apply map_ext_in. intros i Hi%in_seq. apply map_ext_in. intros j Hj%in_seq.
  rewrite <- Hcols at 1. rewrite coo_sum by lia. rewrite Nat.sub_0_r.
  rewrite (list_lookup_lookup_total_lt cols i), (list_lookup_lookup_total_lt data i) by lia.
  cbn. destruct (decide (cols !!! i = j)) as [->|Hne].
  - by rewrite decide_True by (split; [lia|done]).
  - rewrite decide_False; [done|]. intros [_ [= H]]. done.
Qed.

Lemma oneline2matrix_unfold notation reflexions :
  Sym.oneline2matrix notation reflexions =
  let d := length notation in
  let signs := Sym.reflexions_or_ones d reflexions in
  if negb (d =? length (Sym.unique notation))%nat then inl NotAPermutation
  else if negb (length signs =? d)%nat then inl ReflexionsLength
  else if forallb (λ c, c <? d)%nat (map Z.abs_nat notation)
       then inr {| issparse := true;
                   todense := map (map int8)
                     (Sym.coo_entries d signs (seq 0 d) (map Z.abs_nat notation)) |}
       else inl ColumnIndexExceedsDimensions.
Proof. unfold Sym.oneline2matrix, Sym.reflexions_or_ones. by destruct reflexions as [[|]|]. Qed.

Lemma oneline2matrix_ok notation reflexions :
  let d := length notation in
  let signs := Sym.reflexions_or_ones d reflexions in
  NoDup notation → length signs = d →
  (∀ x, x ∈ notation → Z.abs x < Z.of_nat d) →
  Sym.oneline2matrix notation reflexions
  = inr {| issparse := true;
           todense := map (λ i, map (λ j,
                        if decide (j = Z.abs_nat (notation !!! i))
                        then int8 (signs !!! i) else 0) (seq 0 d)) (seq 0 d) |}.
Proof.
  intros d signs Hnd Hlen Hrange. rewrite oneline2matrix_unfold. cbv zeta.
  fold d signs.
  assert (length (Sym.unique notation) = d) as -> by (by apply unique_length_NoDup).
  rewrite Nat.eqb_refl. cbn [negb]. rewrite Hlen, Nat.eqb_refl. cbn [negb].
  assert (forallb (λ c, c <? d)%nat (map Z.abs_nat notation) = true) as ->.
  { apply forallb_forall. intros c Hc%list_elem_of_In.
    change (@map) with (@fmap list _) in Hc.
    apply list_elem_of_fmap in Hc as (x & -> & Hx).
    apply Nat.ltb_lt. specialize (Hrange x Hx). lia. }
  do 2 f_equal. rewrite coo_entries_rows by (done || by rewrite length_map).
  rewrite map_map. apply map_ext_in. intros i Hi%in_seq.
  rewrite map_map. apply map_ext_in. intros j Hj%in_seq.
  assert (map Z.abs_nat notation !!! i = Z.abs_nat (notation !!! i)) as ->.
  { apply list_lookup_total_correct. change (@map) with (@fmap list _).
    rewrite list_lookup_fmap, (list_lookup_lookup_total_lt notation i) by (fold d; lia).
    done. }
  destruct (decide (Z.abs_nat (notation !!! i) = j)) as [->|Hne].
  - by rewrite decide_True.
  - rewrite decide_False by done. reflexivity.
Qed.

(** C8: the notation [[1; -1; 0]] is not a permutation of [{0, 1, 2}], and
    neither are its absolute values.  [oneline2matrix] tests the uniqueness
    of the values as given (line 80) and takes their absolute values
    afterwards (line 85): the assertion passes, and the matrix returned has
    two entries in column 1 and none in column 2, so it is not a generalized
    permutation matrix. *)
Theorem oneline2matrix_accepts_colliding_notation :
  ¬ is_oneline_permutation [1; -1; 0]
  ∧ ¬ is_oneline_permutation (map Z.abs [1; -1; 0])
  ∧ sum_map id todense (Sym.oneline2matrix [1; -1; 0] None)
    = inr [[0;1;0];[0;1;0];[1;0;0]]
  ∧ is_generalized_permutation [[0;1;0];[0;1;0];[1;0;0]] = false.
Proof.
  split; [|split; [|split; vm_compute; reflexivity]].
  - intros H. unfold is_oneline_permutation in H.
    assert (-1 ∈ [1; -1; 0]) as Hin
      by apply list_elem_of_further, list_elem_of_here.
    rewrite H in Hin. vm_compute in Hin.
    repeat (apply elem_of_cons in Hin as [Hin|Hin]; [discriminate|]).
    by apply elem_of_nil in Hin.
  - intros H. unfold is_oneline_permutation in H.
    assert (2 ∈ arange (length (map Z.abs [1; -1; 0]))) as Hin
      by (vm_compute; do 2 apply list_elem_of_further; apply list_elem_of_here).
    rewrite <- H in Hin. vm_compute in Hin.
    repeat (apply elem_of_cons in Hin as [Hin|Hin]; [discriminate|]).
    by apply elem_of_nil in Hin.
Qed.

(** ** [Klein4.__init__] *)

Section Klein4Init.

Variables a b : generator.
Variable n : nat.
Hypothesis a_square : square n (todense a).
Hypothesis b_square : square n (todense b).
Hypothesis a_dense : issparse a = false.
Hypothesis b_dense : issparse b = false.

#[local] Abbreviation A := (todense a).
#[local] Abbreviation B := (todense b).
#[local] Abbreviation AB := (matmul (todense a) (todense b)).

Lemma klein4_init_unfold G :
  Sym.init [a; b] = inr G →
  Klein4.init [a; b] =
  if decide (matmul A A = eye n) then
    if decide (matmul B B = eye n) then
      if decide (matmul AB AB = eye n) then
        if decide (AB = eye n) then inl CompositionTrivial else inr G
      else inl CompositionNotCyclic
    else inl GeneratorBNotCyclic
  else inl GeneratorANotCyclic.
Proof.
  intros Hinit. unfold Klein4.init. cbn [length Nat.eqb negb]. rewrite Hinit.
  destruct (sym_init_inv _ G Hinit) as (_ & _ & -> & -> & _).
  cbn [head from_option id]. rewrite a_dense, b_dense.
  rewrite !(square_ncols n) by done.
  destruct a_square as [-> _]. destruct b_square as [-> _].
  rewrite Nat.eqb_refl. cbn [negb].
  pose proof (square_matmul n A A a_square a_square) as HAA.
  pose proof (square_matmul n B B b_square b_square) as HBB.
  pose proof (square_matmul n A B a_square b_square) as HAB.
  pose proof (square_matmul n AB AB HAB HAB) as HABAB.
  destruct (decide (matmul A A = eye n)) as [H1|H1].
  2:{ destruct (allclose (matmul A A) (eye n)) eqn:E; [|done].
      by apply (allclose_eye n _ HAA) in E. }
  rewrite (proj2 (allclose_eye n _ HAA) H1). cbn [negb].
  destruct (decide (matmul B B = eye n)) as [H2|H2].
  2:{ destruct (allclose (matmul B B) (eye n)) eqn:E; [|done].
      by apply (allclose_eye n _ HBB) in E. }
  rewrite (proj2 (allclose_eye n _ HBB) H2). cbn [negb].
  destruct (decide (matmul AB AB = eye n)) as [H3|H3].
  2:{ destruct (allclose (matmul AB AB) (eye n)) eqn:E; [|done].
      by apply (allclose_eye n _ HABAB) in E. }
  rewrite (proj2 (allclose_eye n _ HABAB) H3). cbn [negb].
  destruct (decide (AB = eye n)) as [H4|H4].
  - by rewrite (proj2 (allclose_eye n _ HAB) H4).
  - destruct (allclose AB (eye n)) eqn:E; [|done].
    by apply (allclose_eye n _ HAB) in E.
Qed.

Lemma klein4_init_accepts :
  (∃ G, Klein4.init [a; b] = inr G) ↔
  column_norms_ok A = true ∧ column_norms_ok B = true
  ∧ matmul A A = eye n ∧ matmul B B = eye n
  ∧ matmul AB AB = eye n ∧ AB ≠ eye n.
Proof.
  split.
  - intros [G HG].
    destruct (Sym.init [a; b]) as [e|G0] eqn:Hinit.
    { unfold Klein4.init in HG. cbn [length Nat.eqb negb] in HG.
      by rewrite Hinit in HG. }
    rewrite (klein4_init_unfold G0 Hinit) in HG.
    destruct (sym_init_inv _ G0 Hinit) as (_ & Hnorm & _).
    apply Forall_cons in Hnorm as [Ha Hnorm]. apply Forall_cons in Hnorm as [Hb _].
    repeat case_decide; try done.
  - intros (Ha & Hb & H1 & H2 & H3 & H4).
    destruct (sym_init_ok [a; b]) as (G & Hinit & _);
      [done|by repeat constructor| |].
    { apply (stackable_square n).
      apply Forall_cons_2; [done|]. apply Forall_cons_2; [done|].
      apply Forall_nil_2. }
    exists G. rewrite (klein4_init_unfold G Hinit).
    by rewrite !decide_True, decide_False by done.
Qed.

Lemma klein4_init_generators G :
  Klein4.init [a; b] = inr G →
  Sym.discrete_generators G = [a; b] ∧ Sym.d G = n.
Proof.
  intros HG. destruct (Sym.init [a; b]) as [e|G0] eqn:Hinit.
  { unfold Klein4.init in HG. cbn [length Nat.eqb negb] in HG.
    by rewrite Hinit in HG. }
  rewrite (klein4_init_unfold G0 Hinit) in HG.
  destruct (sym_init_inv _ G0 Hinit) as (_ & _ & Hg & Hd & _).
  cbn [head from_option id] in Hd. destruct a_square as [Hlen _].
  repeat case_decide; try done. simplify_eq. split; [done|]. congruence.
Qed.

Lemma klein4_distinct :
  matmul A A = eye n → matmul B B = eye n → AB ≠ eye n →
  A ≠ B ∧ (A ≠ eye n → AB ≠ B) ∧ (B ≠ eye n → AB ≠ A).
Proof.
  intros HAA HBB HAB. split; [|split].
  - intros Heq. apply HAB. rewrite <- Heq. exact HAA.
  - intros HA Heq. apply HA.
    rewrite <- (matmul_eye_r n A a_square), <- HBB.
    rewrite <- (matmul_assoc n) by done. by rewrite Heq.
  - intros HB Heq. apply HB.
    rewrite <- (matmul_eye_l n B b_square), <- HAA.
    rewrite (matmul_assoc n) by done. by rewrite Heq.
Qed.

End Klein4Init.

(** A sparse first generator: [Sym.__init__] passes, the product [a @ a] of
    line 209 is sparse, and [np.allclose] raises on it. *)
Lemma klein4_init_sparse a b n :
  square n (todense a) → square n (todense b) →
  column_norms_ok (todense a) = true → column_norms_ok (todense b) = true →
  issparse a = true →
  Klein4.init [a; b] = inl SparseOperand.
Proof.
  intros Ha Hb Hna Hnb Hsp.
  destruct (sym_init_ok [a; b]) as (G & Hinit & _);
    [done|by repeat constructor| |].
  { apply (stackable_square n).
    apply Forall_cons_2; [done|]. apply Forall_cons_2; [done|].
    apply Forall_nil_2. }
  unfold Klein4.init. cbn [length Nat.eqb negb]. rewrite Hinit.
  destruct (sym_init_inv _ G Hinit) as (_ & _ & -> & _).
  rewrite (square_ncols n) by done. destruct Ha as [-> _].
  rewrite Nat.eqb_refl, Hsp. done.
Qed.

(** Only dense pairs are accepted. *)
Lemma klein4_init_dense a b G :
  Klein4.init [a; b] = inr G → issparse a = false ∧ issparse b = false.
Proof.
  unfold Klein4.init. cbn [length Nat.eqb negb].
  destruct (Sym.init [a; b]) as [e|G0] eqn:Hinit; [done|].
  destruct (sym_init_inv _ G0 Hinit) as (_ & _ & -> & _).
  destruct (negb (ncols (todense a) =? length (todense a))%nat); [done|].
  destruct (issparse a); [done|].
  destruct (negb (allclose _ _)); [done|].
  destruct (negb (ncols (todense b) =? length (todense b))%nat); [done|].
  destruct (issparse b); [done|]. done.
Qed.

(** C6, as the code has it: [Klein4.__init__] accepts a pair [(a, b)] of
    dense square matrices exactly when their columns have norm 1, [a a = I],
    [b b = I], [(a b) (a b) = I] and [a b ≠ I]; that [a] and [b] differ from
    the identity is not among the tests (the assertion of line 208 is
    commented out).  For an accepted pair the actions are [I, a, b, a b],
    each is its own inverse, [a b ≠ I] and [a ≠ b], and the four are pairwise
    distinct exactly when neither [a] nor [b] is the identity. *)
Theorem klein4_init_contract a b n :
  square n (todense a) → square n (todense b) →
  issparse a = false → issparse b = false →
  let A := todense a in
  let B := todense b in
  let AB := matmul A B in
  ((∃ G, Klein4.init [a; b] = inr G) ↔
     column_norms_ok A = true ∧ column_norms_ok B = true
     ∧ matmul A A = eye n ∧ matmul B B = eye n
     ∧ matmul AB AB = eye n ∧ AB ≠ eye n)
  ∧ ∀ G, Klein4.init [a; b] = inr G →
      Klein4.discrete_actions G = [eye n; A; B; AB]
      ∧ Forall (λ X, matmul X X = eye n) (Klein4.discrete_actions G)
      ∧ AB ≠ eye n ∧ A ≠ B
      ∧ (NoDup (Klein4.discrete_actions G) ↔ A ≠ eye n ∧ B ≠ eye n).
Proof.
  intros Ha Hb Hda Hdb A B AB. split; [by apply klein4_init_accepts|].
  intros G HG.
  destruct (klein4_init_generators a b n Ha Hb Hda Hdb G HG) as [Hgens Hd].
  assert (∃ G, Klein4.init [a; b] = inr G) as Hex by (by exists G).
  apply (klein4_init_accepts a b n Ha Hb Hda Hdb) in Hex
    as (_ & _ & HAA & HBB & HABAB & HAB).
  destruct (klein4_distinct a b n Ha Hb HAA HBB HAB) as (Hne & HA & HB).
  assert (Klein4.discrete_actions G = [eye n; A; B; AB]) as Hact.
  { unfold Klein4.discrete_actions. by rewrite Hgens, Hd. }
  rewrite Hact. split; [done|]. split.
  { repeat constructor; try done. apply matmul_eye_l, square_eye. }
  split; [done|]. split; [done|].
  subst A B AB. rewrite !NoDup_cons, !elem_of_cons, !elem_of_nil. split.
  - intros (Hnin & _). split; intros Heq; apply Hnin; rewrite Heq; tauto.
  - intros [HAI HBI]. specialize (HA HAI). specialize (HB HBI).
    split_and!; try apply NoDup_nil_2; intuition congruence.
Qed.

Lemma klein4_init_contract_witness :
  let a := {| issparse := false; todense := [[0;1];[1;0]] |} in
  let b := {| issparse := false; todense := [[-1;0];[0;-1]] |} in
  let A := todense a in
  let B := todense b in
  let AB := matmul A B in
  ((∃ G, Klein4.init [a; b] = inr G) ↔
     column_norms_ok A = true ∧ column_norms_ok B = true
     ∧ matmul A A = eye 2 ∧ matmul B B = eye 2
     ∧ matmul AB AB = eye 2 ∧ AB ≠ eye 2)
  ∧ ∀ G, Klein4.init [a; b] = inr G →
      Klein4.discrete_actions G = [eye 2; A; B; AB]
      ∧ Forall (λ X, matmul X X = eye 2) (Klein4.discrete_actions G)
      ∧ AB ≠ eye 2 ∧ A ≠ B
      ∧ (NoDup (Klein4.discrete_actions G) ↔ A ≠ eye 2 ∧ B ≠ eye 2).
Proof.
  apply (klein4_init_contract
           {| issparse := false; todense := [[0;1];[1;0]] |}
           {| issparse := false; todense := [[-1;0];[0;-1]] |} 2);
    try reflexivity; (split; [reflexivity | repeat constructor]).
Defined.

(** C6: a pair whose first generator is the identity is accepted, and its
    four actions are not pairwise distinct. *)
Lemma klein4_init_accepts_identity_generator :
  let a := {| issparse := false; todense := [[1;0];[0;1]] |} in
  let b := {| issparse := false; todense := [[0;1];[1;0]] |} in
  todense a = eye 2
  ∧ ∃ G, Klein4.init [a; b] = inr G
         ∧ Klein4.discrete_actions G
           = [[[1;0];[0;1]]; [[1;0];[0;1]]; [[0;1];[1;0]]; [[0;1];[1;0]]]
         ∧ ¬ NoDup (Klein4.discrete_actions G).
Proof.
  intros a b. split; [reflexivity|].
  eexists. split; [vm_compute; reflexivity|].
  split; [vm_compute; reflexivity|].
  intros Hnd. vm_compute in Hnd. apply NoDup_cons in Hnd as [Hnin _].
  apply Hnin. left.
Qed.

(** ** One-line notations of signed permutations *)

Lemma oneline2matrix_signed_rows (p : vector) refl d f s :
  length p = d →
  (∀ i, (i < d)%nat → p !!! i = Z.of_nat (f i)) →
  length (Sym.reflexions_or_ones d refl) = d →
  (∀ i, (i < d)%nat → Sym.reflexions_or_ones d refl !!! i = s i) →
  (∀ i, (i < d)%nat → (f i < d)%nat) →
  (∀ i j, (i < d)%nat → (j < d)%nat → f i = f j → i = j) →
  (∀ j, (j < d)%nat → ∃ i, (i < d)%nat ∧ f i = j) →
  (∀ i, (i < d)%nat → s i = 1 ∨ s i = -1) →
  ∃ H, Sym.oneline2matrix p refl = inr H ∧ issparse H = true
       ∧ signed_rows d (todense H) f s.
Proof.
  intros Hlen Hp Hrl Hr Hrange Hinj Hsurj Hsign.
  assert (NoDup p) as Hnd.
  { apply NoDup_alt. intros i j x Hi Hj.
    assert (i < d)%nat by (apply lookup_lt_Some in Hi; lia).
    assert (j < d)%nat by (apply lookup_lt_Some in Hj; lia).
    apply list_lookup_total_correct in Hi, Hj.
    rewrite Hp in Hi, Hj by done. apply Hinj; [done..|]. lia. }
  assert (∀ x, x ∈ p → Z.abs x < Z.of_nat (length p)) as Hin.
  { intros x [i Hi]%list_elem_of_lookup.
    assert (i < d)%nat by (apply lookup_lt_Some in Hi; lia).
    apply list_lookup_total_correct in Hi. rewrite Hp in Hi by done.
    specialize (Hrange i ltac:(done)). lia. }
  eexists. split; [apply oneline2matrix_ok; [done|by rewrite Hlen|done]|].
  split; [done|]. cbn [todense]. rewrite Hlen. split; try done.
  - by rewrite length_map, length_seq.
  - intros i Hi. rewrite tabulate_lookup by done.
    apply vector_eq_total.
    { by rewrite length_map, length_seq, length_unit_row. }
    rewrite length_map, length_seq. intros j Hj.
    rewrite tabulate_lookup, unit_row_lookup by (done || by apply Hrange).
    rewrite Hp, Hr by done. rewrite Zabs2Nat.id.
    destruct (decide (j = f i)); [|done].
    apply int8_small. destruct (Hsign i Hi); lia.
Qed.

Lemma replicate_lookup_total {A} `{Inhabited A} (x : A) n i :
  (i < n)%nat → replicate n x !!! i = x.
Proof. apply lookup_total_replicate_2. Qed.

Lemma reflexions_ones_length d : length (Sym.reflexions_or_ones d None) = d.
Proof. cbn. apply length_replicate. Qed.

Lemma reflexions_some d (r : vector) :
  length r = d → Sym.reflexions_or_ones d (Some r) = r.
Proof. intros Hlen. destruct r; [|done]. cbn in *. by subst d. Qed.

(** [np.flip(np.arange(d))] *)
Lemma reversal_length d : length (reverse (arange d)) = d.
Proof. unfold arange. by rewrite length_reverse, length_map, length_seq. Qed.

Lemma reversal_lookup d i :
  (i < d)%nat → reverse (arange d) !!! i = Z.of_nat (d - 1 - i).
Proof.
  intros Hi. apply list_lookup_total_correct.
  assert (length (arange d) = d) as Hlen
    by (unfold arange; by rewrite length_map, length_seq).
  rewrite reverse_lookup by lia. rewrite Hlen.
  unfold arange. change (@map) with (@fmap list _).
  rewrite list_lookup_fmap, lookup_seq_lt by lia. cbn. do 2 f_equal. lia.
Qed.

(** ** [Klein4.canonical_group] *)

Lemma arange_length n : length (arange n) = n.
Proof. unfold arange. by rewrite length_map, length_seq. Qed.

Lemma array_split4_swap (l : vector) q :
  length l = (4 * q)%nat →
  let idx := Klein4.array_split4 l in
  (idx !!! 2%nat) ++ (idx !!! 3%nat) ++ (idx !!! 0%nat) ++ (idx !!! 1%nat)
  = drop (2 * q) l ++ take (2 * q) l.
Proof.
  intros Hlen. unfold Klein4.array_split4.
  assert (length l / 4 = q)%nat as ->.
  { rewrite Hlen, Nat.mul_comm. by apply Nat.div_mul. }
  cbv zeta. cbn [lookup_total list_lookup_total].
  rewrite app_assoc. f_equal.
  - replace (3 * q)%nat with (2 * q + q)%nat by lia.
    rewrite <- drop_drop. apply take_drop.
  - rewrite <- (take_drop q (take (2 * q) l)). f_equal.
    + rewrite take_take. f_equal. lia.
    + rewrite skipn_firstn_comm. f_equal. lia.
Qed.

Lemma half_swap_lookup q i :
  (i < 4 * q)%nat →
  (drop (2 * q) (arange (4 * q)) ++ take (2 * q) (arange (4 * q))) !!! i
  = Z.of_nat (if decide (i < 2 * q)%nat then i + 2 * q else i - 2 * q)%nat.
Proof.
  intros Hi. apply list_lookup_total_correct.
  assert (length (drop (2 * q) (arange (4 * q))) = (2 * q)%nat) as Hlen.
  { rewrite length_drop, arange_length. lia. }
  destruct (decide (i < 2 * q)%nat).
  - rewrite lookup_app_l by lia. rewrite lookup_drop.
    unfold arange. change (@map) with (@fmap list _).
    rewrite list_lookup_fmap, lookup_seq_lt by lia. cbn. do 2 f_equal. lia.
  - rewrite lookup_app_r by lia. rewrite Hlen, lookup_take_lt by lia.
    unfold arange. change (@map) with (@fmap list _).
    rewrite list_lookup_fmap, lookup_seq_lt by lia. done.
Qed.

Lemma klein4_canonical_unfold d q :
  Z.to_nat d = (4 * q)%nat → (0 < q)%nat →
  Klein4.canonical_group d =
  match Sym.oneline2matrix (reverse (arange (4 * q))) None with
  | inl e => inl e
  | inr rep_a =>
      match Sym.oneline2matrix
              (drop (2 * q) (arange (4 * q)) ++ take (2 * q) (arange (4 * q)))
              (Some (replicate (4 * q) 1)) with
      | inl e => inl e
      | inr rep_b => Klein4.init [rep_a; rep_b]
      end
  end.
Proof.
  intros Hd Hq. unfold Klein4.canonical_group.
  assert ((0 <? d) = true) as -> by (apply Z.ltb_lt; lia). cbn [negb].
  assert (d mod 4 = 0) as ->.
  { replace d with (Z.of_nat q * 4) by lia. apply Z.mod_mul. lia. }
  cbn [Z.ltb Z.compare]. rewrite Z.sub_0_r, Hd.
  by rewrite (array_split4_swap _ q) by apply arange_length.
Qed.

Section Klein4Canonical.

Variable q : nat.
Hypothesis q_pos : (0 < q)%nat.

#[local] Abbreviation n := (4 * q)%nat.

Lemma reversal_matrix :
  ∃ A, Sym.oneline2matrix (reverse (arange n)) None = inr A
       ∧ issparse A = true
       ∧ signed_rows n (todense A) (reversal n) (λ _, 1).
Proof.
  destruct (oneline2matrix_signed_rows (reverse (arange n)) None n (reversal n) (λ _, 1))
    as (A & HA & Hsp & Hrows); unfold reversal; try (intros; lia); try by eauto.
  - apply reversal_length.
  - intros i Hi. by apply reversal_lookup.
  - apply reflexions_ones_length.
  - intros i Hi. cbn. by apply lookup_total_replicate_2.
  - intros j Hj. exists (n - 1 - j)%nat. lia.
Qed.

Lemma half_swap_matrix :
  ∃ B, Sym.oneline2matrix (drop (2 * q) (arange n) ++ take (2 * q) (arange n))
         (Some (replicate n 1)) = inr B
       ∧ issparse B = true
       ∧ signed_rows n (todense B) (half_swap q) (λ _, 1).
Proof.
  assert (Sym.reflexions_or_ones n (Some (replicate n 1)) = replicate n 1) as Hr.
  { apply reflexions_some, length_replicate. }
  destruct (oneline2matrix_signed_rows
              (drop (2 * q) (arange n) ++ take (2 * q) (arange n))
              (Some (replicate n 1)) n (half_swap q) (λ _, 1))
    as (B & HB & Hsp & Hrows); unfold half_swap; try by eauto.
  - rewrite length_app, length_drop, length_take, arange_length. lia.
  - intros i Hi. by apply half_swap_lookup.
  - rewrite Hr. apply length_replicate.
  - intros i Hi. rewrite Hr. by apply lookup_total_replicate_2.
  - intros i Hi. destruct (decide (i < 2 * q)%nat); lia.
  - intros i j Hi Hj. repeat case_decide; lia.
  - intros j Hj. exists (if decide (j < 2 * q)%nat then j + 2 * q else j - 2 * q)%nat.
    repeat case_decide; lia.
Qed.

Lemma signed_rows_trace_zero M f s :
  signed_rows n M f s → (∀ i, (i < n)%nat → f i ≠ i) → trace M = 0.
Proof.
  intros HM Hf. rewrite (sr_trace n M f s HM). apply bigsum_zero.
  intros i Hi. rewrite (sr_entry n M f s HM) by done.
  rewrite decide_False; [done|]. intros Heq. by apply (Hf i).
Qed.

Lemma signed_rows_eye_iff M f s :
  signed_rows n M f s → (∀ i, (i < n)%nat → s i = 1) →
  M = eye n ↔ ∀ i, (i < n)%nat → f i = i.
Proof.
  intros HM Hs. rewrite (sr_eq_eye n M f s HM). split; intros H i Hi.
  - specialize (H i Hi). rewrite (sr_entry n M f s HM) in H by done.
    destruct (decide (i = f i)); [done|lia].
  - rewrite (sr_entry n M f s HM), decide_True by (done || by rewrite H).
    by apply Hs.
Qed.

Lemma klein4_canonical_sparse d :
  Z.to_nat d = n → Klein4.canonical_group d = inl SparseOperand.
Proof.
  intros Hd. rewrite (klein4_canonical_unfold d q Hd q_pos).
  destruct reversal_matrix as (A & -> & HspA & HA).
  destruct half_swap_matrix as (B & -> & _ & HB).
  apply (klein4_init_sparse A B n).
  - apply (sr_square n _ _ _ HA).
  - apply (sr_square n _ _ _ HB).
  - apply (sr_column_norms n _ _ _ HA).
  - apply (sr_column_norms n _ _ _ HB).
  - exact HspA.
Qed.

End Klein4Canonical.

(** C7: [Klein4.canonical_group d] fails its assertion when [d ≤ 0] and
    raises [NotImplementedError] when [d > 0] and [d mod 4 ≠ 0].  When
    [d > 0] and [d mod 4 = 0] the two generators are the sparse matrices of
    [oneline2matrix]; [Klein4.__init__] hands the sparse product [a @ a] to
    [np.allclose] at line 209, which raises.  So no [d] yields a group. *)
Theorem klein4_canonical_group_raises d :
  Klein4.canonical_group d
  = (if decide (d ≤ 0) then inl DimensionNotPositive
     else if decide (d mod 4 = 0) then inl SparseOperand
     else inl NotImplemented)
  ∧ ∀ G, Klein4.canonical_group d ≠ inr G.
Proof.
  assert (Klein4.canonical_group d
          = (if decide (d ≤ 0) then inl DimensionNotPositive
             else if decide (d mod 4 = 0) then inl SparseOperand
             else inl NotImplemented)) as Heq.
  { destruct (decide (d ≤ 0)) as [Hd|Hd].
    - unfold Klein4.canonical_group.
      by assert ((0 <? d) = false) as -> by (apply Z.ltb_ge; lia).
    - destruct (decide (d mod 4 = 0)) as [Hmod|Hmod].
      + apply (klein4_canonical_sparse (Z.to_nat (d / 4))).
        * apply Z.div_exact in Hmod; lia.
        * apply Z.div_exact in Hmod; lia.
      + unfold Klein4.canonical_group.
        assert ((0 <? d) = true) as -> by (apply Z.ltb_lt; lia). cbn [negb].
        assert ((0 <? d mod 4) = true) as ->; [|done].
        apply Z.ltb_lt. pose proof (Z.mod_pos_bound d 4). lia. }
  split; [done|]. intros G. rewrite Heq. repeat case_decide; done.
Qed.

(** ** Counting with sums *)

Lemma filter_count_bigsum (Q : nat → Prop) `{∀ i, Decision (Q i)} n :
  Z.of_nat (length (filter Q (seq 0 n))) = bigsum n (λ i, if decide (Q i) then 1 else 0).
Proof.
  induction n as [|n IH]; [done|].
  rewrite seq_S, filter_app, length_app, bigsum_S, Nat2Z.inj_add, IH.
  f_equal. cbn [Nat.add]. rewrite filter_cons, filter_nil.
  by destruct (decide (Q n)).
Qed.

Lemma bigsum_below n m :
  (m ≤ n)%nat → bigsum n (λ i, if decide (i < m)%nat then 1 else 0) = Z.of_nat m.
Proof.
  induction n as [|n IH]; intros Hm.
  - assert (m = 0%nat) as -> by lia. done.
  - rewrite bigsum_S. destruct (decide (m = S n)) as [->|Hne].
    + rewrite decide_True by lia.
      rewrite (bigsum_ext _ _ (λ _, 1)), bigsum_const; [lia|].
      intros i Hi. by rewrite decide_True by lia.
    + rewrite decide_False by lia. rewrite IH by lia. lia.
Qed.

Lemma bigsum_from n m :
  (m ≤ n)%nat →
  bigsum n (λ i, if decide (m ≤ i)%nat then 1 else 0) = Z.of_nat (n - m).
Proof.
  induction n as [|n IH]; intros Hm.
  - done.
  - rewrite bigsum_S. destruct (decide (m = S n)) as [->|Hne].
    + rewrite decide_False by lia.
      rewrite bigsum_zero; [lia|]. intros i Hi. by rewrite decide_False by lia.
    + rewrite decide_True by lia. rewrite IH by lia. lia.
Qed.

Lemma bigsum_at n c :
  (c < n)%nat → bigsum n (λ i, if decide (i = c) then 1 else 0) = 1.
Proof.
  intros Hc. rewrite (bigsum_single _ _ c), decide_True; try done.
  intros i _ Hi. by rewrite decide_False.
Qed.

(** ** The permutation built by [C2.canonical_group] *)

Lemma fixed_ends_length n d :
  (2 * n ≤ d)%nat → length (fixed_ends n (reverse (arange d))) = d.
Proof.
  intros Hn. unfold fixed_ends, C2.set_last_n, C2.set_first_n, C2.last_n, C2.first_n.
  rewrite !length_app, !length_take, !length_reverse, !length_app, !length_reverse,
    !length_drop, !length_take, ?reversal_length, ?arange_length. lia.
Qed.

Lemma fixed_ends_lookup n d i :
  (2 * n ≤ d)%nat → (i < d)%nat →
  fixed_ends n (reverse (arange d)) !!! i
  = Z.of_nat (if decide (i < n ∨ d - n ≤ i)%nat then i else d - 1 - i).
Proof.
  intros Hn Hi. apply list_lookup_total_correct.
  unfold fixed_ends, C2.set_last_n, C2.set_first_n, C2.last_n, C2.first_n.
  set (p := reverse (arange d)).
  assert (length p = d) as Hp by apply reversal_length.
  assert (length (reverse (drop (length p - n) p) ++ drop n p) = d) as Hlen1.
  { rewrite length_app, length_reverse, !length_drop. lia. }
  rewrite Hlen1.
  destruct (decide (d - n ≤ i)%nat) as [Hge|Hlt].
  - (* the last [n] positions *)
    rewrite lookup_app_r by (rewrite length_take; lia).
    rewrite length_take, Hlen1, Nat.min_l by lia.
    rewrite reverse_lookup by (rewrite length_take; lia).
    rewrite length_take, Hp, Nat.min_l by lia.
    rewrite lookup_take_lt by lia.
    rewrite decide_True by lia.
    rewrite (list_lookup_lookup_total_lt p) by lia.
    unfold p. rewrite reversal_lookup by lia. do 2 f_equal. lia.
  - rewrite lookup_app_l by (rewrite length_take; lia).
    rewrite lookup_take_lt by lia.
    destruct (decide (i < n)%nat) as [Hin|Hnin].
    + (* the first [n] positions *)
      rewrite lookup_app_l by (rewrite length_reverse, length_drop; lia).
      rewrite reverse_lookup by (rewrite length_drop; lia).
      rewrite length_drop, lookup_drop, Hp.
      rewrite decide_True by lia.
      rewrite (list_lookup_lookup_total_lt p) by lia.
      unfold p. rewrite reversal_lookup by lia. do 2 f_equal. lia.
    + rewrite lookup_app_r by (rewrite length_reverse, length_drop; lia).
      rewrite length_reverse, length_drop, lookup_drop, Hp.
      rewrite decide_False by lia.
      rewrite (list_lookup_lookup_total_lt p) by lia.
      unfold p. rewrite reversal_lookup by lia. do 2 f_equal. lia.
Qed.

(** ** [C2.canonical_group] *)

Lemma canonical_group_unfold d inv_dims :
  0 < d → inv_dims < d - 1 →
  C2.canonical_group d inv_dims =
  if 0 <? d mod 2 then
    if inv_dims mod 2 =? 0 then canonical_finish d (inv_dims / 2) true inv_dims
    else canonical_finish d ((inv_dims - 1) / 2) false inv_dims
  else
    if 0 <? inv_dims mod 2
    then canonical_finish d ((inv_dims + 1) / 2) false (inv_dims + 1)
    else canonical_finish d (inv_dims / 2) false inv_dims.
Proof.
  intros Hd Hinv. unfold C2.canonical_group, canonical_finish, fixed_ends.
  assert ((0 <? d) = true) as -> by (by apply Z.ltb_lt).
  assert ((inv_dims <? d - 1) = true) as -> by (by apply Z.ltb_lt).
  cbn [negb]. rewrite reversal_length.
  destruct (0 <? d mod 2); [destruct (inv_dims mod 2 =? 0)|destruct (0 <? inv_dims mod 2)];
    reflexivity.
Qed.

Section CanonicalGenerator.

Variables d n : nat.
Variable flip : bool.
Hypothesis room : (2 * n + 2 ≤ d)%nat.
Hypothesis flip_odd : flip = true → (d mod 2 = 1)%nat.

Lemma canonical_matrix (dz nz : Z) :
  Z.to_nat dz = d → 0 < dz → Z.to_nat nz = n → 0 ≤ nz →
  let p := reverse (arange (Z.to_nat dz)) in
  let r := if flip
           then alter (λ x, x * -1) (Z.to_nat (dz / 2)) (replicate (Z.to_nat dz) 1)
           else replicate (Z.to_nat dz) 1 in
  let p := if 0 <? nz then fixed_ends (Z.to_nat nz) p else p in
  ∃ H, Sym.oneline2matrix p (Some r) = inr H
       ∧ signed_rows d (todense H) (canonical_perm d n) (canonical_sign d flip).
Proof.
  intros Hd Hdz Hn Hnz. cbv zeta. rewrite Hd, Hn.
  assert (Z.to_nat (dz / 2) = d / 2)%nat as ->.
  { rewrite <- Hd. rewrite Z2Nat.inj_div by lia. done. }
  set (r := if flip then alter (λ x, x * -1) (d / 2)%nat (replicate d 1)
            else replicate d 1).
  assert (length r = d) as Hr.
  { unfold r. destruct flip; by rewrite ?length_alter, length_replicate. }
  assert (d / 2 < d)%nat as Hmid by (apply Nat.div_lt; lia).
  destruct (oneline2matrix_signed_rows
              (if 0 <? nz then fixed_ends n (reverse (arange d)) else reverse (arange d))
              (Some r) d (canonical_perm d n) (canonical_sign d flip))
    as (H & HH & _ & Hrows).
  - destruct (0 <? nz); [apply fixed_ends_length; lia|apply reversal_length].
  - intros i Hi. unfold canonical_perm.
    destruct (0 <? nz) eqn:E.
    + apply fixed_ends_lookup; lia.
    + apply Z.ltb_ge in E. rewrite reversal_lookup by done.
      rewrite decide_False by lia. done.
  - by rewrite reflexions_some.
  - intros i Hi. rewrite reflexions_some by done. unfold r, canonical_sign.
    destruct flip; cbn [andb].
    + apply list_lookup_total_correct. rewrite list_lookup_alter.
      destruct (decide (d / 2 = i)%nat) as [->|Hne].
      * rewrite bool_decide_eq_true_2 by done.
        rewrite lookup_replicate_2 by done. done.
      * rewrite bool_decide_eq_false_2 by done.
        by rewrite lookup_replicate_2.
    + by apply lookup_total_replicate_2.
  - intros i Hi. unfold canonical_perm. case_decide; lia.
  - intros i j Hi Hj. unfold canonical_perm. repeat case_decide; lia.
  - intros j Hj. exists (canonical_perm d n j). unfold canonical_perm.
    repeat case_decide; lia.
  - intros i Hi. unfold canonical_sign. destruct (flip && _); auto.
  - exists H. done.
Qed.

Lemma canonical_perm_mid :
  (d mod 2 = 1)%nat → canonical_perm d n (d / 2) = (d / 2)%nat.
Proof.
  clear flip_odd. intros Hodd. unfold canonical_perm. case_decide; [done|].
  pose proof (Nat.div_mod_eq d 2). lia.
Qed.

Section Matrix.

Variable H : matrix.
Hypothesis H_rows : signed_rows d H (canonical_perm d n) (canonical_sign d flip).

Lemma canonical_not_eye : H ≠ eye d.
Proof.
  intros Heq. pose proof (proj1 (sr_eq_eye d _ _ _ H_rows) Heq n ltac:(lia)) as Hn.
  rewrite (sr_entry d _ _ _ H_rows) in Hn by lia.
  unfold canonical_perm in Hn. rewrite (decide_False (P:=(n < n ∨ d - n ≤ n)%nat)) in Hn by lia.
  rewrite decide_False in Hn by lia. done.
Qed.

Lemma canonical_involution : matmul H H = eye d.
Proof.
  pose proof (signed_rows_matmul d _ _ _ _ _ _ H_rows H_rows) as HHH.
  apply (proj2 (sr_eq_eye d _ _ _ HHH)). intros i Hi.
  rewrite (sr_entry d _ _ _ HHH) by done.
  assert (canonical_perm d n (canonical_perm d n i) = i) as Hinv.
  { unfold canonical_perm. repeat case_decide; lia. }
  rewrite decide_True by done.
  unfold canonical_sign.
  destruct (decide (flip = true)) as [Hf|Hf];
    [|apply not_true_is_false in Hf; rewrite Hf; done].
  pose proof (flip_odd Hf) as Hodd. rewrite Hf. cbn [andb].
  destruct (decide (i = d / 2)%nat) as [->|Hne].
  - rewrite canonical_perm_mid by done. rewrite bool_decide_eq_true_2 by done. done.
  - rewrite (bool_decide_eq_false_2 (i = d / 2)%nat) by done.
    rewrite bool_decide_eq_false_2; [done|]. intros Heq. apply Hne.
    rewrite <- Hinv, Heq. by apply canonical_perm_mid.
Qed.

(** The diagonal entries equal to 1: the [2 n] positions at the ends, and
    the middle one when [d] is odd and its sign was kept. *)
Lemma canonical_diagonal i :
  (i < d)%nat →
  (if decide (entry H i i = 1) then 1 else 0)
  = (if decide (i < n)%nat then 1 else 0) + (if decide (d - n ≤ i)%nat then 1 else 0)
    + (if decide (i = d / 2 ∧ d mod 2 = 1 ∧ flip = false)%nat then 1 else 0).
Proof.
  intros Hi. rewrite (sr_entry d _ _ _ H_rows) by done.
  pose proof (Nat.div_mod_eq d 2) as Hdiv.
  pose proof (Nat.mod_upper_bound d 2 ltac:(lia)) as Hmod.
  unfold canonical_perm, canonical_sign.
  assert ((i < n ∨ d - n ≤ i) ∨ ¬ (i < n ∨ d - n ≤ i))%nat as [Hends|Hmiddle] by lia.
  - rewrite (decide_True (P:=(i < n ∨ d - n ≤ i)%nat)) by done.
    rewrite (decide_True (P:=(i = i)%nat)) by done.
    assert (i ≠ d / 2)%nat as Hne by lia.
    rewrite (bool_decide_eq_false_2 (i = d / 2)%nat) by done.
    rewrite andb_false_r, (decide_True (P:=(1 = 1))) by done.
    rewrite (decide_False (P:=(i = d / 2 ∧ d mod 2 = 1 ∧ flip = false)%nat)) by tauto.
    repeat case_decide; lia.
  - rewrite (decide_False (P:=(i < n ∨ d - n ≤ i)%nat)) by done.
    rewrite (decide_False (P:=(i < n)%nat)), (decide_False (P:=(d - n ≤ i)%nat)) by lia.
    assert (i = d - 1 - i ∨ i ≠ d - 1 - i)%nat as [Hfix|Hmove] by lia.
    + assert (i = d / 2 ∧ d mod 2 = 1)%nat as [Hmid Hodd] by lia.
      rewrite (bool_decide_eq_true_2 (i = d / 2)%nat) by done.
      destruct (decide (flip = true)) as [Hf|Hf].
      * rewrite Hf. cbn [andb]. rewrite (decide_True (P:=(i = d - 1 - i)%nat)) by done.
        rewrite (decide_False (P:=(-1 = 1))) by done.
        rewrite decide_False; [done|]. intros (_ & _ & ?). congruence.
      * apply not_true_is_false in Hf. rewrite Hf. cbn [andb].
        rewrite (decide_True (P:=(i = d - 1 - i)%nat)) by done.
        rewrite (decide_True (P:=(1 = 1))) by done. by rewrite decide_True.
    + rewrite (decide_False (P:=(i = d - 1 - i)%nat)) by done.
      rewrite (decide_False (P:=(0 = 1))) by done.
      rewrite decide_False; [done|]. intros (Hmid & Hodd & _). lia.
Qed.

Lemma canonical_count :
  bigsum d (λ i, if decide (entry H i i = 1) then 1 else 0)
  = 2 * Z.of_nat n + (if decide (d mod 2 = 1 ∧ flip = false)%nat then 1 else 0).
Proof.
  rewrite (bigsum_ext _ _ _ canonical_diagonal).
  rewrite !bigsum_add, bigsum_below, bigsum_from by lia.
  assert (d / 2 < d)%nat as Hmid by (apply Nat.div_lt; lia).
  destruct (decide (d mod 2 = 1 ∧ flip = false)%nat) as [[Hodd Hflip]|Hno].
  - rewrite (bigsum_ext _ _ (λ i, if decide (i = d / 2)%nat then 1 else 0)).
    + rewrite bigsum_at by done. lia.
    + intros i _. repeat case_decide; try done; tauto.
  - rewrite bigsum_zero; [lia|]. intros i _. rewrite decide_False; [done|tauto].
Qed.

End Matrix.

End CanonicalGenerator.

Lemma single_generator_inv_dims h G d :
  Sym.init [h] = inr G → square d (todense h) →
  Sym.d G = d
  ∧ Z.of_nat (Sym.n_inv_dims G)
    = bigsum d (λ i, if decide (entry (todense h) i i = 1) then 1 else 0).
Proof.
  intros Hinit Hsq.
  destruct (sym_init_inv [h] G Hinit) as (_ & _ & _ & Hd & _ & Hn).
  cbn [head from_option id] in Hd. destruct Hsq as [Hlen Hrows].
  assert (Sym.d G = d) as HdG by congruence. split; [done|].
  assert (Forall (λ h, square (Sym.d G) (todense h)) [h]) as Hall.
  { rewrite HdG. by repeat constructor. }
  rewrite Hn, (sym_inv_dims [h] G Hinit Hall), count_untiled, HdG.
  rewrite <- filter_count_bigsum. do 2 f_equal.
  apply filter_ext_Forall, Forall_forall. intros i _.
  rewrite Forall_cons, Forall_nil. tauto.
Qed.

Lemma canonical_finish_general (d n : Z) (flip : bool) (inv_dims : Z) :
  0 ≤ n → 2 * n + 2 ≤ d →
  (flip = true → d mod 2 = 1) →
  inv_dims = 2 * n + (if decide (d mod 2 = 1 ∧ flip = false) then 1 else 0) →
  ∃ H G, Sym.init [H] = inr G
    ∧ signed_rows (Z.to_nat d) (todense H)
        (canonical_perm (Z.to_nat d) (Z.to_nat n)) (canonical_sign (Z.to_nat d) flip)
    ∧ todense H ≠ eye (Z.to_nat d)
    ∧ matmul (todense H) (todense H) = eye (Z.to_nat d)
    ∧ Z.of_nat (Sym.n_inv_dims G) = inv_dims
    ∧ (flip = false → trace (todense H) = inv_dims)
    ∧ canonical_finish d n flip inv_dims
      = if isclose (trace (todense H)) d then inl IdentityGenerator else inr G.
Proof.
  intros Hn Hroom Hflip Hinv.
  assert (2 * Z.to_nat n + 2 ≤ Z.to_nat d)%nat as Hroom' by lia.
  assert (flip = true → (Z.to_nat d mod 2 = 1)%nat) as Hflip'.
  { intros Hf. specialize (Hflip Hf).
    rewrite <- (Nat2Z.id 2) at 1. rewrite <- Z2Nat.inj_mod by lia. lia. }
  assert ((Z.to_nat d mod 2 = 1)%nat ↔ d mod 2 = 1) as Hodd.
  { rewrite <- (Nat2Z.id 2) at 1. rewrite <- Z2Nat.inj_mod by lia. lia. }
  destruct (canonical_matrix (Z.to_nat d) (Z.to_nat n) flip Hroom' Hflip' d n)
    as (H & HH & Hrows); [done|lia|done|done|].
  cbv zeta in HH.
  pose proof (sr_square _ _ _ _ Hrows) as Hsq.
  pose proof (canonical_not_eye _ _ flip Hroom' Hflip' _ Hrows) as Hne.
  pose proof (canonical_involution _ _ flip Hroom' Hflip' _ Hrows) as Hinvol.
  destruct (sym_init_ok [H]) as (G & Hinit & _); [done| |apply stackable_single|].
  { repeat constructor. by apply (sr_column_norms _ _ _ _ Hrows). }
  destruct (single_generator_inv_dims H G _ Hinit Hsq) as [HdG Hcount].
  rewrite (canonical_count _ _ flip Hroom' Hflip' _ Hrows) in Hcount.
  assert (Z.of_nat (Sym.n_inv_dims G) = inv_dims) as Hninv.
  { rewrite Hcount, Hinv, Z2Nat.id by lia.
    destruct (decide (d mod 2 = 1 ∧ flip = false)) as [[? ?]|Hno].
    - rewrite decide_True; [done|]. split; [by apply Hodd|done].
    - rewrite decide_False; [done|]. intros [? ?]. apply Hno. split; [by apply Hodd|done]. }
  exists H, G. split; [done|]. split; [done|]. split; [done|]. split; [done|].
  split; [done|]. split.
  - intros Hf. rewrite <- Hninv, Hcount.
    rewrite <- (canonical_count _ _ flip Hroom' Hflip' _ Hrows).
    rewrite (sr_trace _ _ _ _ Hrows). apply bigsum_ext. intros i Hi.
    rewrite (sr_entry _ _ _ _ Hrows) by done.
    unfold canonical_sign. rewrite Hf. cbn [andb].
    repeat case_decide; lia.
  - unfold canonical_finish. rewrite HH, (c2_init_unfold H G Hinit).
    2:{ rewrite (square_ncols _ _ Hsq). by rewrite (sr_length _ _ _ _ Hrows). }
    rewrite (sr_length _ _ _ _ Hrows).
    rewrite (proj2 (sr_trace_eq _ _ _ _ (signed_rows_matmul _ _ _ _ _ _ _ Hrows Hrows))
               Hinvol).
    rewrite Z2Nat.id by lia. rewrite isclose_refl. cbn [negb].
    destruct (isclose (trace (todense H)) d); [done|].
    by rewrite Hninv, Z.eqb_refl.
Qed.

Lemma canonical_finish_ok (d n : Z) (flip : bool) (inv_dims : Z) :
  0 ≤ n → 2 * n + 2 ≤ d → d < 200000 →
  (flip = true → d mod 2 = 1) →
  inv_dims = 2 * n + (if decide (d mod 2 = 1 ∧ flip = false) then 1 else 0) →
  ∃ G, canonical_finish d n flip inv_dims = inr G
       ∧ Z.of_nat (Sym.n_inv_dims G) = inv_dims
       ∧ Sym.d G = Z.to_nat d
       ∧ ∃ H, Sym.discrete_generators G = [H]
              ∧ is_generalized_permutation (todense H) = true
              ∧ todense H ≠ eye (Z.to_nat d)
              ∧ matmul (todense H) (todense H) = eye (Z.to_nat d).
Proof.
  intros Hn Hroom Hd Hflip Hinv.
  destruct (canonical_finish_general d n flip inv_dims Hn Hroom Hflip Hinv)
    as (H & G & Hinit & Hrows & Hne & Hinvol & Hcount & _ & Heq).
  exists G. rewrite Heq.
  rewrite isclose_gap; [|lia|].
  2:{ pose proof (sr_trace_gap _ _ _ _ Hrows Hne). lia. }
  split; [done|]. split; [done|].
  destruct (sym_init_inv [H] G Hinit) as (_ & _ & Hgens & HdG & _).
  cbn [head from_option id] in HdG. rewrite (sr_length _ _ _ _ Hrows) in HdG.
  split; [done|]. exists H. split; [done|]. split; [|done].
  by apply (signed_rows_is_generalized_permutation _ _ _ _ Hrows).
Qed.

(** A negative request passes the two preconditions and is refused by the
    final assertion. *)
Example c2_canonical_negative_request :
  C2.canonical_group 3 (-2) = inl (InvDimsMismatch 0).
Proof. vm_compute. reflexivity. Qed.

(** C4: the dimension 200000 and the request 199998 meet the two
    preconditions.  The generator built has trace 199998, [np.isclose] takes
    it for 200000 at line 108, and [C2.canonical_group] fails with
    "generator must not be the identity" instead of returning a group with
    199998 invariant dimensions. *)
Theorem c2_canonical_group_200000 :
  0 < 200000 ∧ 0 ≤ 199998 < 200000 - 1
  ∧ C2.canonical_group 200000 199998 = inl IdentityGenerator.
Proof.
  split; [lia|]. split; [lia|].
  rewrite canonical_group_unfold by lia.
  change (0 <? 200000 mod 2) with false. change (0 <? 199998 mod 2) with false.
  cbv iota.
  destruct (canonical_finish_general 200000 (199998 / 2) false 199998)
    as (H & G & _ & _ & _ & _ & _ & Htrace & ->); try done.
  rewrite Htrace by done. reflexivity.
Qed.

(** * Part III: further properties of the code *)

(** ** Fixed points are combinations of the basis *)

Lemma sumZ_map_zero {A} (f : A → Z) (l : list A) :
  (∀ c, c ∈ l → f c = 0) → sumZ (map f l) = 0.
Proof.
  induction l as [|c l IH]; intros H; [done|].
  cbn [map]. rewrite sumZ_cons, (H c) by left.
  rewrite IH; [done|]. intros c' Hc'. apply H. by right.
Qed.

Lemma sumZ_map_single {A} (f : A → Z) (l : list A) c0 :
  NoDup l → c0 ∈ l → (∀ c, c ∈ l → c ≠ c0 → f c = 0) →
  sumZ (map f l) = f c0.
Proof.
  induction l as [|c l IH]; intros Hnd Hin H.
  - by apply elem_of_nil in Hin.
  - apply NoDup_cons in Hnd as [Hnin Hnd]. cbn [map]. rewrite sumZ_cons.
    apply elem_of_cons in Hin as [->|Hin].
    + rewrite sumZ_map_zero; [lia|].
      intros c' Hc'. apply H; [by right|]. intros ->. done.
    + rewrite (H c); [|by left|by intros ->].
      rewrite IH; [lia|done|done|]. intros c' Hc'. apply H. by right.
Qed.

Lemma last_lookup_total (c : list nat) :
  default 0%nat (last c) = c !!! (length c - 1)%nat.
Proof.
  rewrite last_lookup, list_lookup_total_alt.
  by replace (Init.Nat.pred (length c)) with (length c - 1)%nat by lia.
Qed.

Section Cycles.

Variable pop : gset nat → nat.
Hypothesis pop_in : ∀ s : gset nat, s ≠ ∅ → pop s ∈ s.
Variable P : matrix.
Hypothesis P_valid : is_generalized_permutation P = true.

#[local] Abbreviation d := (length P).
#[local] Abbreviation w := (perm_vector P).

Lemma cycle_nonempty c : c ∈ orbit_cycles pop P → (0 < length c)%nat.
Proof.
  intros Hc. destruct (cycle_is_orbit_cycle pop pop_in P P_valid c Hc) as (a & k & -> & _).
  rewrite iterates_length. lia.
Qed.

Lemma cycle_member c j :
  c ∈ orbit_cycles pop P → (j < length c)%nat → (c !!! j < d)%nat.
Proof.
  intros Hc Hj. apply (cycle_in_range pop pop_in P P_valid c Hc).
  apply list_elem_of_lookup. exists j. by apply cycle_lookup_total.
Qed.

Lemma cycles_positions j k c1 c2 x :
  orbit_cycles pop P !! j = Some c1 → orbit_cycles pop P !! k = Some c2 →
  x ∈ c1 → x ∈ c2 → j = k.
Proof.
  destruct (orbit_cycles_spec pop pop_in P P_valid) as [Hperm _].
  assert (NoDup (concat (orbit_cycles pop P))) as Hnd.
  { rewrite Hperm. apply NoDup_seq. }
  destruct (NoDup_concat_inv _ Hnd) as [_ Hdisj]. apply Hdisj.
Qed.

Lemma cycles_disjoint c1 c2 x :
  c1 ∈ orbit_cycles pop P → c2 ∈ orbit_cycles pop P →
  x ∈ c1 → x ∈ c2 → c1 = c2.
Proof.
  intros [j Hj]%list_elem_of_lookup [k Hk]%list_elem_of_lookup Hx1 Hx2.
  pose proof (cycles_positions j k c1 c2 x Hj Hk Hx1 Hx2) as ->.
  congruence.
Qed.

Lemma cycles_NoDup : NoDup (orbit_cycles pop P).
Proof.
  apply NoDup_alt. intros j k c Hj Hk.
  assert (c ∈ orbit_cycles pop P) as Hc by (apply list_elem_of_lookup; eauto).
  pose proof (cycle_nonempty c Hc) as Hlen.
  destruct c as [|a c]; [cbn in Hlen; lia|].
  apply (cycles_positions j k (a :: c) (a :: c) a Hj Hk); left.
Qed.

Lemma cycle_of_index r :
  (r < d)%nat → ∃ c, c ∈ orbit_cycles pop P ∧ r ∈ c.
Proof.
  intros Hr. destruct (orbit_cycles_spec pop pop_in P P_valid) as [Hperm _].
  apply elem_of_concat. rewrite Hperm, elem_of_seq. lia.
Qed.

Lemma cycle_column_nonzero c r :
  c ∈ orbit_cycles pop P → r ∈ c →
  cycle_column P c !!! r = 1 ∨ cycle_column P c !!! r = -1.
Proof.
  intros Hc [j Hj]%list_elem_of_lookup.
  pose proof (lookup_lt_Some _ _ _ Hj) as Hlt.
  rewrite <- (list_lookup_total_correct _ _ _ Hj).
  rewrite (cycle_column_product pop pop_in P P_valid c Hc j Hlt).
  apply prodZ_signs, Forall_forall. intros s Hs.
  apply list_elem_of_fmap in Hs as (i & -> & Hi).
  apply elem_of_seq in Hi.
  apply (sign_at_cycle pop pop_in P P_valid c Hc). lia.
Qed.

Lemma cycle_column_support c r :
  c ∈ orbit_cycles pop P → (r < d)%nat →
  cycle_column P c !!! r ≠ 0 ↔ r ∈ c.
Proof.
  intros Hc Hr. split.
  - intros Hnz. destruct (decide (r ∈ c)) as [|Hnin]; [done|].
    by rewrite cycle_column_outside in Hnz.
  - intros Hin. destruct (cycle_column_nonzero c r Hc Hin); lia.
Qed.

Lemma basis_lookup k q :
  get_equivariant_basis pop P !! k = Some q →
  ∃ c, filter (λ c, prodZ (row_signs P c) = 1) (orbit_cycles pop P) !! k = Some c
       ∧ c ∈ orbit_cycles pop P ∧ prodZ (row_signs P c) = 1
       ∧ q = cycle_column P c.
Proof.
  rewrite basis_unfold. change (@map) with (@fmap list _).
  rewrite list_lookup_fmap. intros Hq.
  destruct (filter _ _ !! k) as [c|] eqn:Hc; [|done].
  exists c. injection Hq as <-.
  assert (c ∈ filter (λ c, prodZ (row_signs P c) = 1) (orbit_cycles pop P)) as Hin.
  { apply list_elem_of_lookup. eauto. }
  apply list_elem_of_filter in Hin as [? ?]. done.
Qed.

End Cycles.

Section FixedPoints.

Variable pop : gset nat → nat.
Hypothesis pop_in : ∀ s : gset nat, s ≠ ∅ → pop s ∈ s.
Variable P : matrix.
Hypothesis P_valid : is_generalized_permutation P = true.
Variable x : vector.
Hypothesis x_length : length x = length P.
Hypothesis x_fixed : matvec P x = x.

#[local] Abbreviation d := (length P).
#[local] Abbreviation w := (perm_vector P).

Lemma fixed_point_row i : (i < d)%nat → x !!! i = sign_at P i * x !!! (w !!! i).
Proof.
  intros Hi. rewrite sign_at_row_sign by done.
  rewrite <- (matvec_lookup P w (generalized_permutation_structure P P_valid) x i Hi x_length).
  by rewrite x_fixed.
Qed.

Lemma fixed_point_along_cycle c m :
  c ∈ orbit_cycles pop P → (m < length c)%nat →
  x !!! (c !!! (length c - 1 - m)%nat)
  = cycle_column P c !!! (c !!! (length c - 1 - m)%nat)
    * x !!! (c !!! (length c - 1)%nat).
Proof.
  intros Hc. induction m as [|m IH]; intros Hm.
  - rewrite Nat.sub_0_r, (cycle_column_last pop pop_in P P_valid c Hc). lia.
  - assert (S (length c - 1 - S m) = length c - 1 - m)%nat as Hs by lia.
    assert (S (length c - 1 - S m) < length c)%nat as Hlt by lia.
    rewrite (cycle_column_step pop pop_in P P_valid c Hc _ Hlt).
    rewrite fixed_point_row by (apply (cycle_member pop pop_in P P_valid); [done|lia]).
    destruct (cycle_traversal pop pop_in P P_valid c Hc) as [Hstep _].
    rewrite <- (Hstep _ Hlt), Hs, IH by lia. lia.
Qed.

Lemma fixed_point_on_cycle c j :
  c ∈ orbit_cycles pop P → (j < length c)%nat →
  x !!! (c !!! j)
  = x !!! (c !!! (length c - 1)%nat) * cycle_column P c !!! (c !!! j).
Proof.
  intros Hc Hj.
  pose proof (fixed_point_along_cycle c (length c - 1 - j) Hc) as H.
  replace (length c - 1 - (length c - 1 - j))%nat with j in H by lia.
  rewrite H by lia. lia.
Qed.

Lemma fixed_point_last c :
  c ∈ orbit_cycles pop P →
  x !!! (c !!! (length c - 1)%nat)
  = prodZ (row_signs P c) * x !!! (c !!! (length c - 1)%nat).
Proof.
  intros Hc. pose proof (cycle_nonempty pop pop_in P P_valid c Hc) as Hk.
  destruct (cycle_traversal pop pop_in P P_valid c Hc) as [_ Hwrap].
  rewrite (prodZ_slice_whole (row_signs P c) (sign_at P (c !!! (length c - 1)%nat))).
  2:{ rewrite row_signs_length.
      rewrite (row_signs_lookup P c _ (c !!! (length c - 1)%nat))
        by (apply cycle_lookup_total; lia).
      rewrite sign_at_row_sign; [done|done|]. apply (cycle_member pop pop_in P P_valid); [done|lia]. }
  rewrite <- (cycle_column_value pop pop_in P P_valid c Hc 0%nat Hk).
  rewrite (fixed_point_row (c !!! (length c - 1)%nat)) at 1
    by (apply (cycle_member pop pop_in P P_valid); [done|lia]).
  rewrite Hwrap, (fixed_point_on_cycle c 0 Hc Hk). lia.
Qed.

Lemma fixed_point_negative_cycle c r :
  c ∈ orbit_cycles pop P → prodZ (row_signs P c) ≠ 1 → r ∈ c → x !!! r = 0.
Proof.
  intros Hc Hneg Hr.
  assert (prodZ (row_signs P c) = 1 ∨ prodZ (row_signs P c) = -1) as [?|Hm]; [|done|].
  { apply prodZ_signs, (row_signs_are_signs P P_valid).
    apply (cycle_in_range pop pop_in P P_valid c Hc). }
  pose proof (fixed_point_last c Hc) as Hl. rewrite Hm in Hl.
  apply list_elem_of_lookup in Hr as [j Hj].
  pose proof (lookup_lt_Some _ _ _ Hj) as Hlt.
  rewrite <- (list_lookup_total_correct _ _ _ Hj).
  rewrite (fixed_point_on_cycle c j Hc Hlt). lia.
Qed.

End FixedPoints.

(** X1: the basis spans the integer fixed points.  For a generalized
    permutation matrix [P] and a vector [x] of its dimension with [P x = x]:
    [x] vanishes on every cycle whose signs have product -1, and at every
    index [x] is the sum, over the cycles that contribute a column, of the
    value of [x] at the last index of the cycle times that column. *)
Theorem fixed_points_spanned_by_basis pop P (x : vector) :
  (∀ s : gset nat, s ≠ ∅ → pop s ∈ s) →
  is_generalized_permutation P = true →
  length x = length P → matvec P x = x →
  let cycles := filter (λ c, prodZ (row_signs P c) = 1) (orbit_cycles pop P) in
  get_equivariant_basis pop P = map (cycle_column P) cycles
  ∧ (∀ c r, c ∈ orbit_cycles pop P → prodZ (row_signs P c) ≠ 1 → r ∈ c →
            x !!! r = 0)
  ∧ ∀ r, (r < length P)%nat →
      x !!! r
      = sumZ (map (λ c, x !!! default 0%nat (last c) * cycle_column P c !!! r)
                  cycles).
Proof.
  intros Hpop HP Hlen Hfix cycles.
  split; [apply basis_unfold|]. split.
  { intros c r. by apply (fixed_point_negative_cycle pop Hpop P HP x). }
  intros r Hr.
  destruct (cycle_of_index pop Hpop P HP r Hr) as (c0 & Hc0 & Hin).
  assert (∀ c, c ∈ cycles → c ≠ c0 → cycle_column P c !!! r = 0) as Hother.
  { intros c Hc Hne. apply list_elem_of_filter in Hc as [_ Hc].
    apply cycle_column_outside; [done|]. intros Hrc.
    apply Hne. by apply (cycles_disjoint pop Hpop P HP c c0 r). }
  destruct (decide (prodZ (row_signs P c0) = 1)) as [Hpos|Hneg].
  - rewrite (sumZ_map_single _ cycles c0).
    + rewrite last_lookup_total.
      apply list_elem_of_lookup in Hin as [j Hj].
      pose proof (lookup_lt_Some _ _ _ Hj) as Hlt.
      rewrite <- (list_lookup_total_correct _ _ _ Hj).
      by apply (fixed_point_on_cycle pop Hpop P HP x).
    + apply NoDup_filter, (cycles_NoDup pop Hpop P HP).
    + by apply list_elem_of_filter.
    + intros c Hc Hne. rewrite (Hother c Hc Hne). lia.
  - rewrite (fixed_point_negative_cycle pop Hpop P HP x Hlen Hfix c0 r Hc0 Hneg Hin).
    symmetry. apply sumZ_map_zero. intros c Hc.
    rewrite (Hother c Hc); [lia|]. intros ->.
    by apply list_elem_of_filter in Hc as [? _].
Qed.

Lemma fixed_points_spanned_by_basis_witness :
  let P := [[0;1;0;0;0];[0;0;-1;0;0];[-1;0;0;0;0];[0;0;0;0;-1];[0;0;0;1;0]] in
  let x := [3; 3; -3; 0; 0] in
  let cycles := filter (λ c, prodZ (row_signs P c) = 1) (orbit_cycles pop_first P) in
  get_equivariant_basis pop_first P = map (cycle_column P) cycles
  ∧ (∀ c r, c ∈ orbit_cycles pop_first P → prodZ (row_signs P c) ≠ 1 → r ∈ c →
            x !!! r = 0)
  ∧ ∀ r, (r < length P)%nat →
      x !!! r
      = sumZ (map (λ c, x !!! default 0%nat (last c) * cycle_column P c !!! r)
                  cycles).
Proof.
  apply (fixed_points_spanned_by_basis pop_first
           [[0;1;0;0;0];[0;0;-1;0;0];[-1;0;0;0;0];[0;0;0;0;-1];[0;0;0;1;0]]
           [3; 3; -3; 0; 0]);
    [exact pop_first_in | reflexivity | reflexivity | reflexivity].
Defined.

(** X2: the columns of the basis are linearly independent.  Two columns at
    different positions of the basis are never both nonzero at an index, so
    their dot product is 0; and a combination of the columns that vanishes at
    every index has all its coefficients equal to 0. *)
Theorem basis_columns_independent pop P :
  (∀ s : gset nat, s ≠ ∅ → pop s ∈ s) →
  is_generalized_permutation P = true →
  let Q := get_equivariant_basis pop P in
  (∀ i j qi qj r, Q !! i = Some qi → Q !! j = Some qj → i ≠ j →
                  (r < length P)%nat → qi !!! r = 0 ∨ qj !!! r = 0)
  ∧ (∀ i j qi qj, Q !! i = Some qi → Q !! j = Some qj → i ≠ j → dot qi qj = 0)
  ∧ ∀ ys : vector,
      (∀ r, (r < length P)%nat →
            bigsum (length Q) (λ k, ys !!! k * (Q !!! k) !!! r) = 0) →
      ∀ k, (k < length Q)%nat → ys !!! k = 0.
Proof.
  intros Hpop HP Q.
  assert (∀ i j qi qj r, Q !! i = Some qi → Q !! j = Some qj → i ≠ j →
            (r < length P)%nat → qi !!! r = 0 ∨ qj !!! r = 0) as Hsupp.
  { intros i j qi qj r Hi Hj Hne Hr.
    destruct (basis_lookup pop P i qi Hi) as (ci & Hci & Hini & _ & ->).
    destruct (basis_lookup pop P j qj Hj) as (cj & Hcj & Hinj & _ & ->).
    destruct (decide (r ∈ ci)) as [Hri|Hri].
    - right. apply cycle_column_outside; [done|]. intros Hrj.
      pose proof (cycles_disjoint pop Hpop P HP ci cj r Hini Hinj Hri Hrj) as ->.
      apply Hne.
      assert (NoDup (filter (λ c, prodZ (row_signs P c) = 1) (orbit_cycles pop P)))
        as Hnd by apply NoDup_filter, (cycles_NoDup pop Hpop P HP).
      by apply (proj1 (NoDup_alt _) Hnd i j cj).
    - left. by apply cycle_column_outside. }
  split; [exact Hsupp|]. split.
  - intros i j qi qj Hi Hj Hne.
    destruct (basis_lookup pop P i qi Hi) as (ci & _ & _ & _ & Hqi).
    destruct (basis_lookup pop P j qj Hj) as (cj & _ & _ & _ & Hqj).
    rewrite (dot_bigsum qi qj (length P))
      by (subst; apply cycle_column_length).
    apply bigsum_zero. intros r Hr.
    destruct (Hsupp i j qi qj r Hi Hj Hne Hr) as [->| ->]; lia.
  - intros ys Hzero k Hk.
    destruct (lookup_lt_is_Some_2 Q k Hk) as [q Hq].
    destruct (basis_lookup pop P k q Hq) as (c & _ & Hc & _ & Hqc).
    pose proof (cycle_nonempty pop Hpop P HP c Hc) as Hlen.
    set (a := c !!! (length c - 1)%nat).
    assert (a < length P)%nat as Ha
      by (apply (cycle_member pop Hpop P HP); [done|lia]).
    specialize (Hzero a Ha).
    rewrite (bigsum_single _ _ k Hk) in Hzero.
    + rewrite (list_lookup_total_correct _ _ _ Hq), Hqc in Hzero.
      unfold a in Hzero.
      rewrite (cycle_column_last pop Hpop P HP c Hc) in Hzero. lia.
    + intros i Hi Hne.
      destruct (lookup_lt_is_Some_2 Q i Hi) as [qi Hqi].
      rewrite (list_lookup_total_correct _ _ _ Hqi).
      destruct (Hsupp i k qi q a Hqi Hq Hne Ha) as [->|Hz]; [lia|].
      rewrite Hqc in Hz. unfold a in Hz.
      rewrite (cycle_column_last pop Hpop P HP c Hc) in Hz. lia.
Qed.

Lemma basis_columns_independent_witness :
  let P := [[0;0;0;1];[0;0;1;0];[0;1;0;0];[1;0;0;0]] in
  let Q := get_equivariant_basis pop_first P in
  (∀ i j qi qj r, Q !! i = Some qi → Q !! j = Some qj → i ≠ j →
                  (r < length P)%nat → qi !!! r = 0 ∨ qj !!! r = 0)
  ∧ (∀ i j qi qj, Q !! i = Some qi → Q !! j = Some qj → i ≠ j → dot qi qj = 0)
  ∧ ∀ ys : vector,
      (∀ r, (r < length P)%nat →
            bigsum (length Q) (λ k, ys !!! k * (Q !!! k) !!! r) = 0) →
      ∀ k, (k < length Q)%nat → ys !!! k = 0.
Proof.
  apply (basis_columns_independent pop_first
           [[0;0;0;1];[0;0;1;0];[0;1;0;0];[1;0;0;0]]);
    [exact pop_first_in | reflexivity].
Defined.

(** ** Permutation matrices and involutions *)

Lemma prodZ_ones (l : vector) : Forall (λ x, x = 1) l → prodZ l = 1.
Proof.
  induction 1 as [|x l -> _ IH]; [done|]. rewrite prodZ_cons, IH. lia.
Qed.

Lemma filter_all {A} (Q : A → Prop) `{∀ x, Decision (Q x)} (l : list A) :
  Forall Q l → filter Q l = l.
Proof.
  induction 1 as [|x l Hx _ IH]; [done|].
  rewrite filter_cons, decide_True by done. by rewrite IH.
Qed.

Lemma has_negative_false P i j :
  has_negative P = false → (i < length P)%nat → (j < length (P !!! i))%nat →
  0 ≤ entry P i j.
Proof.
  intros Hneg Hi Hj. unfold entry.
  destruct (Z.ltb_spec ((P !!! i) !!! j) 0) as [Hlt|]; [|done].
  assert (has_negative P = true) as Ht; [|congruence].
  unfold has_negative. apply existsb_exists. exists (P !!! i). split.
  - apply list_elem_of_In, list_elem_of_lookup. exists i.
    by apply list_lookup_lookup_total_lt.
  - apply existsb_exists. exists ((P !!! i) !!! j). split.
    + apply list_elem_of_In, list_elem_of_lookup. exists j.
      by apply list_lookup_lookup_total_lt.
    + by apply Z.ltb_lt.
Qed.

Section PermutationMatrix.

Variable pop : gset nat → nat.
Hypothesis pop_in : ∀ s : gset nat, s ≠ ∅ → pop s ∈ s.
Variable P : matrix.
Hypothesis P_valid : is_generalized_permutation P = true.
Hypothesis P_positive : has_negative P = false.

#[local] Abbreviation d := (length P).
#[local] Abbreviation w := (perm_vector P).

Lemma positive_sign_at i : (i < d)%nat → sign_at P i = 1.
Proof.
  intros Hi.
  pose proof (signed_rows_generalized_permutation P P_valid) as HS.
  pose proof (sr_range _ _ _ _ HS i Hi) as Hw. cbv beta in Hw.
  pose proof (sr_square _ _ _ _ HS) as Hsq.
  assert (0 ≤ sign_at P i) as Hpos.
  { apply has_negative_false; [done|done|]. by rewrite (square_row d P i Hsq Hi). }
  assert (sign_at P i = row_sign P i) as Heq by by apply sign_at_row_sign.
  destruct (sr_sign _ _ _ _ HS i Hi); lia.
Qed.

Lemma positive_cycle c :
  c ∈ orbit_cycles pop P → Forall (λ x, x = 1) (row_signs P c).
Proof.
  intros Hc.
  rewrite (row_signs_sign_at P P_valid c)
    by apply (cycle_in_range pop pop_in P P_valid c Hc).
  apply Forall_forall. intros s Hs.
  apply list_elem_of_fmap in Hs as (i & -> & Hi).
  apply positive_sign_at. by apply (cycle_in_range pop pop_in P P_valid c Hc).
Qed.

End PermutationMatrix.

(** X3: for a permutation matrix (no negative entry) every cycle
    contributes a column, and the column of a cycle is its indicator vector:
    1 on the cycle, 0 elsewhere. *)
Theorem permutation_basis_indicators pop P :
  (∀ s : gset nat, s ≠ ∅ → pop s ∈ s) →
  is_generalized_permutation P = true →
  has_negative P = false →
  get_equivariant_basis pop P = map (cycle_column P) (orbit_cycles pop P)
  ∧ ∀ c r, c ∈ orbit_cycles pop P → (r < length P)%nat →
           cycle_column P c !!! r = if decide (r ∈ c) then 1 else 0.
Proof.
  intros Hpop HP Hpos. split.
  - rewrite basis_unfold. f_equal. apply filter_all, Forall_forall.
    intros c Hc. by apply prodZ_ones, (positive_cycle pop Hpop P HP Hpos).
  - intros c r Hc Hr. destruct (decide (r ∈ c)) as [Hin|Hnin].
    + apply list_elem_of_lookup in Hin as [j Hj].
      pose proof (lookup_lt_Some _ _ _ Hj) as Hlt.
      rewrite <- (list_lookup_total_correct _ _ _ Hj).
      rewrite (cycle_column_product pop Hpop P HP c Hc j Hlt).
      apply prodZ_ones, Forall_forall. intros s Hs.
      apply list_elem_of_fmap in Hs as (i & -> & Hi). apply elem_of_seq in Hi.
      apply (positive_sign_at P HP Hpos).
      apply (cycle_member pop Hpop P HP); [done|lia].
    + by apply cycle_column_outside.
Qed.

Lemma permutation_basis_indicators_witness :
  let P := [[0;0;0;1];[0;0;1;0];[0;1;0;0];[1;0;0;0]] in
  get_equivariant_basis pop_first P = map (cycle_column P) (orbit_cycles pop_first P)
  ∧ ∀ c r, c ∈ orbit_cycles pop_first P → (r < length P)%nat →
           cycle_column P c !!! r = if decide (r ∈ c) then 1 else 0.
Proof.
  apply (permutation_basis_indicators pop_first
           [[0;0;0;1];[0;0;1;0];[0;1;0;0];[1;0;0;0]]);
    [exact pop_first_in | reflexivity | reflexivity].
Defined.

(** ** The basis of an involution *)

Lemma sumZ_Permutation (l1 l2 : vector) : l1 ≡ₚ l2 → sumZ l1 = sumZ l2.
Proof.
  induction 1 as [|x l1 l2 _ IH|x y l|l1 l2 l3 _ IH1 _ IH2];
    rewrite ?sumZ_cons; lia.
Qed.

Lemma count_cycles (Q : list nat → Prop) `{∀ c, Decision (Q c)} (t : nat → Z)
    (l : list (list nat)) :
  (∀ c, c ∈ l →
        2 * (if decide (Q c) then 1 else 0)
        = Z.of_nat (length c) + sumZ (map t c)) →
  2 * Z.of_nat (length (filter Q l))
  = Z.of_nat (length (concat l)) + sumZ (map t (concat l)).
Proof.
  induction l as [|c l IH]; intros Hall; [done|].
  cbn [concat]. rewrite length_app, map_app, sumZ_app, filter_cons.
  specialize (IH (λ c' Hc', Hall c' (list_elem_of_further _ _ _ Hc'))).
  pose proof (Hall c (list_elem_of_here _ _)) as Hc.
  destruct (decide (Q c)); cbn [length]; lia.
Qed.

Section Involution.

Variable pop : gset nat → nat.
Hypothesis pop_in : ∀ s : gset nat, s ≠ ∅ → pop s ∈ s.
Variable P : matrix.
Hypothesis P_valid : is_generalized_permutation P = true.
Hypothesis P_involution : matmul P P = eye (length P).

#[local] Abbreviation d := (length P).
#[local] Abbreviation w := (perm_vector P).

Lemma involution_rows i :
  (i < d)%nat → w !!! (w !!! i) = i ∧ row_sign P i * row_sign P (w !!! i) = 1.
Proof.
  intros Hi.
  pose proof (signed_rows_generalized_permutation P P_valid) as HS.
  pose proof (signed_rows_matmul _ _ _ _ _ _ _ HS HS) as HSS.
  pose proof (sr_entry _ _ _ _ HSS i i Hi Hi) as He. cbv beta in He.
  rewrite P_involution, entry_eye, decide_True in He by done.
  destruct (decide (i = w !!! (w !!! i))) as [Heq|]; [|lia].
  split; [done|lia].
Qed.

Lemma involution_diagonal i :
  (i < d)%nat →
  entry P i i = if decide (w !!! i = i) then row_sign P i else 0.
Proof.
  intros Hi.
  pose proof (signed_rows_generalized_permutation P P_valid) as HS.
  rewrite (sr_entry _ _ _ _ HS i i Hi Hi). cbv beta.
  destruct (decide (i = w !!! i)), (decide (w !!! i = i)); congruence.
Qed.

Lemma involution_cycle c :
  c ∈ orbit_cycles pop P →
  2 * (if decide (prodZ (row_signs P c) = 1) then 1 else 0)
  = Z.of_nat (length c) + sumZ (map (λ r, entry P r r) c).
Proof.
  intros Hc.
  pose proof (signed_rows_generalized_permutation P P_valid) as HS.
  destruct (cycle_is_orbit_cycle pop pop_in P P_valid c Hc)
    as (a & k & -> & Hnd & Hrange & Hclose).
  assert (a < d)%nat as Ha by (apply Hrange; rewrite iterates_succ; apply list_elem_of_here).
  destruct (involution_rows a Ha) as [Hww Hss].
  destruct k as [|[|k]].
  - change (w !!! a = a) in Hclose. cbn [iterates seq map Nat.iter nat_rect].
    cbn [row_signs map length]. rewrite !sumZ_cons, prodZ_cons.
    change (sumZ []) with 0. change (prodZ []) with 1.
    rewrite involution_diagonal by done.
    rewrite (decide_True (P:=(w !!! a = a))) by done.
    change (sumZ (P !!! a)) with (row_sign P a).
    destruct (sr_sign _ _ _ _ HS a Ha) as [Hs|Hs]; rewrite Hs;
      [rewrite decide_True by lia|rewrite decide_False by lia]; lia.
  - rewrite !iterates_succ in Hnd |- *.
    change (iterates w (w !!! (w !!! a)) 0) with (@nil nat) in *.
    assert (w !!! a ≠ a) as Hne.
    { intros Heq. apply NoDup_cons in Hnd as [Hnin _]. apply Hnin.
      rewrite Heq. apply list_elem_of_here. }
    assert (w !!! a < d)%nat as Hwa by apply (sr_range _ _ _ _ HS a Ha).
    cbn [row_signs map length]. rewrite !sumZ_cons, !prodZ_cons.
    change (sumZ []) with 0. change (prodZ []) with 1.
    rewrite !involution_diagonal by done.
    rewrite (decide_False (P:=(w !!! a = a))) by done.
    rewrite (decide_False (P:=(w !!! (w !!! a) = w !!! a))) by (rewrite Hww; congruence).
    change (sumZ (P !!! a)) with (row_sign P a).
    change (sumZ (P !!! (w !!! a))) with (row_sign P (w !!! a)).
    rewrite decide_True by lia. lia.
  - exfalso.
    pose proof (iterates_lookup w a (S (S (S k))) 0 ltac:(lia)) as H0.
    pose proof (iterates_lookup w a (S (S (S k))) 2 ltac:(lia)) as H2.
    cbn [Nat.iter nat_rect] in H0, H2. rewrite Hww in H2.
    pose proof (proj1 (NoDup_alt _) Hnd 0%nat 2%nat a H0 H2). lia.
Qed.

End Involution.

Lemma basis_size_of_involution pop P :
  (∀ s : gset nat, s ≠ ∅ → pop s ∈ s) →
  is_generalized_permutation P = true →
  matmul P P = eye (length P) →
  2 * Z.of_nat (length (get_equivariant_basis pop P))
  = Z.of_nat (length P) + trace P.
Proof.
  intros Hpop HP Hinv.
  destruct (orbit_cycles_spec pop Hpop P HP) as [Hperm _].
  rewrite basis_unfold, length_map.
  rewrite (count_cycles _ (λ r, entry P r r) (orbit_cycles pop P))
    by apply (involution_cycle pop Hpop P HP Hinv).
  rewrite (Permutation_length Hperm), length_seq.
  rewrite (sumZ_Permutation _ (map (λ r, entry P r r) (seq 0 (length P))))
    by (by apply Permutation_map).
  rewrite (sr_trace _ _ _ _ (signed_rows_generalized_permutation P HP)).
  reflexivity.
Qed.

(** X4: for a generalized permutation matrix [P] that is an involution, twice
    the number of columns of the basis is the dimension plus the trace of
    [P]. *)
Theorem involution_basis_size pop P :
  (∀ s : gset nat, s ≠ ∅ → pop s ∈ s) →
  is_generalized_permutation P = true →
  matmul P P = eye (length P) →
  2 * Z.of_nat (length (get_equivariant_basis pop P))
  = Z.of_nat (length P) + trace P.
Proof. apply basis_size_of_involution. Qed.

Lemma involution_basis_size_witness :
  2 * Z.of_nat (length (get_equivariant_basis pop_first
                          [[1;0;0;0];[0;0;1;0];[0;1;0;0];[0;0;0;-1]]))
  = Z.of_nat (length [[1;0;0;0];[0;0;1;0];[0;1;0;0];[0;0;0;-1]])
    + trace [[1;0;0;0];[0;0;1;0];[0;1;0;0];[0;0;0;-1]].
Proof.
  apply (involution_basis_size pop_first
           [[1;0;0;0];[0;0;1;0];[0;1;0;0];[0;0;0;-1]]);
    [exact pop_first_in | reflexivity | reflexivity].
Defined.

(** ** The outcomes of [Sym.__init__] *)

Lemma check_generators_flags i gens flags flags' :
  Sym.check_generators i gens flags = inr flags' →
  flags'.1 = flags.1 && forallb (λ h, negb (has_negative (todense h))) gens
  ∧ flags'.2 = flags.2 || existsb issparse gens.
Proof.
  revert i flags. induction gens as [|h gens IH]; intros i flags H.
  - cbn in H. injection H as <-. cbn. by rewrite andb_true_r, orb_false_r.
  - cbn [Sym.check_generators] in H.
    destruct (column_norms_ok (todense h)); [|done].
    apply IH in H as [H1 H2]. cbn [fst snd] in H1, H2.
    cbn [forallb existsb]. rewrite H1, H2.
    destruct (has_negative (todense h)), (issparse h), flags as [[] []]; done.
Qed.

Lemma check_generators_error i gens flags e :
  Sym.check_generators i gens flags = inl e ↔
  ∃ k h, e = NotOrthogonal (i + k) ∧ gens !! k = Some h
         ∧ column_norms_ok (todense h) = false
         ∧ ∀ j h', (j < k)%nat → gens !! j = Some h' →
                   column_norms_ok (todense h') = true.
Proof.
  revert i flags. induction gens as [|h gens IH]; intros i flags.
  - cbn. split; [done|]. by intros (k & h & _ & ? & _).
  - cbn [Sym.check_generators].
    destruct (column_norms_ok (todense h)) eqn:Hh.
    + rewrite IH. split.
      * intros (k & h' & -> & Hk & Hbad & Hbefore).
        exists (S k), h'. split; [f_equal; lia|]. split; [done|]. split; [done|].
        intros [|j] h'' Hj Hl; [cbn in Hl; congruence|].
        apply (Hbefore j); [lia|done].
      * intros (k & h' & -> & Hk & Hbad & Hbefore).
        destruct k as [|k]; [cbn in Hk; congruence|].
        exists k, h'. split; [f_equal; lia|]. split; [done|]. split; [done|].
        intros j h'' Hj Hl. apply (Hbefore (S j)); [lia|done].
    + split.
      * intros [= <-]. exists 0%nat, h. split; [f_equal; lia|].
        split; [done|]. split; [done|]. intros j h' Hj. lia.
      * intros (k & h' & -> & Hk & Hbad & Hbefore).
        destruct k as [|k]; [f_equal; f_equal; lia|].
        specialize (Hbefore 0%nat h ltac:(lia) eq_refl). congruence.
Qed.

Lemma sym_init_flags gens G :
  Sym.init gens = inr G →
  Sym.is_permutation G = forallb (λ h, negb (has_negative (todense h))) gens
  ∧ Sym.is_sparse G = existsb issparse gens
  ∧ Sym.is_orthogonal G = true.
Proof.
  intros HG. unfold Sym.init in HG.
  destruct gens as [|g0 gens]; [done|].
  destruct (Sym.check_generators 0 (g0 :: gens) (true, false)) as [|flags] eqn:Hchk;
    [done|].
  apply check_generators_flags in Hchk as [H1 H2]. cbn [fst snd andb orb] in H1, H2.
  destruct (negb (Sym.stackable flags.2 (g0 :: gens))); [done|].
  injection HG as <-. cbn [Sym.is_permutation Sym.is_sparse Sym.is_orthogonal].
  done.
Qed.

Lemma sym_init_error_iff gens e :
  Sym.init gens = inl e ↔
  (gens = [] ∧ e = ZeroGenerators)
  ∨ (gens ≠ [] ∧ Sym.check_generators 0 gens (true, false) = inl e)
  ∨ (gens ≠ [] ∧ e = UnequalShapes
     ∧ Forall (λ h, column_norms_ok (todense h) = true) gens
     ∧ Sym.stackable (existsb issparse gens) gens = false).
Proof.
  unfold Sym.init. destruct gens as [|g0 gens].
  - split; [intros [= <-]; by left|]. intros [[_ ->]|[[? _]|[? _]]]; done.
  - destruct (Sym.check_generators 0 (g0 :: gens) (true, false))
      as [e'|flags] eqn:Hchk.
    + split; [intros [= <-]; right; by left|].
      intros [[? _]|[[_ [= <-]]|(_ & _ & Hall & _)]]; try done.
      destruct (check_generators_ok 0 _ (true, false) Hall) as (? & Hc & _).
      congruence.
    + pose proof (check_generators_inv _ _ _ _ Hchk) as Hall.
      apply check_generators_flags in Hchk as [_ H2].
      cbn [fst snd orb] in H2. rewrite H2.
      destruct (Sym.stackable _ _) eqn:Hst; cbn [negb].
      * split; [done|]. intros [[? _]|[[_ ?]|(_ & _ & _ & ?)]]; done.
      * split; [intros [= <-]; right; right; done|].
        intros [[? _]|[[_ ?]|(_ & -> & _)]]; done.
Qed.



(** X6: the attributes that [Sym.__init__] sets.  The generators are kept
    as given, [d] is the number of rows of the first one, [is_orthogonal] is
    always true, [is_permutation] holds iff no generator has a negative
    entry, [is_sparse] holds iff some generator is stored sparsely, and
    [n_inv_dims] counts the true entries of [inv_dims]. *)
Theorem sym_init_attributes gens G :
  Sym.init gens = inr G →
  Sym.discrete_generators G = gens
  ∧ (∃ g0, head gens = Some g0 ∧ Sym.d G = length (todense g0))
  ∧ Sym.is_orthogonal G = true
  ∧ (Sym.is_permutation G = true
     ↔ Forall (λ h, has_negative (todense h) = false) gens)
  ∧ (Sym.is_sparse G = true ↔ Exists (λ h, issparse h = true) gens)
  ∧ Sym.n_inv_dims G = length (filter (λ b, b = true) (Sym.inv_dims G))
  ∧ (Sym.n_inv_dims G ≤ length (Sym.inv_dims G))%nat.
Proof.
  intros HG.
  destruct (sym_init_flags gens G HG) as (H1 & H2 & H3).
  destruct (sym_init_inv gens G HG) as (Hne & _ & Hgens & Hd & _ & Hn).
  split; [done|]. split; [|split; [done|split; [|split; [|split]]]].
  - destruct gens as [|g0 gens]; [done|]. by exists g0.
  - rewrite H1, forallb_forall, Forall_forall. split.
    + intros H h Hh. specialize (H h (proj1 (list_elem_of_In _ _) Hh)).
      by apply negb_true_iff in H.
    + intros H h Hh. apply negb_true_iff, H, list_elem_of_In, Hh.
  - rewrite H2, existsb_exists, Exists_exists. split.
    + intros (h & Hh & ?). exists h. by rewrite list_elem_of_In.
    + intros (h & Hh & ?). exists h. by rewrite <- list_elem_of_In.
  - done.
  - rewrite Hn. apply length_filter.
Qed.

Lemma sym_init_attributes_witness :
  let gens := [ {| issparse := false; todense := [[1;0;0];[0;0;1];[0;1;0]] |};
                {| issparse := true; todense := [[1;0;0];[0;-1;0];[0;0;1]] |} ] in
  ∃ G, Sym.init gens = inr G
  ∧ Sym.discrete_generators G = gens
  ∧ (∃ g0, head gens = Some g0 ∧ Sym.d G = length (todense g0))
  ∧ Sym.is_orthogonal G = true
  ∧ (Sym.is_permutation G = true
     ↔ Forall (λ h, has_negative (todense h) = false) gens)
  ∧ (Sym.is_sparse G = true ↔ Exists (λ h, issparse h = true) gens)
  ∧ Sym.n_inv_dims G = length (filter (λ b, b = true) (Sym.inv_dims G))
  ∧ (Sym.n_inv_dims G ≤ length (Sym.inv_dims G))%nat.
Proof.
  intros gens. eexists. split; [reflexivity|].
  apply (sym_init_attributes gens). reflexivity.
Defined.



(** The test of [Sym.__init__] is on the norm of the columns only: a matrix
    with two equal unit columns passes it. *)
Example sym_init_accepts_non_orthogonal :
  ∃ G, Sym.init [ {| issparse := false; todense := [[1;1];[0;0]] |} ] = inr G
       ∧ Sym.is_orthogonal G = true.
Proof. eexists. split; reflexivity. Qed.

(** ** More on [Sym.oneline2matrix] *)






(** X9: the failures of [oneline2matrix], for a notation that is not
    empty, with values and signs that are 64-bit integers.  The assertion on
    the notation fails exactly when a value is repeated; the assertion on
    the reflexions fails exactly for a notation without repetition and a
    number of signs other than [d]; the sparse constructor fails exactly
    when, moreover the lengths agreeing, a value of the notation has
    absolute value [d] or more; there is no other failure; and an empty list
    of reflexions is treated as an omitted one. *)
Theorem oneline2matrix_errors notation reflexions :
  notation ≠ [] →
  Forall (λ x, -9223372036854775808 < x < 9223372036854775808) notation →
  Forall (λ x, -9223372036854775808 ≤ x < 9223372036854775808)
         (default [] reflexions) →
  let d := length notation in
  let signs := Sym.reflexions_or_ones d reflexions in
  (Sym.oneline2matrix notation reflexions = inl NotAPermutation
   ↔ ¬ NoDup notation)
  ∧ (Sym.oneline2matrix notation reflexions = inl ReflexionsLength
   ↔ NoDup notation ∧ length signs ≠ d)
  ∧ (Sym.oneline2matrix notation reflexions = inl ColumnIndexExceedsDimensions
     ↔ NoDup notation ∧ length signs = d
       ∧ ∃ x, x ∈ notation ∧ Z.of_nat d ≤ Z.abs x)
  ∧ (∀ e, Sym.oneline2matrix notation reflexions = inl e →
          e = NotAPermutation ∨ e = ReflexionsLength
          ∨ e = ColumnIndexExceedsDimensions)
  ∧ Sym.oneline2matrix notation (Some []) = Sym.oneline2matrix notation None.
Proof.
  intros _ _ _ d signs. rewrite oneline2matrix_unfold. cbv zeta. fold d. fold signs.
  pose proof (unique_length_NoDup notation) as Hu. fold d in Hu.
  assert (forallb (λ c, c <? d)%nat (map Z.abs_nat notation) = false
          ↔ ∃ x, x ∈ notation ∧ Z.of_nat d ≤ Z.abs x) as Hcols.
  { rewrite <- not_true_iff_false, forallb_forall. split.
    - intros Hnot.
      destruct (decide (Exists (λ x, Z.of_nat d ≤ Z.abs x) notation)) as [He|Hne].
      + apply Exists_exists in He. exact He.
      + exfalso. apply Hnot. intros c Hc.
        apply list_elem_of_In, list_elem_of_fmap in Hc as (x & -> & Hx).
        apply Nat.ltb_lt.
        rewrite <- Forall_Exists_neg, Forall_forall in Hne.
        specialize (Hne x Hx). lia.
    - intros (x & Hx & Hge) Hall.
      specialize (Hall (Z.abs_nat x)).
      rewrite <- list_elem_of_In in Hall.
      assert (Z.abs_nat x ∈ map Z.abs_nat notation) as Hin
        by (apply list_elem_of_fmap; eauto).
      apply Hall, Nat.ltb_lt in Hin. lia. }
  destruct (d =? length (Sym.unique notation))%nat eqn:Hd; cbn [negb].
  - apply Nat.eqb_eq in Hd. symmetry in Hd. apply Hu in Hd.
    split; [split; [|done]; by repeat case_match|].
    destruct (length signs =? d)%nat eqn:Hs; cbn [negb].
    + apply Nat.eqb_eq in Hs.
      destruct (forallb _ _) eqn:Hc.
      * split; [|split; [|split]]; try done.
        -- split; [done|]. intros [_ ?]. done.
        -- split; [done|]. intros (_ & _ & Hx). apply Hcols in Hx. congruence.
      * split; [|split; [|split]]; try done.
        -- split; [done|]. intros [_ ?]. done.
        -- split; [|done]. intros _. split; [done|]. split; [done|]. by apply Hcols.
        -- intros e [= <-]. auto.
    + apply Nat.eqb_neq in Hs.
      split; [|split; [|split]]; try done.
      * split; [done|]. intros (_ & ? & _). done.
      * intros e [= <-]. auto.
  - apply Nat.eqb_neq in Hd.
    assert (¬ NoDup notation) as Hdup by (intros H; apply Hu in H; lia).
    split; [done|].
    split; [|split; [|split]]; try done.
    + split; [done|]. intros [? _]. done.
    + split; [done|]. intros (? & _). done.
    + intros e [= <-]. auto.
Qed.

Lemma oneline2matrix_errors_witness :
  let notation := [0; 1; 5] in
  let reflexions := Some [1; -1; 1] in
  let d := length notation in
  let signs := Sym.reflexions_or_ones d reflexions in
  (Sym.oneline2matrix notation reflexions = inl NotAPermutation
   ↔ ¬ NoDup notation)
  ∧ (Sym.oneline2matrix notation reflexions = inl ReflexionsLength
     ↔ NoDup notation ∧ length signs ≠ d)
  ∧ (Sym.oneline2matrix notation reflexions = inl ColumnIndexExceedsDimensions
     ↔ NoDup notation ∧ length signs = d
       ∧ ∃ x, x ∈ notation ∧ Z.of_nat d ≤ Z.abs x)
  ∧ (∀ e, Sym.oneline2matrix notation reflexions = inl e →
          e = NotAPermutation ∨ e = ReflexionsLength
          ∨ e = ColumnIndexExceedsDimensions)
  ∧ Sym.oneline2matrix notation (Some []) = Sym.oneline2matrix notation None.
Proof.
  apply (oneline2matrix_errors [0; 1; 5] (Some [1; -1; 1]));
    [done | repeat constructor; lia | repeat constructor; lia].
Defined.

(** ** The group of order two *)

Lemma c2_init_inv h G : C2.init h = inr G → Sym.init [h] = inr G.
Proof.
  unfold C2.init. destruct (Sym.init [h]) as [e|G'] eqn:HG'; [done|].
  destruct (Sym.discrete_generators G') as [|h' [|]]; try done.
  repeat match goal with |- context [if ?b then _ else _] => destruct b end;
    try done; congruence.
Qed.

(** X10: the actions of an accepted [C2] group form a group of order two.
    For a generalized permutation matrix [h] of dimension below 200000 that
    [C2.__init__] accepts, [discrete_actions] is [[I; h]], its two elements
    are distinct, each is its own inverse, and the product of two actions is
    an action. *)
Theorem c2_discrete_actions_group h G :
  is_generalized_permutation (todense h) = true →
  Z.of_nat (length (todense h)) < 200000 →
  C2.init h = inr G →
  let d := length (todense h) in
  let actions := C2.discrete_actions G in
  Sym.d G = d
  ∧ actions = [eye d; todense h]
  ∧ NoDup actions
  ∧ (∀ A, A ∈ actions → matmul A A = eye d)
  ∧ (∀ A B, A ∈ actions → B ∈ actions → matmul A B ∈ actions).
Proof.
  intros HP Hd HG d actions.
  pose proof (signed_rows_generalized_permutation _ HP) as Hrows. fold d in Hrows.
  pose proof (sr_square _ _ _ _ Hrows) as Hsq.
  destruct (c2_init_signed_rows h d _ _ Hrows Hd) as (G' & HG' & Heq).
  rewrite HG in Heq.
  destruct (decide (todense h = eye d)) as [|Hne]; [done|].
  destruct (decide (matmul (todense h) (todense h) = eye d)) as [Hinv|]; [|done].
  injection Heq as ->.
  destruct (sym_init_inv [h] G' HG') as (_ & _ & Hgens & HdG & _).
  cbn [head from_option id] in HdG. fold d in HdG.
  assert (actions = [eye d; todense h]) as Hact.
  { unfold actions, C2.discrete_actions. by rewrite Hgens, HdG. }
  split; [done|]. split; [done|]. rewrite Hact. split; [|split].
  - apply NoDup_cons. split; [|apply NoDup_singleton].
    intros Hin. apply list_elem_of_singleton in Hin. congruence.
  - intros A HA. apply elem_of_cons in HA as [->|HA].
    + apply matmul_eye_l, square_eye.
    + apply list_elem_of_singleton in HA as ->. done.
  - intros A B HA HB.
    apply elem_of_cons in HA as [->|HA]; [|apply list_elem_of_singleton in HA as ->];
      (apply elem_of_cons in HB as [->|HB]; [|apply list_elem_of_singleton in HB as ->]).
    + rewrite matmul_eye_l by apply square_eye. apply list_elem_of_here.
    + rewrite matmul_eye_l by done. apply list_elem_of_further, list_elem_of_here.
    + rewrite matmul_eye_r by done. apply list_elem_of_further, list_elem_of_here.
    + rewrite Hinv. apply list_elem_of_here.
Qed.

Lemma c2_discrete_actions_group_witness :
  let h := {| issparse := true; todense := [[0;-1;0];[-1;0;0];[0;0;1]] |} in
  ∃ G, C2.init h = inr G ∧
  let d := length (todense h) in
  let actions := C2.discrete_actions G in
  Sym.d G = d
  ∧ actions = [eye d; todense h]
  ∧ NoDup actions
  ∧ (∀ A, A ∈ actions → matmul A A = eye d)
  ∧ (∀ A B, A ∈ actions → B ∈ actions → matmul A B ∈ actions).
Proof.
  intros h. eexists. split; [reflexivity|].
  apply (c2_discrete_actions_group h); reflexivity.
Defined.

(** ** The generator of [C2.canonical_group] *)

Lemma oneline2matrix_sparse p r H :
  Sym.oneline2matrix p r = inr H → issparse H = true.
Proof.
  rewrite oneline2matrix_unfold. cbv zeta.
  repeat match goal with |- context [if ?b then _ else _] => destruct b end;
    try done. by intros [= <-].
Qed.

Lemma signed_rows_has_negative n M f s :
  signed_rows n M f s →
  has_negative M = true ↔ ∃ i, (i < n)%nat ∧ s i = -1.
Proof.
  intros HM. pose proof (sr_square _ _ _ _ HM) as Hsq.
  pose proof (sr_length _ _ _ _ HM) as Hlen. split.
  - intros Hneg.
    destruct (decide (Exists (λ i, s i = -1) (seq 0 n))) as [He|Hne].
    { apply Exists_exists in He as (i & Hi & Hs). apply elem_of_seq in Hi.
      exists i. split; [lia|done]. }
    rewrite <- Forall_Exists_neg, Forall_forall in Hne.
    unfold has_negative in Hneg.
    apply existsb_exists in Hneg as (row & Hrow & Hx).
    apply existsb_exists in Hx as (x & Hx & Hlt). apply Z.ltb_lt in Hlt.
    apply list_elem_of_In, list_elem_of_lookup in Hrow as [i Hi].
    assert (i < n)%nat as Hin by (apply lookup_lt_Some in Hi; lia).
    apply list_lookup_total_correct in Hi. subst row.
    apply list_elem_of_In, list_elem_of_lookup in Hx as [j Hj].
    assert (j < n)%nat as Hjn
      by (apply lookup_lt_Some in Hj; by rewrite (square_row n M i Hsq Hin) in Hj).
    apply list_lookup_total_correct in Hj.
    change ((M !!! i) !!! j) with (entry M i j) in Hj.
    rewrite (sr_entry _ _ _ _ HM i j Hin Hjn) in Hj.
    assert (s i ≠ -1) as Hs by (apply Hne, elem_of_seq; lia).
    destruct (sr_sign _ _ _ _ HM i Hin); case_decide; lia.
  - intros (i & Hi & Hs).
    destruct (has_negative M) eqn:Hneg; [done|].
    pose proof (has_negative_false M i (f i) Hneg) as Hpos.
    rewrite (square_row n M i Hsq Hi), Hlen in Hpos.
    specialize (Hpos Hi (sr_range _ _ _ _ HM i Hi)).
    rewrite (sr_entry _ _ _ _ HM i (f i) Hi (sr_range _ _ _ _ HM i Hi)) in Hpos.
    rewrite decide_True in Hpos by done. lia.
Qed.

Lemma canonical_finish_inv d n flip inv_dims G :
  canonical_finish d n flip inv_dims = inr G →
  ∃ H, Sym.init [H] = inr G ∧ issparse H = true.
Proof.
  unfold canonical_finish.
  destruct (Sym.oneline2matrix _ _) as [|H] eqn:HH; [done|].
  destruct (C2.init H) as [|G'] eqn:HG; [done|].
  destruct (_ =? _); [|done]. intros [= <-].
  exists H. split; [by apply c2_init_inv|by apply oneline2matrix_sparse in HH].
Qed.

(** The parameters that the parity cases of [canonical_group] settle: whether
    the sign of the middle coordinate is changed, the request after its
    adjustment, and the number of coordinates fixed at each end. *)
Lemma canonical_group_cases d inv_dims :
  0 < d → 0 ≤ inv_dims < d - 1 →
  let flip := bool_decide (d mod 2 = 1 ∧ inv_dims mod 2 = 0) in
  let adjusted := if decide (d mod 2 = 0 ∧ inv_dims mod 2 = 1)
                  then inv_dims + 1 else inv_dims in
  let n := adjusted / 2 in
  C2.canonical_group d inv_dims = canonical_finish d n flip adjusted
  ∧ 0 ≤ n ∧ 2 * n + 2 ≤ d
  ∧ (flip = true → d mod 2 = 1)
  ∧ adjusted = 2 * n + (if decide (d mod 2 = 1 ∧ flip = false) then 1 else 0).
Proof.
  intros Hd Hinv flip adjusted n. rewrite canonical_group_unfold by lia.
  pose proof (Z.mod_pos_bound d 2 ltac:(lia)) as Hdm.
  pose proof (Z.mod_pos_bound inv_dims 2 ltac:(lia)) as Him.
  pose proof (Z.div_mod d 2 ltac:(lia)) as Hdd.
  pose proof (Z.div_mod inv_dims 2 ltac:(lia)) as Hid.
  unfold n, adjusted, flip.
  destruct (0 <? d mod 2) eqn:Ed; [apply Z.ltb_lt in Ed|apply Z.ltb_ge in Ed].
  - rewrite (decide_False (P:=(d mod 2 = 0 ∧ inv_dims mod 2 = 1))) by lia.
    destruct (inv_dims mod 2 =? 0) eqn:Ei; [apply Z.eqb_eq in Ei|apply Z.eqb_neq in Ei].
    + rewrite bool_decide_eq_true_2 by lia.
      split; [done|]. split; [lia|]. split; [lia|]. split; [lia|].
      rewrite decide_False by (intros [_ ?]; done). lia.
    + rewrite bool_decide_eq_false_2 by lia.
      assert ((inv_dims - 1) / 2 = inv_dims / 2) as ->.
      { symmetry. apply (Z.div_unique _ _ _ 0); lia. }
      split; [done|]. split; [lia|]. split; [lia|]. split; [done|].
      rewrite decide_True by (split; [lia|done]). lia.
  - rewrite bool_decide_eq_false_2 by lia.
    destruct (0 <? inv_dims mod 2) eqn:Ei; [apply Z.ltb_lt in Ei|apply Z.ltb_ge in Ei].
    + rewrite (decide_True (P:=(d mod 2 = 0 ∧ inv_dims mod 2 = 1))) by lia.
      assert ((inv_dims + 1) / 2 = inv_dims / 2 + 1) as Hq.
      { symmetry. apply (Z.div_unique _ _ _ 0); lia. }
      split; [done|]. split; [lia|]. split; [lia|]. split; [done|].
      rewrite decide_False by lia. lia.
    + rewrite (decide_False (P:=(d mod 2 = 0 ∧ inv_dims mod 2 = 1))) by lia.
      split; [done|]. split; [lia|]. split; [lia|]. split; [done|].
      rewrite decide_False by lia. lia.
Qed.

(** X11: [C2.canonical_group] in dimension below 128, for a request
    [inv_dims >= 0].  It fails with the first assertion when [d <= 0], with
    the second when [d > 0] and [inv_dims >= d - 1], and returns a group
    exactly when [0 < d] and [inv_dims < d - 1].  The group returned has
    dimension [d]; its number of invariant dimensions is [inv_dims], or
    [inv_dims + 1] when [d] is even and [inv_dims] odd; its generator is a
    generalized permutation matrix, an involution other than the
    identity. *)
Theorem c2_canonical_group_domain d inv_dims :
  d < 128 → 0 ≤ inv_dims →
  (d ≤ 0 → C2.canonical_group d inv_dims = inl DimensionNotPositive)
  ∧ (0 < d → d - 1 ≤ inv_dims →
     C2.canonical_group d inv_dims = inl NoSymmetricDimension)
  ∧ ((∃ G, C2.canonical_group d inv_dims = inr G) ↔ 0 < d ∧ inv_dims < d - 1)
  ∧ (∀ G, C2.canonical_group d inv_dims = inr G →
       Z.of_nat (Sym.n_inv_dims G)
       = (if decide (d mod 2 = 0 ∧ inv_dims mod 2 = 1)
          then inv_dims + 1 else inv_dims)
       ∧ Sym.d G = Z.to_nat d
       ∧ ∃ H, Sym.discrete_generators G = [H]
              ∧ is_generalized_permutation (todense H) = true
              ∧ todense H ≠ eye (Z.to_nat d)
              ∧ matmul (todense H) (todense H) = eye (Z.to_nat d)).
Proof.
  intros Hd Hinv.
  assert (d ≤ 0 → C2.canonical_group d inv_dims = inl DimensionNotPositive) as H1.
  { intros Hneg. unfold C2.canonical_group.
    assert ((0 <? d) = false) as -> by (apply Z.ltb_ge; lia). done. }
  assert (0 < d → d - 1 ≤ inv_dims →
          C2.canonical_group d inv_dims = inl NoSymmetricDimension) as H2.
  { intros Hpos Hge. unfold C2.canonical_group.
    assert ((0 <? d) = true) as -> by (apply Z.ltb_lt; lia).
    assert ((inv_dims <? d - 1) = false) as -> by (apply Z.ltb_ge; lia). done. }
  assert ((∃ G, C2.canonical_group d inv_dims = inr G) → 0 < d ∧ inv_dims < d - 1)
    as H3.
  { intros [G HG].
    destruct (decide (0 < d)) as [Hpos|Hneg]; [|rewrite H1 in HG by lia; done].
    destruct (decide (inv_dims < d - 1)) as [|Hge]; [done|].
    rewrite H2 in HG by lia. done. }
  assert (0 < d → inv_dims < d - 1 →
          ∃ G, C2.canonical_group d inv_dims = inr G
            ∧ Z.of_nat (Sym.n_inv_dims G)
              = (if decide (d mod 2 = 0 ∧ inv_dims mod 2 = 1)
                 then inv_dims + 1 else inv_dims)
            ∧ Sym.d G = Z.to_nat d
            ∧ ∃ H, Sym.discrete_generators G = [H]
                   ∧ is_generalized_permutation (todense H) = true
                   ∧ todense H ≠ eye (Z.to_nat d)
                   ∧ matmul (todense H) (todense H) = eye (Z.to_nat d)) as H4.
  { intros Hpos Hlt.
    destruct (canonical_group_cases d inv_dims Hpos ltac:(lia))
      as (-> & Hn & Hroom & Hflip & Hadj).
    apply canonical_finish_ok; [done|done|lia|done|done]. }
  split; [done|]. split; [done|]. split; [split; [done|]|].
  - intros [Hpos Hlt]. destruct (H4 Hpos Hlt) as (G & HG & _). eauto.
  - intros G HG. destruct (H3 (ex_intro _ G HG)) as [Hpos Hlt].
    destruct (H4 Hpos Hlt) as (G' & HG' & Hres).
    assert (G' = G) as -> by congruence. exact Hres.
Qed.

Lemma c2_canonical_group_domain_witness :
  (6 ≤ 0 → C2.canonical_group 6 3 = inl DimensionNotPositive)
  ∧ (0 < 6 → 6 - 1 ≤ 3 → C2.canonical_group 6 3 = inl NoSymmetricDimension)
  ∧ ((∃ G, C2.canonical_group 6 3 = inr G) ↔ 0 < 6 ∧ 3 < 6 - 1)
  ∧ (∀ G, C2.canonical_group 6 3 = inr G →
       Z.of_nat (Sym.n_inv_dims G)
       = (if decide (6 mod 2 = 0 ∧ 3 mod 2 = 1) then 3 + 1 else 3)
       ∧ Sym.d G = Z.to_nat 6
       ∧ ∃ H, Sym.discrete_generators G = [H]
              ∧ is_generalized_permutation (todense H) = true
              ∧ todense H ≠ eye (Z.to_nat 6)
              ∧ matmul (todense H) (todense H) = eye (Z.to_nat 6)).
Proof. apply (c2_canonical_group_domain 6 3); lia. Defined.

Lemma canonical_trace d n flip H :
  (2 * n + 2 ≤ d)%nat → (flip = true → (d mod 2 = 1)%nat) →
  signed_rows d H (canonical_perm d n) (canonical_sign d flip) →
  trace H = 2 * Z.of_nat n
            + (if decide (d mod 2 = 1)%nat then (if flip then -1 else 1) else 0).
Proof.
  intros Hroom Hflip Hrows.
  pose proof (Nat.div_mod_eq d 2) as Hdiv.
  pose proof (Nat.mod_upper_bound d 2 ltac:(lia)) as Hmod.
  rewrite (sr_trace _ _ _ _ Hrows).
  rewrite (bigsum_ext _ _ (λ i,
     ((if decide (i < n)%nat then 1 else 0) + (if decide (d - n ≤ i)%nat then 1 else 0))
     + (if decide (i = d / 2)%nat then 1 else 0)
       * (if decide (d mod 2 = 1)%nat then (if flip then -1 else 1) else 0))).
  - rewrite !bigsum_add, bigsum_scale_r, bigsum_below, bigsum_from, bigsum_at by lia.
    lia.
  - intros i Hi. rewrite (sr_entry _ _ _ _ Hrows i i Hi Hi).
    unfold canonical_perm, canonical_sign.
    destruct (decide (i < n ∨ d - n ≤ i)%nat) as [Hends|Hmid].
    + rewrite (decide_True (P:=(i = i))) by done.
      rewrite (bool_decide_eq_false_2 (i = d / 2)%nat) by lia.
      rewrite andb_false_r.
      rewrite (decide_False (P:=(i = d / 2)%nat)) by lia.
      repeat case_decide; lia.
    + rewrite (decide_False (P:=(i < n)%nat)), (decide_False (P:=(d - n ≤ i)%nat)) by lia.
      destruct (decide (i = d - 1 - i)%nat) as [Hfix|Hmove].
      * assert (i = d / 2 ∧ d mod 2 = 1)%nat as [Hm Ho] by lia.
        rewrite (bool_decide_eq_true_2 (i = d / 2)%nat) by done.
        rewrite (decide_True (P:=(i = d / 2)%nat)) by done.
        rewrite (decide_True (P:=(d mod 2 = 1)%nat)) by done.
        rewrite andb_true_r. destruct flip; lia.
      * destruct (decide (i = d / 2)%nat) as [Hm|]; [|lia].
        rewrite decide_False; [lia|]. lia.
Qed.

Lemma canonical_generator_rows d inv_dims :
  0 < d < 200000 → 0 ≤ inv_dims < d - 1 →
  let flip := bool_decide (d mod 2 = 1 ∧ inv_dims mod 2 = 0) in
  let adjusted := if decide (d mod 2 = 0 ∧ inv_dims mod 2 = 1)
                  then inv_dims + 1 else inv_dims in
  let n := Z.to_nat (adjusted / 2) in
  let dn := Z.to_nat d in
  ∃ G H, C2.canonical_group d inv_dims = inr G
    ∧ Sym.init [H] = inr G
    ∧ issparse H = true
    ∧ signed_rows dn (todense H) (canonical_perm dn n) (canonical_sign dn flip)
    ∧ (2 * n + 2 ≤ dn)%nat
    ∧ (flip = true → (dn mod 2 = 1)%nat)
    ∧ ((dn mod 2 = 1)%nat ↔ d mod 2 = 1)
    ∧ adjusted = 2 * Z.of_nat n
                 + (if decide (d mod 2 = 1 ∧ flip = false) then 1 else 0).
Proof.
  intros Hd Hinv flip adjusted n dn.
  destruct (canonical_group_cases d inv_dims ltac:(lia) Hinv)
    as (Heq & Hn & Hroom & Hflip & Hadj).
  fold flip in Heq, Hflip, Hadj. fold adjusted in Heq, Hadj, Hn, Hroom.
  destruct (canonical_finish_general _ _ _ _ Hn Hroom Hflip Hadj)
    as (H & G & Hinit & Hrows & Hne & _ & _ & _ & Hfin).
  rewrite isclose_gap in Hfin; [|lia|].
  2:{ pose proof (sr_trace_gap _ _ _ _ Hrows Hne). lia. }
  destruct (canonical_finish_inv _ _ _ _ _ Hfin) as (H' & Hinit' & Hsp).
  assert (H' = H) as ->.
  { apply sym_init_inv in Hinit as (_ & _ & Hg & _).
    apply sym_init_inv in Hinit' as (_ & _ & Hg' & _). congruence. }
  assert ((dn mod 2 = 1)%nat ↔ d mod 2 = 1) as Hodd.
  { unfold dn. rewrite <- (Nat2Z.id 2) at 1. rewrite <- Z2Nat.inj_mod by lia. lia. }
  exists G, H. rewrite Heq. split; [done|]. split; [done|]. split; [done|].
  split; [done|]. split; [unfold n, dn; lia|]. split; [|split; [done|]].
  - intros Hf. by apply Hodd, Hflip.
  - unfold n. rewrite Z2Nat.id by lia. exact Hadj.
Qed.

(** X12: the generator that [C2.canonical_group] builds, for
    [0 < d < 128] and [0 <= inv_dims < d - 1].  With [n] half the adjusted
    request, row [i] has its entry in column [i] when [i < n] or
    [i >= d - n], and in column [d - 1 - i] otherwise; the entry is 1, but
    -1 at the middle row when [d] is odd and [inv_dims] even.  The group is
    sparse, [is_permutation] tells whether no sign was changed, the
    invariant dimensions are the [n] first and [n] last ones, with the
    middle one when [d] and [inv_dims] are odd, and the trace of the
    generator is the adjusted request, less 1 when the sign was changed. *)
Theorem c2_canonical_group_generator d inv_dims :
  0 < d < 128 → 0 ≤ inv_dims < d - 1 →
  let flip := bool_decide (d mod 2 = 1 ∧ inv_dims mod 2 = 0) in
  let adjusted := if decide (d mod 2 = 0 ∧ inv_dims mod 2 = 1)
                  then inv_dims + 1 else inv_dims in
  let n := Z.to_nat (adjusted / 2) in
  let dn := Z.to_nat d in
  ∃ G H, C2.canonical_group d inv_dims = inr G
    ∧ Sym.discrete_generators G = [H]
    ∧ Sym.is_sparse G = true
    ∧ Sym.is_permutation G = negb flip
    ∧ (∀ i j, (i < dn)%nat → (j < dn)%nat →
         entry (todense H) i j
         = if decide (j = canonical_perm dn n i) then canonical_sign dn flip i else 0)
    ∧ (∀ i, (i < dn)%nat →
         Sym.inv_dims G !! i = Some true
         ↔ (i < n)%nat ∨ (dn - n ≤ i)%nat
           ∨ ((i = dn / 2)%nat ∧ d mod 2 = 1 ∧ inv_dims mod 2 = 1))
    ∧ trace (todense H) = adjusted - (if flip then 1 else 0).
Proof.
  intros Hd Hinv flip adjusted n dn.
  destruct (canonical_generator_rows d inv_dims ltac:(lia) Hinv)
    as (G & H & HG & Hinit & Hsp & Hrows & Hroom & Hflip & Hodd & Hadj).
  fold flip in Hrows, Hflip, Hadj. fold adjusted in Hadj. fold n in Hrows, Hroom, Hadj.
  fold dn in Hrows, Hroom, Hflip, Hodd.
  pose proof (Z.mod_pos_bound d 2 ltac:(lia)) as Hdm.
  pose proof (Z.mod_pos_bound inv_dims 2 ltac:(lia)) as Him.
  pose proof (sr_square _ _ _ _ Hrows) as Hsq.
  destruct (sym_init_flags _ _ Hinit) as (Hperm & Hsparse & _).
  destruct (sym_init_inv _ _ Hinit) as (_ & _ & Hgens & HdG & _).
  cbn [head from_option id] in HdG. rewrite (sr_length _ _ _ _ Hrows) in HdG.
  exists G, H. split; [done|]. split; [done|]. split; [|split; [|split; [|split]]].
  - rewrite Hsparse. cbn. by rewrite Hsp.
  - rewrite Hperm. cbn [forallb]. rewrite andb_true_r.
    destruct (has_negative (todense H)) eqn:Hneg.
    + apply (signed_rows_has_negative _ _ _ _ Hrows) in Hneg as (i & Hi & Hs).
      unfold canonical_sign in Hs. by destruct flip.
    + destruct flip eqn:Hf; [|done]. exfalso.
      assert (has_negative (todense H) = true) as Ht; [|congruence].
      apply (signed_rows_has_negative _ _ _ _ Hrows).
      exists (dn / 2)%nat. split; [apply Nat.div_lt; lia|].
      unfold canonical_sign. by rewrite bool_decide_eq_true_2.
  - intros i j Hi Hj. apply (sr_entry _ _ _ _ Hrows i j Hi Hj).
  - intros i Hi.
    rewrite (sym_inv_dims [H] G Hinit) by (rewrite HdG; by constructor).
    rewrite HdG. unfold untiled_inv_dims.
    change (@map) with (@fmap list _).
    rewrite list_lookup_fmap, lookup_seq_lt by done. cbn [fmap option_fmap option_map].
    pose proof (canonical_diagonal dn n flip Hroom Hflip _ Hrows i Hi) as Hdiag.
    assert (flip = false ∧ d mod 2 = 1 ↔ d mod 2 = 1 ∧ inv_dims mod 2 = 1) as Hmid.
    { unfold flip. rewrite bool_decide_eq_false. lia. }
    split.
    + intros [= Hb]. apply bool_decide_eq_true in Hb.
      apply Forall_cons in Hb as [Hb _].
      rewrite decide_True in Hdiag by done.
      destruct (decide (i < n)%nat); [by left|].
      destruct (decide (dn - n ≤ i)%nat); [by right; left|].
      destruct (decide (i = dn / 2 ∧ dn mod 2 = 1 ∧ flip = false)%nat)
        as [(? & ? & ?)|]; [|lia].
      right. right. split; [done|]. apply Hmid. split; [done|]. by apply Hodd.
    + intros Hpos. f_equal. apply bool_decide_eq_true. constructor; [|done].
      destruct (decide (entry (todense H) i i = 1)) as [|Hne]; [done|]. exfalso.
      destruct Hpos as [?|[?|(Hm & Hdo & Hio)]].
      * rewrite (decide_True (P:=(i < n)%nat)) in Hdiag by done.
        repeat case_decide; lia.
      * rewrite (decide_True (P:=(dn - n ≤ i)%nat)) in Hdiag by done.
        repeat case_decide; lia.
      * rewrite (decide_True (P:=(i = dn / 2 ∧ dn mod 2 = 1 ∧ flip = false)%nat))
          in Hdiag.
        -- repeat case_decide; lia.
        -- split; [done|]. split; [by apply Hodd|]. apply Hmid. done.
  - rewrite (canonical_trace dn n flip _ Hroom Hflip Hrows), Hadj.
    destruct (decide (dn mod 2 = 1)%nat) as [Ho|Ho].
    + apply Hodd in Ho. destruct flip.
      * rewrite decide_False by (intros [_ ?]; done). lia.
      * rewrite decide_True by done. lia.
    + rewrite decide_False by (intros [? _]; by apply Ho, Hodd).
      destruct flip eqn:Hf; [|lia]. exfalso. by apply Ho, Hflip.
Qed.

Lemma c2_canonical_group_generator_witness :
  let d := 5 in
  let inv_dims := 2 in
  let flip := bool_decide (d mod 2 = 1 ∧ inv_dims mod 2 = 0) in
  let adjusted := if decide (d mod 2 = 0 ∧ inv_dims mod 2 = 1)
                  then inv_dims + 1 else inv_dims in
  let n := Z.to_nat (adjusted / 2) in
  let dn := Z.to_nat d in
  ∃ G H, C2.canonical_group d inv_dims = inr G
    ∧ Sym.discrete_generators G = [H]
    ∧ Sym.is_sparse G = true
    ∧ Sym.is_permutation G = negb flip
    ∧ (∀ i j, (i < dn)%nat → (j < dn)%nat →
         entry (todense H) i j
         = if decide (j = canonical_perm dn n i) then canonical_sign dn flip i else 0)
    ∧ (∀ i, (i < dn)%nat →
         Sym.inv_dims G !! i = Some true
         ↔ (i < n)%nat ∨ (dn - n ≤ i)%nat
           ∨ ((i = dn / 2)%nat ∧ d mod 2 = 1 ∧ inv_dims mod 2 = 1))
    ∧ trace (todense H) = adjusted - (if flip then 1 else 0).
Proof. apply (c2_canonical_group_generator 5 2); lia. Defined.

(** ** The four-group *)

Lemma klein4_init_inv gens G : Klein4.init gens = inr G → Sym.init gens = inr G.
Proof.
  unfold Klein4.init. destruct (negb _); [done|].
  destruct (Sym.init gens) as [e|G'] eqn:HG'; [done|].
  destruct (Sym.discrete_generators G') as [|a [|b [|]]]; try done.
  repeat match goal with |- context [if ?b then _ else _] => destruct b end;
    try done; congruence.
Qed.

Section Klein4Algebra.

Variable n : nat.
Variables A B : matrix.
Hypothesis A_square : square n A.
Hypothesis B_square : square n B.
Hypothesis A_involution : matmul A A = eye n.
Hypothesis B_involution : matmul B B = eye n.
Hypothesis AB_involution : matmul (matmul A B) (matmul A B) = eye n.

Lemma klein4_AB_B : matmul (matmul A B) B = A.
Proof.
  rewrite (matmul_assoc n) by done. rewrite B_involution.
  by apply matmul_eye_r.
Qed.

Lemma klein4_A_AB : matmul A (matmul A B) = B.
Proof.
  rewrite <- (matmul_assoc n) by done. rewrite A_involution.
  by apply matmul_eye_l.
Qed.

Lemma klein4_commute : matmul B A = matmul A B.
Proof.
  pose proof (square_matmul n A B A_square B_square) as HAB.
  pose proof (square_matmul n B A B_square A_square) as HBA.
  assert (matmul A (matmul (matmul (matmul A B) (matmul A B)) B) = matmul A B) as H1.
  { rewrite AB_involution. by rewrite (matmul_eye_l n). }
  rewrite (matmul_assoc n (matmul A B) (matmul A B) B) in H1 by done.
  rewrite klein4_AB_B in H1.
  rewrite (matmul_assoc n A B A) in H1 by done.
  rewrite <- (matmul_assoc n A A (matmul B A)) in H1 by done.
  rewrite A_involution in H1. by rewrite (matmul_eye_l n) in H1.
Qed.

Lemma klein4_B_AB : matmul B (matmul A B) = A.
Proof.
  rewrite <- klein4_commute. rewrite <- (matmul_assoc n) by done.
  rewrite B_involution. by apply matmul_eye_l.
Qed.

Lemma klein4_AB_A : matmul (matmul A B) A = B.
Proof.
  rewrite (matmul_assoc n) by done. rewrite klein4_commute.
  exact klein4_A_AB.
Qed.

Lemma klein4_closed X Y :
  X ∈ [eye n; A; B; matmul A B] → Y ∈ [eye n; A; B; matmul A B] →
  matmul X Y ∈ [eye n; A; B; matmul A B].
Proof.
  pose proof (square_matmul n A B A_square B_square) as HAB.
  pose proof (square_eye n) as HI.
  intros HX HY.
  assert (∀ Z, square n Z → Z ∈ [eye n; A; B; matmul A B] →
               matmul (eye n) Z ∈ [eye n; A; B; matmul A B]) as Hl.
  { intros Z HZ Hin. by rewrite (matmul_eye_l n). }
  assert (∀ Z, Z ∈ [eye n; A; B; matmul A B] → square n Z) as Hsq.
  { intros Z Hin. repeat (apply elem_of_cons in Hin as [->|Hin]; [done|]).
    by apply elem_of_nil in Hin. }
  apply elem_of_cons in HX as [->|HX]; [by apply Hl; [apply Hsq|]|].
  apply elem_of_cons in HY as [->|HY].
  { rewrite (matmul_eye_r n) by (apply Hsq; by right). by right. }
  apply elem_of_cons in HX as [->|HX].
  { apply elem_of_cons in HY as [->|HY]; [rewrite A_involution; set_solver|].
    apply elem_of_cons in HY as [->|HY]; [set_solver|].
    apply list_elem_of_singleton in HY as ->. rewrite klein4_A_AB. set_solver. }
  apply elem_of_cons in HX as [->|HX].
  { apply elem_of_cons in HY as [->|HY]; [rewrite klein4_commute; set_solver|].
    apply elem_of_cons in HY as [->|HY]; [rewrite B_involution; set_solver|].
    apply list_elem_of_singleton in HY as ->. rewrite klein4_B_AB. set_solver. }
  apply list_elem_of_singleton in HX as ->.
  apply elem_of_cons in HY as [->|HY]; [rewrite klein4_AB_A; set_solver|].
  apply elem_of_cons in HY as [->|HY]; [rewrite klein4_AB_B; set_solver|].
  apply list_elem_of_singleton in HY as ->. rewrite AB_involution. set_solver.
Qed.

End Klein4Algebra.

(** X14: the actions of an accepted [Klein4] group are closed under
    composition.  For square generators [a] and [b] that [Klein4.__init__]
    accepts, [a b = b a], and the product of two of the four discrete
    actions is one of them. *)
Theorem klein4_actions_closed a b n G :
  square n (todense a) → square n (todense b) →
  Klein4.init [a; b] = inr G →
  matmul (todense a) (todense b) = matmul (todense b) (todense a)
  ∧ ∀ X Y, X ∈ Klein4.discrete_actions G → Y ∈ Klein4.discrete_actions G →
           matmul X Y ∈ Klein4.discrete_actions G.
Proof.
  intros Ha Hb HG.
  destruct (klein4_init_dense a b G HG) as [Hda Hdb].
  assert (∃ G', Klein4.init [a; b] = inr G') as Hacc by eauto.
  apply (klein4_init_accepts a b n Ha Hb Hda Hdb) in Hacc
    as (_ & _ & HAA & HBB & HABAB & _).
  destruct (klein4_init_generators a b n Ha Hb Hda Hdb G HG) as [Hgens Hd].
  split.
  - symmetry. by apply (klein4_commute n).
  - unfold Klein4.discrete_actions. rewrite Hgens, Hd.
    by apply klein4_closed.
Qed.

Lemma klein4_actions_closed_witness :
  let a := {| issparse := false; todense := [[0;1];[1;0]] |} in
  let b := {| issparse := false; todense := [[-1;0];[0;-1]] |} in
  ∃ G, Klein4.init [a; b] = inr G
  ∧ matmul (todense a) (todense b) = matmul (todense b) (todense a)
  ∧ ∀ X Y, X ∈ Klein4.discrete_actions G → Y ∈ Klein4.discrete_actions G →
           matmul X Y ∈ Klein4.discrete_actions G.
Proof.
  intros a b. eexists. split; [reflexivity|].
  apply (klein4_actions_closed a b 2);
    [split; [reflexivity|repeat constructor]
    |split; [reflexivity|repeat constructor]
    |reflexivity].
Defined.

(** X15: the failures of the four tests of [Klein4.__init__], for dense
    square generators with columns of norm 1: each assertion fails exactly
    when the ones before it hold and its own test does not; the last one, on
    the composition, fails exactly when [a] is an involution and [b = a]. *)
Theorem klein4_init_errors a b n :
  square n (todense a) → square n (todense b) →
  issparse a = false → issparse b = false →
  column_norms_ok (todense a) = true → column_norms_ok (todense b) = true →
  let A := todense a in
  let B := todense b in
  (Klein4.init [a; b] = inl GeneratorANotCyclic ↔ matmul A A ≠ eye n)
  ∧ (Klein4.init [a; b] = inl GeneratorBNotCyclic
     ↔ matmul A A = eye n ∧ matmul B B ≠ eye n)
  ∧ (Klein4.init [a; b] = inl CompositionNotCyclic
     ↔ matmul A A = eye n ∧ matmul B B = eye n
       ∧ matmul (matmul A B) (matmul A B) ≠ eye n)
  ∧ (Klein4.init [a; b] = inl CompositionTrivial
     ↔ matmul A A = eye n ∧ A = B).
Proof.
  intros Ha Hb Hda Hdb Hna Hnb A B.
  destruct (sym_init_ok [a; b]) as (G & HG & _); [done|by repeat constructor| |].
  { apply (stackable_square n).
    apply Forall_cons_2; [done|]. apply Forall_cons_2; [done|].
    apply Forall_nil_2. }
  rewrite (klein4_init_unfold a b n Ha Hb Hda Hdb G HG). fold A B.
  destruct (decide (matmul A A = eye n)) as [HAA|HAA].
  2:{ split; [done|]. split; [|split]; (split; [done|]); by intros [? _]. }
  destruct (decide (matmul B B = eye n)) as [HBB|HBB].
  2:{ split; [split; [done|]; tauto|]. split; [done|].
      split; (split; [done|]).
      - by intros (_ & ? & _).
      - intros [_ HAB]. exfalso. apply HBB. by rewrite <- HAB. }
  destruct (decide (matmul (matmul A B) (matmul A B) = eye n)) as [HABAB|HABAB].
  2:{ split; [split; [done|]; tauto|]. split; [split; [done|]; tauto|].
      split; [done|]. split; [done|]. intros [_ HAB]. exfalso. apply HABAB.
      rewrite <- HAB, HAA. by apply matmul_eye_l, square_eye. }
  destruct (decide (matmul A B = eye n)) as [HAB|HAB].
  - split; [split; [done|]; tauto|]. split; [split; [done|]; tauto|].
    split; [split; [done|]; tauto|]. split; [|done]. intros _. split; [done|].
    pose proof (klein4_A_AB n A B Ha Hb HAA) as H1.
    rewrite HAB, (matmul_eye_r n) in H1 by done. done.
  - split; [split; [done|]; tauto|]. split; [split; [done|]; tauto|].
    split; [split; [done|]; tauto|]. split; [done|].
    intros [_ Heq]. exfalso. apply HAB. by rewrite <- Heq.
Qed.

Lemma klein4_init_errors_witness :
  let a := {| issparse := false; todense := [[0;1];[1;0]] |} in
  let b := {| issparse := false; todense := [[0;1];[1;0]] |} in
  let A := todense a in
  let B := todense b in
  (Klein4.init [a; b] = inl GeneratorANotCyclic ↔ matmul A A ≠ eye 2)
  ∧ (Klein4.init [a; b] = inl GeneratorBNotCyclic
     ↔ matmul A A = eye 2 ∧ matmul B B ≠ eye 2)
  ∧ (Klein4.init [a; b] = inl CompositionNotCyclic
     ↔ matmul A A = eye 2 ∧ matmul B B = eye 2
       ∧ matmul (matmul A B) (matmul A B) ≠ eye 2)
  ∧ (Klein4.init [a; b] = inl CompositionTrivial
     ↔ matmul A A = eye 2 ∧ A = B).
Proof.
  apply (klein4_init_errors
           {| issparse := false; todense := [[0;1];[1;0]] |}
           {| issparse := false; todense := [[0;1];[1;0]] |} 2);
    first [reflexivity | split; [reflexivity|repeat constructor]].
Defined.

(** X16: [is_canonical] holds exactly when the trace of every generator is
    0: the tolerance of [np.allclose] admits no other integer. *)
Theorem klein4_is_canonical_exact G :
  Klein4.is_canonical G = true
  ↔ Forall (λ h, trace (todense h) = 0) (Sym.discrete_generators G).
Proof.
  unfold Klein4.is_canonical, Sym.generators_characters.
  rewrite forallb_forall, Forall_forall. split.
  - intros H h Hh. apply (isclose_exact _ 0); [done|].
    apply H, (in_map (λ h, trace (todense h))), list_elem_of_In, Hh.
  - intros H x Hx. apply in_map_iff in Hx as (h & <- & Hh).
    apply (isclose_exact _ 0); [done|]. by apply H, list_elem_of_In.
Qed.

(** ** The failures of [C2.__init__] and [Klein4.__init__] *)



(** X20: [Klein4.__init__] fails with its first assertion exactly when
    the number of generators is not 2; for two generators the failures of
    [Sym.__init__] on the norms are passed on unchanged; and an accepted
    list is kept as the list of generators. *)
Theorem klein4_init_arity gens :
  (Klein4.init gens = inl NotTwoGenerators ↔ length gens ≠ 2%nat)
  ∧ (length gens = 2%nat →
     ∀ i, Klein4.init gens = inl (NotOrthogonal i)
          ↔ Sym.init gens = inl (NotOrthogonal i))
  ∧ (∀ G, Klein4.init gens = inr G →
          length gens = 2%nat ∧ Sym.init gens = inr G
          ∧ Sym.discrete_generators G = gens).
Proof.
  assert (∀ G, Klein4.init gens = inr G →
          length gens = 2%nat ∧ Sym.init gens = inr G
          ∧ Sym.discrete_generators G = gens) as Hok.
  { intros G HG. pose proof (klein4_init_inv gens G HG) as Hinit.
    split; [|split; [done|by apply sym_init_inv in Hinit as (_ & _ & ? & _)]].
    unfold Klein4.init in HG.
    destruct (length gens =? 2)%nat eqn:Hl; [by apply Nat.eqb_eq in Hl|done]. }
  split; [|split; [|done]].
  - unfold Klein4.init.
    destruct (length gens =? 2)%nat eqn:Hl; cbn [negb].
    + apply Nat.eqb_eq in Hl. split; [|done].
      destruct (Sym.init gens) as [e|G] eqn:HG.
      * intros [= ->].
        apply sym_init_error_iff in HG as [[-> _]|[[_ HG]|(_ & ? & _)]];
          [done| |done].
        by apply check_generators_error in HG as (? & ? & ? & _).
      * apply sym_init_inv in HG as (_ & _ & Hgens & _). rewrite Hgens.
        destruct gens as [|a [|b [|]]]; try done.
        repeat match goal with |- context [if ?b then _ else _] => destruct b end;
          done.
    + apply Nat.eqb_neq in Hl. done.
  - intros Hl i. unfold Klein4.init.
    rewrite (proj2 (Nat.eqb_eq _ _) Hl). cbn [negb].
    destruct (Sym.init gens) as [e|G] eqn:HG; [done|].
    apply sym_init_inv in HG as (_ & _ & Hgens & _). rewrite Hgens.
    destruct gens as [|a [|b [|]]]; try done.
    repeat match goal with |- context [if ?b then _ else _] => destruct b end;
      done.
Qed.

(** ** [__repr__] *)

Lemma string_app_char_inj (s1 s2 : string) (c : Ascii.ascii) :
  s1 +:+ String c EmptyString = s2 +:+ String c EmptyString → s1 = s2.
Proof.
  revert s2. induction s1 as [|a s1 IH]; intros [|b s2] H; cbn in H.
  - done.
  - injection H as _ H. by destruct s2.
  - injection H as _ H. by destruct s1.
  - injection H as -> H. f_equal. by apply IH.
Qed.

(** X21: [__repr__].  For each of the three classes the string determines
    the dimension, and the strings of two different classes never
    coincide. *)
Theorem repr_determines_class_and_dimension G G' :
  (Sym.repr G = Sym.repr G' ↔ Sym.d G = Sym.d G')
  ∧ (C2.repr G = C2.repr G' ↔ Sym.d G = Sym.d G')
  ∧ (Klein4.repr G = Klein4.repr G' ↔ Sym.d G = Sym.d G')
  ∧ Sym.repr G ≠ C2.repr G' ∧ Sym.repr G ≠ Klein4.repr G'
  ∧ C2.repr G ≠ Klein4.repr G'.
Proof.
  unfold Sym.repr, C2.repr, Klein4.repr.
  split; [|split; [|split; [|split; [|split]]]].
  - split; [|by intros ->]. intros H.
    apply (inj (String.append "Sym(")), string_app_char_inj in H.
    by apply (inj pretty) in H.
  - split; [|by intros ->]. intros H.
    apply (inj (String.append "C2[d:")), string_app_char_inj in H.
    by apply (inj pretty) in H.
  - split; [|by intros ->]. intros H.
    apply (inj (String.append "V4[d:")), string_app_char_inj in H.
    by apply (inj pretty) in H.
  - intros H. cbn in H. discriminate H.
  - intros H. cbn in H. discriminate H.
  - intros H. cbn in H. discriminate H.
Qed.

Example repr_scenarios :
  ∃ G, C2.canonical_group 12 4 = inr G ∧ C2.repr G = "C2[d:12]"
       ∧ Sym.repr G = "Sym(12)" ∧ Klein4.repr G = "V4[d:12]".
Proof. eexists. split; [vm_compute; reflexivity|]. vm_compute. done. Qed.

(** ** Invariant dimensions and the basis *)

Section FixedCoordinate.

Variable pop : gset nat → nat.
Hypothesis pop_in : ∀ s : gset nat, s ≠ ∅ → pop s ∈ s.
Variable P : matrix.
Hypothesis P_valid : is_generalized_permutation P = true.
Variable i : nat.
Hypothesis i_range : (i < length P)%nat.
Hypothesis i_fixed : perm_vector P !!! i = i.

#[local] Abbreviation d := (length P).
#[local] Abbreviation w := (perm_vector P).

Lemma fixed_iter j : Nat.iter j (λ x, w !!! x) i = i.
Proof. induction j as [|j IH]; [done|]. rewrite Nat.iter_succ, IH. exact i_fixed. Qed.

Lemma fixed_coordinate_cycle : [i] ∈ orbit_cycles pop P.
Proof.
  destruct (cycle_of_index pop pop_in P P_valid i i_range) as (c & Hc & Hin).
  destruct (cycle_is_orbit_cycle pop pop_in P P_valid c Hc)
    as (a & k & Heq & Hnd & Hrange & Hclose).
  pose proof (signed_rows_generalized_permutation P P_valid) as HS.
  assert (a = i) as ->.
  { rewrite Heq in Hin. apply elem_of_iterates in Hin as (j & Hj & Hij).
    (* the orbit of [a] passes through the fixed point [i] and returns to [a] *)
    assert (∀ m, Nat.iter (j + m) (λ x, w !!! x) a = i) as Hstay.
    { intros m. rewrite Nat.add_comm, Nat.iter_add, <- Hij. apply fixed_iter. }
    rewrite <- Hclose, <- (Hstay (S k - j)%nat). f_equal. lia. }
  destruct k as [|k]; [by rewrite Heq in Hc|]. exfalso.
  rewrite Heq in Hnd.
  pose proof (iterates_lookup w i (S (S k)) 0 ltac:(lia)) as H0.
  pose proof (iterates_lookup w i (S (S k)) 1 ltac:(lia)) as H1.
  rewrite fixed_iter in H0, H1.
  pose proof (proj1 (NoDup_alt _) Hnd 0%nat 1%nat i H0 H1). lia.
Qed.

Lemma fixed_coordinate_column :
  cycle_column P [i] = <[i:=1]> (zeros d).
Proof.
  change (<[i:=1]> (zeros d)) with (unit_row d i 1).
  apply vector_eq_total.
  { by rewrite cycle_column_length, length_unit_row. }
  rewrite cycle_column_length. intros r Hr.
  rewrite unit_row_lookup by done.
  destruct (decide (r = i)) as [->|Hne].
  - exact (cycle_column_last pop pop_in P P_valid [i] fixed_coordinate_cycle).
  - apply cycle_column_outside; [done|]. by intros ->%list_elem_of_singleton.
Qed.

End FixedCoordinate.

(** X22: invariant dimensions and the basis.  For a group built by
    [Sym.__init__] on one generalized permutation matrix [h], every invariant
    dimension [i] gives the unit vector of [i] as a column of the basis of
    [h]; and when the diagonal entry of [h] at [i] is -1, every column of
    the basis is 0 at [i]. *)
Theorem invariant_dimension_in_basis pop h G i :
  (∀ s : gset nat, s ≠ ∅ → pop s ∈ s) →
  is_generalized_permutation (todense h) = true →
  Sym.init [h] = inr G →
  (i < Sym.d G)%nat →
  (Sym.inv_dims G !! i = Some true
   → <[i:=1]> (zeros (Sym.d G)) ∈ get_equivariant_basis pop (todense h))
  ∧ (entry (todense h) i i = -1
     → ∀ q, q ∈ get_equivariant_basis pop (todense h) → q !!! i = 0).
Proof.
  intros Hpop HP HG Hi.
  pose proof (signed_rows_generalized_permutation _ HP) as HS.
  pose proof (sr_square _ _ _ _ HS) as Hsq.
  destruct (sym_init_inv _ _ HG) as (_ & _ & _ & Hd & _).
  cbn [head from_option id] in Hd. rewrite Hd in Hi |- *.
  assert (entry (todense h) i i ≠ 0 →
          perm_vector (todense h) !!! i = i
          ∧ sign_at (todense h) i = entry (todense h) i i) as Hfix.
  { intros Hnz. rewrite (sr_entry _ _ _ _ HS i i Hi Hi) in Hnz.
    destruct (decide (i = perm_vector (todense h) !!! i)) as [Heq|]; [|done].
    split; [done|]. unfold sign_at. by rewrite <- Heq. }
  split.
  - intros Hinv.
    rewrite (sym_inv_dims [h] G HG) in Hinv by (rewrite Hd; by constructor).
    unfold untiled_inv_dims in Hinv. change (@map) with (@fmap list _) in Hinv.
    rewrite Hd, list_lookup_fmap, lookup_seq_lt in Hinv by done.
    injection Hinv as Hinv. apply bool_decide_eq_true, Forall_cons in Hinv as [He _].
    destruct Hfix as [Hw Hs]; [lia|].
    rewrite <- (fixed_coordinate_column pop Hpop _ HP i Hi Hw).
    apply (cycle_column_in_basis pop Hpop _ HP).
    + by apply fixed_coordinate_cycle.
    + cbn [map]. rewrite prodZ_cons, Hs, He. done.
  - intros He q Hq. destruct Hfix as [Hw Hs]; [lia|].
    rewrite basis_unfold in Hq. apply list_elem_of_fmap in Hq as (c & -> & Hc).
    apply list_elem_of_filter in Hc as [Hprod Hc].
    apply cycle_column_outside; [done|]. intros Hin.
    pose proof (fixed_coordinate_cycle pop Hpop _ HP i Hi Hw) as Hci.
    assert (c = [i]) as ->.
    { apply (cycles_disjoint pop Hpop _ HP c [i] i Hc Hci Hin).
      apply list_elem_of_here. }
    cbn [row_signs map] in Hprod. rewrite prodZ_cons in Hprod.
    change (sumZ (todense h !!! i)) with (row_sign (todense h) i) in Hprod.
    rewrite <- sign_at_row_sign, Hs, He in Hprod by done. done.
Qed.

Lemma invariant_dimension_in_basis_witness :
  let h := {| issparse := true; todense := [[0;1;0];[-1;0;0];[0;0;1]] |} in
  ∃ G, Sym.init [h] = inr G
  ∧ (Sym.inv_dims G !! 2%nat = Some true
     → <[2%nat:=1]> (zeros (Sym.d G)) ∈ get_equivariant_basis pop_first (todense h))
  ∧ (entry (todense h) 2 2 = -1
     → ∀ q, q ∈ get_equivariant_basis pop_first (todense h) → q !!! 2%nat = 0).
Proof.
  intros h. eexists. split; [reflexivity|].
  apply (invariant_dimension_in_basis pop_first h);
    [exact pop_first_in | reflexivity | reflexivity | vm_compute; lia].
Defined.
